(** * Song service: catalog search, caching, retry and link resolution

    A shallow embedding of [src/services/songService.ts] (the variant with
    TTL caches and retries, lines 1-237) together with the properties the
    specification states about it. The earlier variant of the service
    (lines 238-403 of the same file) is embedded in the module [Legacy],
    and [removeUndefined] and [generateId] of [firebase.ts] follow it.

    Conventions of the embedding.
    - A JavaScript string is the list of its UTF-16 code units ([jsstring]).
    - A JavaScript number is an IEEE 754 binary64 value. Every number the
      service handles is an integer or infinite (identifiers, milliseconds,
      seconds) and is modelled by that integer of [Z], the infinite one by
      [INFINITY]. Comparison and the subtraction of clock readings are
      exact; where a result depends on input that nothing bounds (the
      digits of a start time, a track time, the end of a window) the
      operation rounds to the nearest binary64 value as the language does
      ([toDouble], [floorQuot]).
    - The [any]-typed payloads are typed by the fields the code consumes:
      a field is either absent ([None], covering [undefined] and [null]) or
      has the type the endpoint documents; the title of an embed body may
      also be of another type ([OtherTitle]). A catalog body on which the
      normalizer throws (an entry that is [null], [results] that is not an
      array, a name that is not a string) is outside the model: what is
      said of the lists that [getPopularSongs] and [searchSongs] resolve
      to is said of the calls that resolve.
    - Module-level state (the two caches) and the outside world (network,
      clock) are threaded through a state monad [M]; the outcomes of the
      network and the readings of the clock are given by a [Host]. *)

From stdpp Require Import gmap list strings.
From Stdlib Require Import ZArith Lia.
From Stdlib Require QArith.

Set Default Proof Using "Type".

(** ** JavaScript strings *)

Abbreviation jsstring := (list N).

(** The code units of an ASCII literal. *)
Fixpoint js (s : string) : jsstring :=
  match s with
  | EmptyString => []
  | String c r => Ascii.N_of_ascii c :: js r
  end.

Arguments js : simpl never.

Definition HYPHEN : N := 45.        (* '-' *)
Definition MIDDLE_DOT : N := 183.   (* U+00B7 *)

(** ECMAScript LineTerminator: LF, CR, LS, PS. *)
Definition isLineTerminator (c : N) : bool :=
  bool_decide (c ∈ [10; 13; 8232; 8233]%N).

(** ECMAScript WhiteSpace or LineTerminator: what [trim] strips and what
    the regular expression class [\s] matches. *)
Definition isWhiteSpace (c : N) : bool :=
  bool_decide (c ∈ [9; 11; 12; 32; 160; 5760; 8239; 8287; 12288; 65279]%N)
  || bool_decide (8192 ≤ c ≤ 8202)%N
  || isLineTerminator c.

Arguments isLineTerminator : simpl never.
Arguments isWhiteSpace : simpl never.

Fixpoint takeWhile {A} (p : A → bool) (l : list A) : list A :=
  match l with
  | x :: r => if p x then x :: takeWhile p r else []
  | [] => []
  end.

Fixpoint dropWhile {A} (p : A → bool) (l : list A) : list A :=
  match l with
  | x :: r => if p x then dropWhile p r else l
  | [] => []
  end.

(** [String.prototype.trim] *)
Definition trimStart (s : jsstring) : jsstring := dropWhile isWhiteSpace s.
Definition trimEnd (s : jsstring) : jsstring :=
  reverse (dropWhile isWhiteSpace (reverse s)).
Definition trim (s : jsstring) : jsstring := trimEnd (trimStart s).

(** [s.split(sep)] for a one-code-unit separator: never the empty array. *)
Fixpoint split (sep : N) (s : jsstring) : list jsstring :=
  match s with
  | [] => [[]]
  | c :: r =>
      if bool_decide (c = sep) then [] :: split sep r
      else match split sep r with
           | p :: ps => (c :: p) :: ps
           | [] => [[c]]
           end
  end.

Fixpoint startsWith (p s : jsstring) : bool :=
  match p, s with
  | [], _ => true
  | a :: p', b :: s' => bool_decide (a = b) && startsWith p' s'
  | _ :: _, [] => false
  end.

(** [s.includes(k)] *)
Fixpoint includes (s k : jsstring) : bool :=
  startsWith k s ||
  match s with
  | [] => false
  | _ :: r => includes r k
  end.

(** [s.replace(pat, rep)] with string arguments: the first occurrence only.
    ([rep] holds no dollar sign here, so no replacement pattern applies.) *)
Fixpoint replace (pat rep s : jsstring) : jsstring :=
  if startsWith pat s then rep ++ drop (length pat) s
  else match s with
       | [] => []
       | c :: r => c :: replace pat rep r
       end.

(** [s.slice(0, n)] *)
Definition slice0 (n : nat) (s : jsstring) : jsstring := take n s.

(** [String.prototype.toLowerCase] restricted to what is needed to run
    examples: it agrees with the built-in on strings of ASCII code units.
    The service itself takes the built-in from its [Host]. *)
Definition toLowerCaseASCII (s : jsstring) : jsstring :=
  (λ c, if bool_decide (65 ≤ c ≤ 90)%N then (c + 32)%N else c) <$> s.

Definition inRange (lo hi : string) (c : N) : bool :=
  match js lo, js hi with
  | [l], [h] => bool_decide (l ≤ c ≤ h)%N
  | _, _ => false
  end.

Definition isDigit (c : N) : bool := inRange "0" "9" c.
Definition isAlnum (c : N) : bool :=
  inRange "a" "z" c || inRange "A" "Z" c || inRange "0" "9" c.

(** [encodeURIComponent]: the unreserved code units stay, every other code
    point becomes the percent-escaped bytes of its UTF-8 form; [None] is the
    [URIError] thrown for a surrogate without its partner. *)
Definition isUriUnreserved (c : N) : bool :=
  isAlnum c || bool_decide (c ∈ js "-_.!~*'()").

Definition hexDigit (n : N) : N :=
  if bool_decide (n < 10)%N then (48 + n)%N else (55 + n)%N.

Definition percent (byte : N) : jsstring :=
  [37; hexDigit (byte / 16); hexDigit (byte mod 16)]%N.

Definition utf8 (cp : N) : list N :=
  if bool_decide (cp < 128)%N then [cp]
  else if bool_decide (cp < 2048)%N then
    [192 + cp / 64; 128 + cp mod 64]%N
  else if bool_decide (cp < 65536)%N then
    [224 + cp / 4096; 128 + (cp / 64) mod 64; 128 + cp mod 64]%N
  else
    [240 + cp / 262144; 128 + (cp / 4096) mod 64;
     128 + (cp / 64) mod 64; 128 + cp mod 64]%N.

Definition isHighSurrogate (c : N) : bool := bool_decide (55296 ≤ c ≤ 56319)%N.
Definition isLowSurrogate (c : N) : bool := bool_decide (56320 ≤ c ≤ 57343)%N.

Fixpoint encodeURIComponent (s : jsstring) : option jsstring :=
  match s with
  | [] => Some []
  | c :: r =>
      if isUriUnreserved c then (c ::.) <$> encodeURIComponent r
      else if isLowSurrogate c then None
      else if isHighSurrogate c then
        match r with
        | d :: r' =>
            if isLowSurrogate d then
              let cp := ((c - 55296) * 1024 + (d - 56320) + 65536)%N in
              (mjoin (percent <$> utf8 cp) ++.) <$> encodeURIComponent r'
            else None
        | [] => None
        end
      else (mjoin (percent <$> utf8 c) ++.) <$> encodeURIComponent r
  end.

(** Truthiness of an optional string / number ([undefined], [null], the
    empty string and [0] are falsy). *)
Definition truthyStr (o : option jsstring) : bool :=
  match o with Some (_ :: _) => true | _ => false end.
Definition truthyNum (o : option Z) : bool :=
  match o with Some n => negb (bool_decide (n = 0%Z)) | None => false end.

(** [o || dflt] *)
Definition orStr (o : option jsstring) (dflt : jsstring) : jsstring :=
  match o with Some (c :: r) => c :: r | _ => dflt end.
Definition orNum (o : option Z) (dflt : Z) : Z :=
  match o with Some n => if bool_decide (n = 0%Z) then dflt else n | None => dflt end.

(** ** JavaScript numbers

    The value of an arithmetic operation is its exact result rounded to
    the nearest binary64 value, a tie going to the value with an even
    mantissa; a result of magnitude [2 ^ 1024] or more is infinite. *)

(** Nearest integer to [n / d] for [0 < d]; a tie goes to the even one. *)
Definition roundHalfEven (n d : Z) : Z :=
  let q := (n / d)%Z in
  let r := (n mod d)%Z in
  if (2 * r <? d)%Z then q
  else if (d <? 2 * r)%Z then (q + 1)%Z
  else if Z.even q then q else (q + 1)%Z.

(** The integer [k] with [2 ^ k ≤ a / d < 2 ^ (k + 1)], for [0 < a] and
    [0 < d]. *)
Definition floorLog2 (a d : Z) : Z :=
  let k := (Z.log2 a - Z.log2 d)%Z in
  if (if (0 <=? k)%Z then (d * 2 ^ k <=? a)%Z else (d <=? a * 2 ^ (- k))%Z)
  then k else (k - 1)%Z.

(** [Infinity]: above every finite number. *)
Definition INFINITY : Z := (2 ^ 1024)%Z.

(** The binary64 value nearest to [n / d], for [0 < d], as a fraction
    [(num, den)]: a mantissa of 53 bits times a power of two, the exponent
    not below -1074. *)
Definition roundDouble (n d : Z) : Z * Z :=
  if (n =? 0)%Z then (0%Z, 1%Z)
  else
    let a := Z.abs n in
    let e := Z.max (floorLog2 a d - 52) (-1074) in
    let m := if (0 <=? e)%Z then roundHalfEven a (d * 2 ^ e)
             else roundHalfEven (a * 2 ^ (- e)) d in
    let num := if (0 <=? e)%Z then (m * 2 ^ e)%Z else m in
    let den := if (0 <=? e)%Z then 1%Z else (2 ^ (- e))%Z in
    if (INFINITY * den <=? num)%Z then ((Z.sgn n * INFINITY)%Z, 1%Z)
    else ((Z.sgn n * num)%Z, den).

(** The number nearest to the integer [z]. *)
Definition toDouble (z : Z) : Z :=
  let '(num, den) := roundDouble z 1 in (num / den)%Z.

(** [Math.floor(x / y)] for numbers [x] and [y] that are integers, [y]
    finite and [0 < y]. *)
Definition floorQuot (x y : Z) : Z :=
  if (INFINITY <=? Z.abs x)%Z then x
  else let '(num, den) := roundDouble x y in (num / den)%Z.

(** A value that has reached [INFINITY] is infinite. *)
Definition clamp (v : Z) : Z := if (INFINITY <=? v)%Z then INFINITY else v.

(** ** Data model *)

Record Song := {
  id : Z;
  title : jsstring;
  artist : jsstring;
  album : jsstring;
  albumCover : jsstring;
  preview : jsstring;
  duration : Z;
}.

#[global] Instance Song_eq_dec : EqDecision Song.
Proof. solve_decision. Defined.

Inductive Platform := youtube | spotify.

#[global] Instance Platform_eq_dec : EqDecision Platform.
Proof. solve_decision. Defined.

(** [SongData]: [sd_id] is [videoId] for [youtube] and [trackId] for
    [spotify]. *)
Record SongData := {
  sd_type : Platform;
  sd_id : jsstring;
  sd_title : jsstring;
  sd_artist : jsstring;
  sd_albumCover : option jsstring;
  startTime : Z;
  endTime : Z;
}.

Record CacheEntry := { data : list Song; timestamp : Z }.

Definition SEARCH_CACHE_TTL : Z := 30 * 60 * 1000.
Definition POPULAR_CACHE_TTL : Z := 2 * 60 * 60 * 1000.

(** One element of the catalog's [results] array. *)
Record Track := {
  trackId : option Z;
  trackName : option jsstring;
  artistName : option jsstring;
  collectionName : option jsstring;
  artworkUrl100 : option jsstring;
  previewUrl : option jsstring;
  kind : option jsstring;
  trackTimeMillis : option Z;
}.

(** [data.title] of an embed body: absent ([undefined] or [null]), a
    string, or a value of another type. *)
Inductive JsonTitle :=
  | NoTitle
  | StringTitle (t : jsstring)
  | OtherTitle.

(** A parsed JSON object, seen through the properties the service reads:
    [results] of a catalog body, [title] and [thumbnail_url] of an embed
    body. *)
Record Json := {
  results : option (list Track);
  json_title : JsonTitle;
  thumbnail_url : option jsstring;
}.

(** ** Catalog response normalizer *)

Definition keepTrack (t : Track) : bool :=
  truthyStr (previewUrl t)
  && bool_decide (kind t = Some (js "song"))
  && truthyNum (trackId t).

Definition toSong (t : Track) : Song :=
  {| id := default 0%Z (trackId t);
     title := slice0 100 (orStr (trackName t) (js "Unknown"));
     artist := slice0 100 (orStr (artistName t) (js "Unknown Artist"));
     album := slice0 100 (orStr (collectionName t) []);
     albumCover :=
       orStr (replace (js "100x100") (js "300x300") <$> artworkUrl100 t) [];
     preview := default [] (previewUrl t);
     duration := floorQuot (orNum (trackTimeMillis t) 30000) 1000 |}.

(** [data] is [None] for [null]. *)
Definition parseITunesResponse (data : option Json) : list Song :=
  match data ≫= results with
  | Some (t :: ts) => toSong <$> filter (λ t, keepTrack t = true) (t :: ts)
  | _ => []
  end.

(** ** The outside world and the module state *)

Inductive JsError :=
  | DOMException (name : jsstring)
  | TypeError
  | SyntaxError
  | HttpError (status : Z)
  | URIError.

Inductive Settled (A : Type) :=
  | Fulfilled (v : A)
  | Rejected (e : JsError).
Arguments Fulfilled {A} v.
Arguments Rejected {A} e.

(** What [fetch] resolves to; [json] is the outcome of [res.json()], with
    [None] for a body that is [null]. *)
Record Response := {
  ok : bool;
  status : Z;
  json : Settled (option Json);
}.

(** The host of the module: the built-ins that are taken as given and the
    behaviour of the world. [network n url] is what the [n]-th request
    altogether does when it asks for [url]: the time it takes to settle, in
    milliseconds, and how it settles when nothing cancels it. [clock n] is
    the [n]-th reading of [Date.now()]. *)
Record Host := {
  toLowerCase : jsstring → jsstring;
  network : nat → jsstring → Z * Settled Response;
  clock : nat → Z;
}.

Inductive Event :=
  | EvFetch (url : jsstring)
  | EvSleep (ms : Z).

#[global] Instance Event_eq_dec : EqDecision Event.
Proof. solve_decision. Defined.

(** [trace] is the history of requests and delays, newest first. *)
Record State := {
  searchCache : gmap jsstring CacheEntry;
  popularCache : option CacheEntry;
  trace : list Event;
  clockReads : nat;
}.

Definition isFetch (e : Event) : bool :=
  match e with EvFetch _ => true | EvSleep _ => false end.

(** Number of network calls in a trace. *)
Definition netCalls (tr : list Event) : nat := length (List.filter isFetch tr).

Definition M (A : Type) : Type := State → A * State.

#[global] Instance M_ret : MRet M := λ A x st, (x, st).
#[global] Instance M_bind : MBind M :=
  λ A B f m st, let '(x, st') := m st in f x st'.

Definition logEvent (e : Event) (st : State) : State :=
  {| searchCache := searchCache st; popularCache := popularCache st;
     trace := e :: trace st; clockReads := clockReads st |}.

Definition setSearchCache (c : gmap jsstring CacheEntry) (st : State) : State :=
  {| searchCache := c; popularCache := popularCache st;
     trace := trace st; clockReads := clockReads st |}.

Definition setPopularCache (p : option CacheEntry) (st : State) : State :=
  {| searchCache := searchCache st; popularCache := p;
     trace := trace st; clockReads := clockReads st |}.

Definition withTrace (tr : list Event) (st : State) : State :=
  {| searchCache := searchCache st; popularCache := popularCache st;
     trace := tr; clockReads := clockReads st |}.

(** The state after one more reading of the clock. *)
Definition tick (st : State) : State :=
  {| searchCache := searchCache st; popularCache := popularCache st;
     trace := trace st; clockReads := S (clockReads st) |}.

Definition gets {A} (f : State → A) : M A := λ st, (f st, st).
Definition modify (f : State → State) : M unit := λ st, (tt, f st).

Definition isAbortError (e : JsError) : bool :=
  match e with
  | DOMException name => bool_decide (name = js "AbortError")
  | _ => false
  end.

(** ** Built-in fallback songs *)

Definition FALLBACK_SONGS : list Song := [
  {| id := 1440818839; title := js "Shape of You"; artist := js "Ed Sheeran";
     album := [247%N];
     albumCover := js "https://is1-ssl.mzstatic.com/image/thumb/Music125/v4/3f/84/14/3f841469-7404-6b98-a8f9-4f8b1a3c3d4b/source/300x300bb.jpg";
     preview := js "https://audio-ssl.itunes.apple.com/itunes-assets/AudioPreview116/v4/ab/86/52/ab8652a7-62d0-9fba-1f28-7a92c8d18518/mzaf_12184443632225615168.plus.aac.p.m4a";
     duration := 234 |};
  {| id := 1450330685; title := js "Blinding Lights"; artist := js "The Weeknd";
     album := js "After Hours";
     albumCover := js "https://is1-ssl.mzstatic.com/image/thumb/Music115/v4/1c/50/de/1c50de8f-5ee5-5a31-5c83-9b1c6e0d3558/source/300x300bb.jpg";
     preview := [];
     duration := 200 |};
  {| id := 1508562704; title := js "Levitating"; artist := js "Dua Lipa";
     album := js "Future Nostalgia";
     albumCover := js "https://is1-ssl.mzstatic.com/image/thumb/Music114/v4/3f/ee/75/3fee75c6-c8cc-2eb0-3e64-ce3d6e8f8d6a/source/300x300bb.jpg";
     preview := [];
     duration := 203 |}
]%Z.

(** ** The JavaScript [Map], as far as the service uses one

    A [Map] keeps its keys in insertion order; setting a key that is already
    present replaces the value and leaves the key where it is. *)
Section JsMap.
Context {K V : Type} `{EqDecision K}.

Fixpoint Map_set (k : K) (v : V) (m : list (K * V)) : list (K * V) :=
  match m with
  | [] => [(k, v)]
  | (k', v') :: r =>
      if decide (k = k') then (k', v) :: r else (k', v') :: Map_set k v r
  end.

(** [new Map(entries)] *)
Definition Map_new (entries : list (K * V)) : list (K * V) :=
  foldl (λ m kv, Map_set kv.1 kv.2 m) [] entries.

(** [Array.from(m.values())] *)
Definition Map_values (m : list (K * V)) : list V := m.*2.

End JsMap.

(** [Promise.allSettled]: every promise is run to its end and its outcome
    recorded. The requests are run one after the other here; which request
    gets which answer is up to the host in any case. *)
Fixpoint allSettled {A} (ps : list (M A)) : M (list (Settled A)) :=
  match ps with
  | [] => mret []
  | p :: r => v ← p; vs ← allSettled r; mret (Fulfilled v :: vs)
  end.

Definition queries : list jsstring := [
  js "https://itunes.apple.com/search?term=top+hits+2024&media=music&entity=song&limit=8";
  js "https://itunes.apple.com/search?term=arijit+singh&media=music&entity=song&limit=4";
  js "https://itunes.apple.com/search?term=ed+sheeran&media=music&entity=song&limit=4"
].

(** The loop of [getPopularSongs] over the settled results. *)
Definition collect (results : list (Settled (option Json))) : list Song :=
  foldl (λ allSongs result,
           match result with
           | Fulfilled (Some v) => allSongs ++ parseITunesResponse (Some v)
           | _ => allSongs
           end) [] results.

Definition unique (allSongs : list Song) : list Song :=
  Map_values (Map_new ((λ s, (id s, s)) <$> allSongs)).

(** ** Regular expressions of the link resolver

    Each pattern is written as a matcher anchored at the head of a string;
    [regexSearch] tries the positions from left to right, as [String.match]
    does for a pattern without flags. *)

Fixpoint regexSearch {A} (anchored : jsstring → option A) (s : jsstring) : option A :=
  match anchored s with
  | Some r => Some r
  | None => match s with
            | [] => None
            | _ :: r => regexSearch anchored r
            end
  end.

(** The class [[a-zA-Z0-9_-]] *)
Definition isVideoIdChar (c : N) : bool :=
  isAlnum c || bool_decide (c = 95%N) || bool_decide (c = HYPHEN).

(** A literal prefix followed by exactly eleven [isVideoIdChar]. *)
Definition afterPrefix11 (prefix s : jsstring) : option jsstring :=
  if startsWith prefix s then
    let cap := take 11 (drop (length prefix) s) in
    if bool_decide (length cap = 11) && forallb isVideoIdChar cap
    then Some cap else None
  else None.

(** [(?:youtube\.com\/watch\?v=|youtu\.be\/)([a-zA-Z0-9_-]{11})], anchored;
    the result is group 1. *)
Definition reVideoId (s : jsstring) : option jsstring :=
  match afterPrefix11 (js "youtube.com/watch?v=") s with
  | Some cap => Some cap
  | None => afterPrefix11 (js "youtu.be/") s
  end.

(** [[?&]t=(\d+)], anchored; the result is group 1. *)
Definition reStart (s : jsstring) : option jsstring :=
  match s with
  | c :: t :: e :: r =>
      if (bool_decide (c = 63%N) || bool_decide (c = 38%N))
         && bool_decide (t = 116%N) && bool_decide (e = 61%N)
      then match takeWhile isDigit r with
           | [] => None
           | ds => Some ds
           end
      else None
  | _ => None
  end.

(** [spotify\.com\/track\/([a-zA-Z0-9]+)], anchored; the result is group 1. *)
Definition reTrack (s : jsstring) : option jsstring :=
  let prefix := js "spotify.com/track/" in
  if startsWith prefix s then
    match takeWhile isAlnum (drop (length prefix) s) with
    | [] => None
    | cap => Some cap
    end
  else None.

(** [(.+)] at the end of a pattern: the longest run of code units that are
    not line terminators, at least one. *)
Definition reRest (s : jsstring) : option jsstring :=
  match takeWhile (λ c, negb (isLineTerminator c)) s with
  | [] => None
  | g => Some g
  end.

(** [\s*(.+)], anchored: the greedy [\s*] gives code units back one at a
    time when what follows does not match. *)
Fixpoint reSpaceRest (s : jsstring) : option jsstring :=
  match s with
  | c :: r =>
      if isWhiteSpace c then
        match reSpaceRest r with
        | Some g => Some g
        | None => reRest s
        end
      else reRest s
  | [] => None
  end.

(** [\s*·\s*(.+)], anchored; the result is the last group. *)
Fixpoint reSeparator (s : jsstring) : option jsstring :=
  let here :=
    match s with
    | c :: r => if bool_decide (c = MIDDLE_DOT) then reSpaceRest r else None
    | [] => None
    end in
  match s with
  | c :: r =>
      if isWhiteSpace c then
        match reSeparator r with
        | Some g => Some g
        | None => here
        end
      else here
  | [] => None
  end.

(** The lazy [(.+?)] with [g1] matched so far, followed by the rest of the
    pattern: the rest is tried first, one more code unit is taken only when
    it fails. *)
Fixpoint reLazy (g1 s : jsstring) : option (jsstring * jsstring) :=
  match reSeparator s with
  | Some g2 => Some (g1, g2)
  | None =>
      match s with
      | c :: r => if isLineTerminator c then None else reLazy (g1 ++ [c]) r
      | [] => None
      end
  end.

(** [(.+?)\s*·\s*(.+)], anchored; the result is (group 1, group 2). *)
Definition reTitleArtist (s : jsstring) : option (jsstring * jsstring) :=
  match s with
  | c :: r => if isLineTerminator c then None else reLazy [c] r
  | [] => None
  end.

(** The integer that a string of decimal digits spells. *)
Definition decimalValue (ds : jsstring) : Z :=
  foldl (λ acc d, 10 * acc + (Z.of_N d - 48))%Z 0%Z ds.

(** [parseInt] of a string of decimal digits: the number nearest to the
    integer the digits spell, [INFINITY] from about 1.8e308 on. The digits
    are all taken into account, as the engines do; the language lets an
    implementation read the digits after the 20th significant one as 0. *)
Definition parseInt (ds : jsstring) : Z := toDouble (decimalValue ds).

(** ** Link parsing *)

Record YouTubeRef := { videoId : jsstring; yt_startTime : option Z }.

Definition parseYouTubeUrl (url : jsstring) : option YouTubeRef :=
  match regexSearch reVideoId url with
  | None => None
  | Some vid =>
      Some {| videoId := vid;
              yt_startTime := parseInt <$> regexSearch reStart url |}
  end.

(** The result is [trackId]. *)
Definition parseSpotifyUrl (url : jsstring) : option jsstring :=
  regexSearch reTrack url.

Definition youTubeEmbedUrl (vid : jsstring) : jsstring :=
  js "https://www.youtube.com/oembed?url=https://www.youtube.com/watch?v="
  ++ vid ++ js "&format=json".

Definition spotifyEmbedUrl (tid : jsstring) : jsstring :=
  js "https://open.spotify.com/oembed?url=https://open.spotify.com/track/" ++ tid.

(** The object literal returned by [fetchYouTubeInfo] for the embed title
    [t] ([data.title]) and thumbnail [thumb] ([data.thumbnail_url]). *)
Definition youTubeSongData (vid t : jsstring) (thumb : option jsstring) : SongData :=
  let parts := trim <$> split HYPHEN t in
  {| sd_type := youtube;
     sd_id := vid;
     sd_title := orStr (parts !! 1%nat) t;
     sd_artist := orStr (parts !! 0%nat) (js "Unknown Artist");
     sd_albumCover :=
       Some (orStr thumb
               (js "https://img.youtube.com/vi/" ++ vid ++ js "/maxresdefault.jpg"));
     startTime := 0;
     endTime := 30 |}.

(** The object literal returned by [fetchSpotifyInfo]; [t] is [data.title],
    absent or a string: on a title of another type [match] throws before
    the literal is reached (see [embedInfo]). *)
Definition spotifySongData (tid : jsstring) (t thumb : option jsstring) : SongData :=
  let m := t ≫= regexSearch reTitleArtist in
  {| sd_type := spotify;
     sd_id := tid;
     sd_title := match m with Some g => g.1 | None => orStr t (js "Unknown") end;
     sd_artist := match m with Some g => g.2 | None => js "Unknown Artist" end;
     sd_albumCover := thumb;
     startTime := 0;
     endTime := 30 |}.

Section Service.
Context (H : Host).

(** [Date.now()] *)
Definition Date_now : M Z := λ st, (clock H (clockReads st), tick st).

(** How the [n]-th request settles. With [abortAfter = Some ms] a timer
    aborts the request once [ms] milliseconds have passed, and the request
    then rejects with a [DOMException] named [AbortError]. *)
Definition settle (abortAfter : option Z) (n : nat) (url : jsstring) : Settled Response :=
  let '(latency, outcome) := network H n url in
  match abortAfter with
  | Some ms =>
      if bool_decide (latency < ms)%Z then outcome
      else Rejected (DOMException (js "AbortError"))
  | None => outcome
  end.

(** [await fetch(url, { signal })] *)
Definition fetch (url : jsstring) (abortAfter : option Z) : M (Settled Response) :=
  λ st, (settle abortAfter (netCalls (trace st)) url, logEvent (EvFetch url) st).

(** [await new Promise(resolve => setTimeout(resolve, ms))] *)
Definition sleep (ms : Z) : M unit := λ st, (tt, logEvent (EvSleep ms) st).

(** The [try] block of [fetchFromITunes] after the request has settled. *)
Definition tryBody (r : Settled Response) : Settled (option Json) :=
  match r with
  | Rejected e => Rejected e
  | Fulfilled res => if ok res then json res else Rejected (HttpError (status res))
  end.

Fixpoint fetchFromITunes (url : jsstring) (retries : nat) : M (option Json) :=
  r ← fetch url (Some 8000%Z);
  match tryBody r with
  | Fulfilled d => mret d
  | Rejected error =>
      match retries with
      | S n =>
          if isAbortError error then mret None
          else _ ← sleep 500; fetchFromITunes url n
      | O => mret None
      end
  end.

Definition isCacheValid (entry : option CacheEntry) (ttl : Z) : M bool :=
  match entry with
  | None => mret false
  | Some e => now ← Date_now; mret (bool_decide (now - timestamp e < ttl)%Z)
  end.

Definition cleanupCache : M unit :=
  now ← Date_now;
  _ ← modify (λ st,
        setSearchCache
          (filter (λ kv : jsstring * CacheEntry,
                     ¬ (now - timestamp kv.2 >= SEARCH_CACHE_TTL)%Z)
                  (searchCache st)) st);
  pc ← gets popularCache;
  match pc with
  | Some p =>
      if bool_decide (now - timestamp p >= POPULAR_CACHE_TTL)%Z
      then modify (setPopularCache None) else mret tt
  | None => mret tt
  end.

(** [getPopularSongs] after the cache check. *)
Definition getPopularSongs_fetch : M (list Song) :=
  results ← allSettled ((λ url, fetchFromITunes url 2) <$> queries);
  let allSongs := collect results in
  let finalSongs := take 15 (unique allSongs) in
  if bool_decide (0 < length finalSongs) then
    now ← Date_now;
    _ ← modify (setPopularCache (Some {| data := finalSongs; timestamp := now |}));
    mret finalSongs
  else mret FALLBACK_SONGS.

Definition getPopularSongs : M (list Song) :=
  pc ← gets popularCache;
  valid ← isCacheValid pc POPULAR_CACHE_TTL;
  match pc with
  | Some p =>
      if valid && bool_decide (0 < length (data p)) then mret (data p)
      else getPopularSongs_fetch
  | None => getPopularSongs_fetch
  end.

Definition searchUrl (enc : jsstring) : jsstring :=
  js "https://itunes.apple.com/search?term=" ++ enc
  ++ js "&media=music&entity=song&limit=15".

(** The fallback search at the end of [searchSongs]. *)
Definition fallbackSearch (key : jsstring) : list Song :=
  filter (λ s, includes (toLowerCase H (title s)) key
               || includes (toLowerCase H (artist s)) key = true)
         FALLBACK_SONGS.

(** [searchSongs] after the cache check. The promise rejects when
    [encodeURIComponent] throws. *)
Definition searchSongs_fetch (trimmed key : jsstring) : M (Settled (list Song)) :=
  match encodeURIComponent trimmed with
  | None => mret (Rejected URIError)
  | Some enc =>
      data ← fetchFromITunes (searchUrl enc) 2;
      let songs := parseITunesResponse data in
      if bool_decide (0 < length songs) then
        now ← Date_now;
        _ ← modify (λ st,
              setSearchCache
                (<[key := {| data := songs; timestamp := now |}]> (searchCache st)) st);
        mret (Fulfilled songs)
      else mret (Fulfilled (fallbackSearch key))
  end.

Definition searchSongs (query : jsstring) : M (Settled (list Song)) :=
  let trimmed := trim query in
  if bool_decide (trimmed = []) || bool_decide (length trimmed < 2)
  then mret (Fulfilled [])
  else
    let key := toLowerCase H trimmed in
    cached ← gets (λ st, searchCache st !! key : option CacheEntry);
    valid ← isCacheValid cached SEARCH_CACHE_TTL;
    match cached with
    | Some c => if valid : bool then mret (Fulfilled (data c))
                else searchSongs_fetch trimmed key
    | None => searchSongs_fetch trimmed key
    end.

(** ** Link resolver *)

(** The body of an embed request: [null] when the request rejects, the
    status is not ok, the body does not parse, or building the object
    throws: on a [null] body, on a title that is neither absent nor a
    string, which has no [split] and no [match], and, for [wantTitle], on
    a body without [title]. *)
Definition embedInfo (wantTitle : bool)
    (build : option jsstring → option jsstring → SongData)
    (r : Settled Response) : option SongData :=
  match r with
  | Rejected _ => None
  | Fulfilled res =>
      if negb (ok res) then None
      else match json res with
           | Fulfilled (Some d) =>
               match json_title d with
               | NoTitle => if wantTitle then None
                            else Some (build None (thumbnail_url d))
               | StringTitle t => Some (build (Some t) (thumbnail_url d))
               | OtherTitle => None
               end
           | _ => None
           end
  end.

Definition fetchYouTubeInfo (vid : jsstring) : M (option SongData) :=
  r ← fetch (youTubeEmbedUrl vid) None;
  mret (embedInfo true (λ t thumb, youTubeSongData vid (default [] t) thumb) r).

Definition fetchSpotifyInfo (tid : jsstring) : M (option SongData) :=
  r ← fetch (spotifyEmbedUrl tid) None;
  mret (embedInfo false (spotifySongData tid) r).

Definition setWindow (t : Z) (info : SongData) : SongData :=
  {| sd_type := sd_type info; sd_id := sd_id info; sd_title := sd_title info;
     sd_artist := sd_artist info; sd_albumCover := sd_albumCover info;
     startTime := t; endTime := toDouble (t + 30) |}.

Definition processMusicLink (url : jsstring) : M (option SongData) :=
  match parseYouTubeUrl url with
  | Some yt =>
      info ← fetchYouTubeInfo (videoId yt);
      mret (match info, yt_startTime yt with
            | Some i, Some t => if truthyNum (Some t) then Some (setWindow t i) else Some i
            | _, _ => info
            end)
  | None =>
      match parseSpotifyUrl url with
      | Some tid => fetchSpotifyInfo tid
      | None => mret None
      end
  end.

End Service.

(** ** Hosts and states to run the service on *)

(** A host whose every request takes [latency] ms and settles as [outcome],
    and whose clock stands at [now]. *)
Definition constHost (latency : Z) (outcome : Settled Response) (now : Z) : Host :=
  {| toLowerCase := toLowerCaseASCII;
     network := λ _ _, (latency, outcome);
     clock := λ _, now |}.

(** The state of the module when it has just been loaded. *)
Definition initialState : State :=
  {| searchCache := ∅; popularCache := None; trace := []; clockReads := 0 |}.

Definition okResponse (body : option Json) : Settled Response :=
  Fulfilled {| ok := true; status := 200; json := Fulfilled body |}.

Definition networkError : Settled Response := Rejected TypeError.

Definition track (n : Z) (name : string) : Track :=
  {| trackId := Some n; trackName := Some (js name);
     artistName := Some (js "Artist"); collectionName := None;
     artworkUrl100 := None; previewUrl := Some (js "https://p/a.m4a");
     kind := Some (js "song"); trackTimeMillis := Some 200000%Z |}.

Definition catalogBody (ts : list Track) : option Json :=
  Some {| results := Some ts; json_title := NoTitle; thumbnail_url := None |}.

Definition embedBody (t : jsstring) : option Json :=
  Some {| results := None; json_title := StringTitle t; thumbnail_url := None |}.

(** ** Vocabulary of the statements *)

(** A host that answers the [n]-th request with the [n]-th element of
    [script], and with a network error once the script is used up. *)
Definition scriptedHost (script : list (Settled Response)) : Host :=
  {| toLowerCase := toLowerCaseASCII;
     network := λ n _, (10%Z, default networkError (script !! n));
     clock := λ _, 0%Z |}.

(** How one attempt ends, as the [catch] block of [fetchFromITunes] sees it. *)
Inductive Attempt :=
  | Got (d : option Json)
  | Aborted
  | Transient.

Definition attempt (H : Host) (n : nat) (url : jsstring) : Attempt :=
  match tryBody (settle H (Some 8000%Z) n url) with
  | Fulfilled d => Got d
  | Rejected e => if isAbortError e then Aborted else Transient
  end.

(** The trace of [k] retries, newest first: a request, then [k] times a
    delay of 500 ms and a request. *)
Fixpoint retryTrace (url : jsstring) (k : nat) : list Event :=
  match k with
  | O => [EvFetch url]
  | S k' => EvFetch url :: EvSleep 500 :: retryTrace url k'
  end.

(** Age of an entry at the next reading of the clock, and freshness. *)
Definition age (H : Host) (st : State) (e : CacheEntry) : Z :=
  (clock H (clockReads st) - timestamp e)%Z.

Definition fresh (H : Host) (st : State) (e : CacheEntry) (ttl : Z) : Prop :=
  (age H st e < ttl)%Z.

#[global] Instance fresh_dec H st e ttl : Decision (fresh H st e ttl) :=
  Z_lt_dec (age H st e) ttl.

Definition searchKey (H : Host) (query : jsstring) : jsstring :=
  toLowerCase H (trim query).

(** The state in which the fetch path starts after a cache check on
    [entry]: the check reads the clock only when there is an entry. *)
Definition afterCheck (entry : option CacheEntry) (st : State) : State :=
  match entry with Some _ => tick st | None => st end.

(** [k] occurs in [s] as a run of consecutive code units. *)
Definition contains (s k : jsstring) : Prop := ∃ a b, s = a ++ k ++ b.

(** Every request either fails or brings a body without a valid entry. *)
Definition catalogUnavailable (H : Host) : Prop :=
  ∀ n url, match attempt H n url with
           | Got d => parseITunesResponse d = []
           | _ => True
           end.

(** The members of a list in the order in which they are first seen. *)
Fixpoint firstSeen {K} `{EqDecision K} (l : list K) : list K :=
  match l with
  | [] => []
  | x :: r => x :: filter (λ y, y ≠ x) (firstSeen r)
  end.

(** A title of Platform B in its documented form: [a], white space, the
    middle dot, white space, [b], where [a] and [b] are not empty, hold no
    line terminator, [a] holds no middle dot and does not end with white
    space, and [b] does not start with white space. *)
Record TrackDotArtist (a ws1 ws2 b : jsstring) : Prop := {
  tda_track_nonempty : a ≠ [];
  tda_track_line : Forall (λ c, isLineTerminator c = false) a;
  tda_track_dot : MIDDLE_DOT ∉ a;
  tda_track_end : ∀ c, last a = Some c → isWhiteSpace c = false;
  tda_space1 : Forall (λ c, isWhiteSpace c = true) ws1;
  tda_space2 : Forall (λ c, isWhiteSpace c = true) ws2;
  tda_artist_start : ∃ c, head b = Some c ∧ isWhiteSpace c = false;
  tda_artist_line : Forall (λ c, isLineTerminator c = false) b;
}.

(** Total time, in milliseconds, of the delays in a trace. *)
Definition totalDelay (tr : list Event) : Z :=
  foldr (λ e acc, match e with EvSleep ms => ms + acc | EvFetch _ => acc end)%Z 0%Z tr.

(** A string of UTF-16 code units is well formed when every surrogate is
    part of a pair: a high surrogate followed by a low one. *)
Inductive WellFormed : jsstring → Prop :=
  | wf_nil : WellFormed []
  | wf_unit c s :
      isHighSurrogate c = false → isLowSurrogate c = false →
      WellFormed s → WellFormed (c :: s)
  | wf_pair h l s :
      isHighSurrogate h = true → isLowSurrogate l = true →
      WellFormed s → WellFormed (h :: l :: s).

(** The states the module can be in: it starts in [initialState], and the
    public operations and the sweep run one after the other. *)
Inductive Reachable (H : Host) : State → Prop :=
  | reach_initial : Reachable H initialState
  | reach_getPopularSongs st :
      Reachable H st → Reachable H (getPopularSongs H st).2
  | reach_searchSongs query st :
      Reachable H st → Reachable H (searchSongs H query st).2
  | reach_processMusicLink url st :
      Reachable H st → Reachable H (processMusicLink H url st).2
  | reach_cleanupCache st :
      Reachable H st → Reachable H (cleanupCache H st).2.

(** A song that the normalizer made from some catalog body. *)
Definition Catalogued (s : Song) : Prop := ∃ d, s ∈ parseITunesResponse d.

(** What holds of a cached entry: its list is not empty, its songs come
    from the normalizer, and its timestamp is a reading of the clock that
    has been made. *)
Definition EntryOk (H : Host) (st : State) (e : CacheEntry) : Prop :=
  data e ≠ []
  ∧ Forall Catalogued (data e)
  ∧ ∃ n, n < clockReads st ∧ timestamp e = clock H n.

Definition CachesOk (H : Host) (st : State) : Prop :=
  (∀ k e, searchCache st !! k = Some e → EntryOk H st e)
  ∧ (∀ p, popularCache st = Some p →
          EntryOk H st p ∧ length (data p) ≤ 15 ∧ NoDup (id <$> data p)).

(** Every key of the search cache is the key of a query of two code units
    or more. *)
Definition KeysOk (H : Host) (st : State) : Prop :=
  ∀ k, is_Some (searchCache st !! k) →
       ∃ query, k = searchKey H query ∧ 2 ≤ length (trim query).

(** * The earlier variant of the service

    The second half of [songService.ts] holds the service as it was before
    expiry and retries were added: caches that keep what they hold, one
    attempt per request, and a loop over the queries that stops once twelve
    songs have been collected. Its link resolver is the one modelled
    above, word for word. *)
Module Legacy.

(** [id] is [t.trackId] as it comes, [None] when the entry has none: this
    variant does not ask for one. *)
Record Song := {
  id : option Z;
  title : jsstring;
  artist : jsstring;
  album : jsstring;
  albumCover : jsstring;
  preview : jsstring;
  duration : Z;
}.

#[global] Instance Song_eq_dec : EqDecision Song.
Proof. solve_decision. Defined.

Record State := {
  searchCache : gmap jsstring (list Song);
  popularCache : option (list Song);
  trace : list Event;
}.

Definition M (A : Type) : Type := State → A * State.

#[global] Instance M_ret : MRet M := λ A x st, (x, st).
#[global] Instance M_bind : MBind M :=
  λ A B f m st, let '(x, st') := m st in f x st'.

Definition gets {A} (f : State → A) : M A := λ st, (f st, st).
Definition modify (f : State → State) : M unit := λ st, (tt, f st).

Definition logEvent (e : Event) (st : State) : State :=
  {| searchCache := searchCache st; popularCache := popularCache st;
     trace := e :: trace st |}.

Definition setSearchCache (c : gmap jsstring (list Song)) (st : State) : State :=
  {| searchCache := c; popularCache := popularCache st; trace := trace st |}.

Definition setPopularCache (p : option (list Song)) (st : State) : State :=
  {| searchCache := searchCache st; popularCache := p; trace := trace st |}.

Definition initialState : State :=
  {| searchCache := ∅; popularCache := None; trace := [] |}.

Definition keepTrack (t : Track) : bool :=
  truthyStr (previewUrl t) && bool_decide (kind t = Some (js "song")).

Definition toSong (t : Track) : Song :=
  {| id := trackId t;
     title := orStr (trackName t) (js "Unknown");
     artist := orStr (artistName t) (js "Unknown Artist");
     album := orStr (collectionName t) [];
     albumCover :=
       orStr (replace (js "100x100") (js "300x300") <$> artworkUrl100 t) [];
     preview := default [] (previewUrl t);
     duration := floorQuot (orNum (trackTimeMillis t) 30000) 1000 |}.

Definition parseITunesResponse (data : option Json) : list Song :=
  match data ≫= results with
  | Some (t :: ts) => toSong <$> filter (λ t, keepTrack t = true) (t :: ts)
  | _ => []
  end.

Definition FALLBACK_SONGS : list Song := [
  {| id := Some 1440818839; title := js "Shape of You"; artist := js "Ed Sheeran";
     album := [247%N];
     albumCover := js "https://is1-ssl.mzstatic.com/image/thumb/Music125/v4/3f/84/14/3f841469-7404-6b98-a8f9-4f8b1a3c3d4b/source/300x300bb.jpg";
     preview := js "https://audio-ssl.itunes.apple.com/itunes-assets/AudioPreview116/v4/ab/86/52/ab8652a7-62d0-9fba-1f28-7a92c8d18518/mzaf_12184443632225615168.plus.aac.p.m4a";
     duration := 234 |};
  {| id := Some 1450330685; title := js "Blinding Lights"; artist := js "The Weeknd";
     album := js "After Hours";
     albumCover := js "https://is1-ssl.mzstatic.com/image/thumb/Music115/v4/1c/50/de/1c50de8f-5ee5-5a31-5c83-9b1c6e0d3558/source/300x300bb.jpg";
     preview := [];
     duration := 200 |};
  {| id := Some 1508562704; title := js "Levitating"; artist := js "Dua Lipa";
     album := js "Future Nostalgia";
     albumCover := js "https://is1-ssl.mzstatic.com/image/thumb/Music114/v4/3f/ee/75/3fee75c6-c8cc-2eb0-3e64-ce3d6e8f8d6a/source/300x300bb.jpg";
     preview := [];
     duration := 203 |}
]%Z.

Section Service.
Context (H : Host).

Definition fetch (url : jsstring) (abortAfter : option Z) : M (Settled Response) :=
  λ st, (settle H abortAfter (netCalls (trace st)) url, logEvent (EvFetch url) st).

(** One attempt; [null] for a rejection, a status that is not ok, and a
    body that does not parse. *)
Definition fetchFromITunes (url : jsstring) : M (option Json) :=
  r ← fetch url (Some 8000%Z);
  mret (match r with
        | Fulfilled res =>
            if ok res then
              match json res with
              | Fulfilled d => d
              | Rejected _ => None
              end
            else None
        | Rejected _ => None
        end).

(** The loop of [getPopularSongs] over the queries still to be asked. *)
Fixpoint collect (urls : list jsstring) (allSongs : list Song) : M (list Song) :=
  match urls with
  | [] => mret allSongs
  | url :: rest =>
      data ← fetchFromITunes url;
      let allSongs :=
        match data with
        | Some d => allSongs ++ parseITunesResponse (Some d)
        | None => allSongs
        end in
      if bool_decide (12 ≤ length allSongs) then mret allSongs
      else collect rest allSongs
  end.

Definition unique (allSongs : list Song) : list Song :=
  Map_values (Map_new ((λ s, (id s, s)) <$> allSongs)).

Definition getPopularSongs : M (list Song) :=
  pc ← gets popularCache;
  match pc with
  | Some (s :: l) => mret (s :: l)
  | _ =>
      allSongs ← collect queries [];
      let p := take 15 (unique allSongs) in
      _ ← modify (setPopularCache (Some p));
      mret (if bool_decide (0 < length p) then p else FALLBACK_SONGS)
  end.

Definition fallbackSearch (key : jsstring) : list Song :=
  filter (λ s, includes (toLowerCase H (title s)) key
               || includes (toLowerCase H (artist s)) key = true)
         FALLBACK_SONGS.

Definition searchSongs (query : jsstring) : M (Settled (list Song)) :=
  if bool_decide (trim query = []) then mret (Fulfilled [])
  else
    let key := trim (toLowerCase H query) in
    cached ← gets (λ st, searchCache st !! key : option (list Song));
    match cached with
    | Some l => mret (Fulfilled l)
    | None =>
        match encodeURIComponent query with
        | None => mret (Rejected URIError)
        | Some enc =>
            data ← fetchFromITunes (searchUrl enc);
            let songs := parseITunesResponse data in
            if bool_decide (0 < length songs) then
              _ ← modify (λ st, setSearchCache (<[key := songs]> (searchCache st)) st);
              mret (Fulfilled songs)
            else mret (Fulfilled (fallbackSearch key))
        end
    end.

End Service.

(** One call of a public operation of the variant. *)
Inductive Step (H : Host) : State → State → Prop :=
  | step_getPopularSongs st : Step H st (getPopularSongs H st).2
  | step_searchSongs query st : Step H st (searchSongs H query st).2.

End Legacy.

(** The song of the current variant for one of the earlier variant: the
    identifier read as a number, the texts cut to 100 code units. *)
Definition clip (s : Legacy.Song) : Song :=
  {| id := default 0%Z (Legacy.id s);
     title := slice0 100 (Legacy.title s);
     artist := slice0 100 (Legacy.artist s);
     album := slice0 100 (Legacy.album s);
     albumCover := Legacy.albumCover s;
     preview := Legacy.preview s;
     duration := Legacy.duration s |}.

(** * Cleaning a note before it is stored ([firebase.ts])

    The values [removeUndefined] is given: [undefined], [null], booleans,
    numbers, strings, arrays without holes, and plain objects, whose
    entries are listed in the order of [Object.entries]. *)
#[warnings="-register-all"] Inductive JsValue :=
  | JUndefined
  | JNull
  | JBool (b : bool)
  | JNumber (n : Z)
  | JString (s : jsstring)
  | JArray (items : list JsValue)
  | JObject (entries : list (jsstring * JsValue)).

Definition isUndefined (v : JsValue) : bool :=
  match v with JUndefined => true | _ => false end.

(** [cleaned[key] = cleanedValue] is [Map_set]: a key set twice keeps its
    place and takes the later value. For the key [__proto__] the
    assignment reaches the setter that [cleaned], a fresh [{}], inherits:
    it changes the prototype of [cleaned], which [JObject] does not show,
    and adds no entry. *)
Fixpoint removeUndefined (obj : JsValue) : JsValue :=
  match obj with
  | JUndefined => JNull
  | JNull => JNull
  | JArray items => JArray (removeUndefined <$> items)
  | JObject entries =>
      JObject
        (foldl
           (λ cleaned kv,
              if isUndefined kv.2 then cleaned
              else
                let cleanedValue := removeUndefined kv.2 in
                if isUndefined cleanedValue then cleaned
                else if bool_decide (kv.1 = js "__proto__") then cleaned
                else Map_set kv.1 cleanedValue cleaned)
           [] entries)
  | _ => obj
  end.

(** [undefined] occurs somewhere in the value. *)
Fixpoint hasUndefined (v : JsValue) : bool :=
  match v with
  | JUndefined => true
  | JArray items => existsb hasUndefined items
  | JObject entries => existsb (λ kv, hasUndefined kv.2) entries
  | _ => false
  end.

(** Some object in the value has the key [__proto__]. *)
Fixpoint hasProtoKey (v : JsValue) : bool :=
  match v with
  | JArray items => existsb hasProtoKey items
  | JObject entries =>
      existsb (λ kv, bool_decide (kv.1 = js "__proto__") || hasProtoKey kv.2) entries
  | _ => false
  end.

(** No object in the value has a key twice; this holds of every value of
    the language. *)
Fixpoint distinctKeys (v : JsValue) : bool :=
  match v with
  | JArray items => forallb distinctKeys items
  | JObject entries =>
      bool_decide (NoDup entries.*1)
      && forallb (λ kv, distinctKeys kv.2) entries
  | _ => true
  end.

(** ** Note identifiers ([firebase.ts]) *)

(** [s.charAt(i)]: the empty string when [i] is out of range. *)
Definition charAt (s : jsstring) (i : Z) : jsstring :=
  if bool_decide (0 ≤ i)%Z then
    match s !! Z.to_nat i with
    | Some c => [c]
    | None => []
    end
  else [].

(** The largest number below 1. *)
Definition BELOW_ONE : QArith_base.Q :=
  QArith_base.Qmake (2 ^ 53 - 1)%Z (2 ^ 53)%positive.

(** [Math.floor(x * n)] for a number [x], given as a fraction: the
    product is rounded to the nearest number before the floor is taken. *)
Definition floorTimes (x : QArith_base.Q) (n : nat) : Z :=
  let '(num, den) :=
    roundDouble (QArith_base.Qnum x * Z.of_nat n) (Z.pos (QArith_base.Qden x)) in
  (num / den)%Z.

(** [random i] is what the [i]-th call of [Math.random()] returns; [n]
    calls have been made before. *)
Definition generateId (random : nat → QArith_base.Q) (n : nat) : jsstring :=
  let chars := js "ABCDEFGHJKLMNPQRSTUVWXYZabcdefghjkmnpqrstuvwxyz23456789" in
  foldl (λ result i, result ++ charAt chars (floorTimes (random (n + i)) (length chars)))
        [] (seq 0 8).

(** * Properties *)

Ltac unfold_M :=
  unfold mbind, M_bind, mret, M_ret, gets, modify, Date_now, fetch, sleep in *.

(** ** Rounding *)

Section Rounding.
Local Open Scope Z_scope.


Lemma roundHalfEven_bounds n d :
  0 < d → n / d ≤ roundHalfEven n d ≤ n / d + 1.
Proof.
  intros Hd. unfold roundHalfEven.
  destruct (2 * (n mod d) <? d); [lia|].
  destruct (d <? 2 * (n mod d)); [lia|].
  destruct (Z.even (n / d)); lia.
Qed.

Lemma roundHalfEven_exact m d : 0 < d → roundHalfEven (m * d) d = m.
Proof.
  intros Hd. unfold roundHalfEven.
  rewrite Z.mod_mul, Z.div_mul by lia.
  destruct (2 * 0 <? d) eqn:E; [done|]. apply Z.ltb_ge in E. lia.
Qed.

Lemma roundHalfEven_1 m : roundHalfEven m 1 = m.
Proof. rewrite <- (Z.mul_1_r m) at 1. by apply roundHalfEven_exact. Qed.

Lemma roundHalfEven_down n d :
  0 < d → 2 * (n mod d) < d → roundHalfEven n d = n / d.
Proof.
  intros Hd Hr. unfold roundHalfEven.
  destruct (2 * (n mod d) <? d) eqn:E; [done|]. apply Z.ltb_ge in E. lia.
Qed.

(** When [a / d] is further than half a unit in the last place below the
    next integer, rounding does not reach that integer. *)
Lemma floor_roundHalfEven a d k :
  0 ≤ a → 0 < d → 0 ≤ k →
  d < (d - a mod d) * 2 ^ (k + 1) →
  roundHalfEven (a * 2 ^ k) d / 2 ^ k = a / d.
Proof.
  intros Ha Hd Hk Hgap.
  pose proof (Z.div_mod a d ltac:(lia)) as Hdm.
  pose proof (Z.mod_pos_bound a d Hd) as Hr.
  assert (Hp : 0 < 2 ^ k) by (apply Z.pow_pos_nonneg; lia).
  rewrite Z.pow_add_r in Hgap by lia. change (2 ^ 1) with 2 in Hgap.
  pose proof (Z.div_mod (a * 2 ^ k) d ltac:(lia)) as HN.
  pose proof (Z.mod_pos_bound (a * 2 ^ k) d Hd) as HNr.
  pose proof (roundHalfEven_bounds (a * 2 ^ k) d Hd) as [Hb1 Hb2].
  pose proof (roundHalfEven_down (a * 2 ^ k) d Hd) as Hdown.
  symmetry. apply Z.div_unique with (roundHalfEven (a * 2 ^ k) d - a / d * 2 ^ k);
    [left|lia].
  set (m := roundHalfEven (a * 2 ^ k) d) in *.
  set (R := (a * 2 ^ k) mod d) in *. set (Q := (a * 2 ^ k) / d) in *.
  set (r := a mod d) in *. set (q := a / d) in *. set (p := 2 ^ k) in *.
  clearbody m R Q r q p. subst a.
  assert (Hlo : q * p ≤ Q) by nia.
  assert (Hhi : Q ≤ (q + 1) * p - 1) by nia.
  split; [lia|].
  destruct (decide (Q = (q + 1) * p - 1)) as [Heq|Hne]; [|lia].
  rewrite Hdown; [lia|]. subst Q. nia.
Qed.

Lemma roundHalfEven_floor_le a d k :
  0 ≤ a → 0 < d → 0 ≤ k →
  a / d ≤ roundHalfEven (a * 2 ^ k) d / 2 ^ k ≤ a / d + 1.
Proof.
  intros Ha Hd Hk.
  pose proof (Z.div_mod a d ltac:(lia)) as Hdm.
  pose proof (Z.mod_pos_bound a d Hd) as Hr.
  set (q := a / d) in *. set (r := a mod d) in *.
  assert (Hp : 0 < 2 ^ k) by (apply Z.pow_pos_nonneg; lia).
  set (p := 2 ^ k) in *. set (N := a * p).
  assert (Hlo : q * p ≤ N / d).
  { apply Z.div_le_lower_bound; [done|]. subst N. nia. }
  assert (Hhi : N / d < (q + 1) * p).
  { apply Z.div_lt_upper_bound; [done|]. subst N. nia. }
  pose proof (roundHalfEven_bounds N d Hd) as [Hb1 Hb2].
  split.
  - apply Z.div_le_lower_bound; [done|]. lia.
  - assert (roundHalfEven N d / p < q + 2); [|lia].
    apply Z.div_lt_upper_bound; [done|]. nia.
Qed.

Lemma floorLog2_lt a d j :
  0 < a → 0 < d → 0 ≤ j → a < d * 2 ^ j → floorLog2 a d < j.
Proof.
  intros Ha Hd Hj Hlt. unfold floorLog2.
  assert (Hk : Z.log2 a - Z.log2 d ≤ j).
  { assert (Z.log2 a ≤ Z.log2 (d * 2 ^ j)) by (apply Z.log2_le_mono; lia).
    rewrite Z.log2_mul_pow2 in * by lia. lia. }
  set (k := Z.log2 a - Z.log2 d) in *.
  destruct (decide (k = j)) as [->|Hne].
  - rewrite (proj2 (Z.leb_le 0 j)) by done.
    rewrite (proj2 (Z.leb_gt (d * 2 ^ j) a)) by done. lia.
  - destruct (if 0 <=? k then _ else _); lia.
Qed.

Lemma floorLog2_int a : 0 < a → floorLog2 a 1 = Z.log2 a.
Proof.
  intros Ha. unfold floorLog2. change (Z.log2 1) with 0. rewrite Z.sub_0_r.
  pose proof (Z.log2_nonneg a). pose proof (Z.log2_spec a Ha).
  rewrite (proj2 (Z.leb_le 0 (Z.log2 a))) by done.
  rewrite (proj2 (Z.leb_le (1 * 2 ^ Z.log2 a) a)) by lia. done.
Qed.

(** Integers of absolute value below [2 ^ 53] are numbers. *)
Lemma toDouble_exact z : - 2 ^ 53 < z < 2 ^ 53 → toDouble z = z.
Proof.
  intros Hz. unfold toDouble, roundDouble.
  destruct (z =? 0) eqn:E0; [apply Z.eqb_eq in E0; by subst|].
  apply Z.eqb_neq in E0.
  assert (Ha : 0 < Z.abs z < 2 ^ 53) by lia.
  rewrite floorLog2_int by lia.
  assert (Hl : 0 ≤ Z.log2 (Z.abs z) < 53).
  { split; [apply Z.log2_nonneg|]. apply Z.log2_lt_pow2; lia. }
  set (a := Z.abs z) in *. set (l := Z.log2 a) in *.
  replace (Z.max (l - 52) (-1074)) with (l - 52) by lia.
  destruct (0 <=? l - 52) eqn:Ee.
  - apply Z.leb_le in Ee. replace (l - 52) with 0 by lia.
    change (2 ^ 0) with 1. rewrite !Z.mul_1_r, roundHalfEven_1.
    rewrite (proj2 (Z.leb_gt INFINITY a)) by (unfold INFINITY; lia).
    rewrite Z.div_1_r. subst a. lia.
  - apply Z.leb_gt in Ee. rewrite roundHalfEven_1.
    assert (Hp : 0 < 2 ^ (- (l - 52))) by (apply Z.pow_pos_nonneg; lia).
    rewrite (proj2 (Z.leb_gt _ _)).
    2: { unfold INFINITY. nia. }
    replace (Z.sgn z * (a * 2 ^ (- (l - 52)))) with (z * 2 ^ (- (l - 52))) by (subst a; nia).
    apply Z.div_mul. lia.
Qed.

(** On a quotient of fewer than 53 bits whose divisor is small enough, the
    floor of the rounded quotient is the floor of the exact one. *)
Lemma floorQuot_exact a d j :
  0 < a → 0 < d → 0 ≤ j ≤ 52 → a < d * 2 ^ j → d < 2 ^ (54 - j) →
  floorQuot a d = a / d.
Proof.
  intros Ha Hd Hj Hlt Hsmall.
  pose proof (floorLog2_lt a d j Ha Hd ltac:(lia) Hlt) as Hfl.
  assert (Hj2 : 0 < 2 ^ j) by (apply Z.pow_pos_nonneg; lia).
  assert (Ha54 : a < 2 ^ 54).
  { replace 54 with ((54 - j) + j) by lia. rewrite Z.pow_add_r by lia. nia. }
  unfold floorQuot, roundDouble.
  rewrite (proj2 (Z.leb_gt INFINITY (Z.abs a))) by (unfold INFINITY; lia).
  rewrite (proj2 (Z.eqb_neq a 0)) by lia. rewrite Z.abs_eq by lia.
  set (e := Z.max (floorLog2 a d - 52) (-1074)).
  assert (He : -1074 ≤ e ≤ j - 53) by lia. clearbody e.
  rewrite (proj2 (Z.leb_gt 0 e)) by lia.
  assert (Hp : 0 < 2 ^ (- e)) by (apply Z.pow_pos_nonneg; lia).
  pose proof (roundHalfEven_bounds (a * 2 ^ (- e)) d Hd) as [_ Hm].
  assert (Hq : a * 2 ^ (- e) / d ≤ a * 2 ^ (- e)).
  { apply Z.div_le_upper_bound; [done|]. nia. }
  rewrite (proj2 (Z.leb_gt _ _)) by (unfold INFINITY; nia).
  rewrite Z.sgn_pos, Z.mul_1_l by done.
  apply floor_roundHalfEven; [lia..|].
  pose proof (Z.mod_pos_bound a d Hd).
  assert (2 ^ (54 - j) ≤ 2 ^ (- e + 1)) by (apply Z.pow_le_mono_r; lia).
  nia.
Qed.

Lemma roundHalfEven_mono n n' d :
  0 < d → n ≤ n' → roundHalfEven n d ≤ roundHalfEven n' d.
Proof.
  intros Hd Hle.
  pose proof (roundHalfEven_bounds n d Hd) as [Hn1 Hn2].
  pose proof (roundHalfEven_bounds n' d Hd) as [Hn1' Hn2'].
  assert (Hq : n / d ≤ n' / d) by (by apply Z.div_le_mono).
  destruct (decide (n / d = n' / d)) as [Heq|Hne]; [|lia].
  pose proof (Z.div_mod n d ltac:(lia)). pose proof (Z.div_mod n' d ltac:(lia)).
  assert (Hr : n mod d ≤ n' mod d) by (rewrite Heq in *; lia).
  unfold roundHalfEven. rewrite Heq.
  destruct (2 * (n mod d) <? d) eqn:E1; destruct (2 * (n' mod d) <? d) eqn:E1';
    destruct (d <? 2 * (n mod d)) eqn:E2; destruct (d <? 2 * (n' mod d)) eqn:E2';
    destruct (Z.even (n' / d)); lia.
Qed.

(** The number nearest to an integer from [2 ^ 53] on. *)
Lemma toDouble_big z :
  2 ^ 53 ≤ z →
  toDouble z
  = clamp (roundHalfEven z (2 ^ (Z.log2 z - 52)) * 2 ^ (Z.log2 z - 52)).
Proof.
  intros Hz. unfold toDouble, roundDouble, clamp.
  rewrite (proj2 (Z.eqb_neq z 0)) by lia. rewrite Z.abs_eq by lia.
  rewrite floorLog2_int by lia.
  assert (Hl : 53 ≤ Z.log2 z).
  { change 53 with (Z.log2 (2 ^ 53)). apply Z.log2_le_mono. lia. }
  set (e := Z.log2 z - 52) in *.
  replace (Z.max e (-1074)) with e by lia.
  rewrite (proj2 (Z.leb_le 0 e)) by lia. rewrite Z.mul_1_l, Z.mul_1_r.
  rewrite Z.sgn_pos by lia.
  destruct (INFINITY <=? _); by rewrite Z.mul_1_l, Z.div_1_r.
Qed.

Lemma mantissa_range z :
  2 ^ 53 ≤ z →
  2 ^ 52 ≤ roundHalfEven z (2 ^ (Z.log2 z - 52)) ≤ 2 ^ 53.
Proof.
  intros Hz.
  assert (Hl : 53 ≤ Z.log2 z).
  { change 53 with (Z.log2 (2 ^ 53)). apply Z.log2_le_mono. lia. }
  pose proof (Z.log2_spec z ltac:(lia)) as [Hlo Hhi].
  set (e := Z.log2 z - 52) in *.
  assert (Hp : 0 < 2 ^ e) by (apply Z.pow_pos_nonneg; lia).
  replace (Z.log2 z) with (52 + e) in Hlo by lia.
  replace (Z.succ (Z.log2 z)) with (53 + e) in Hhi by lia.
  rewrite Z.pow_add_r in Hlo, Hhi by lia.
  pose proof (roundHalfEven_bounds z (2 ^ e) Hp) as [Hb1 Hb2].
  assert (2 ^ 52 ≤ z / 2 ^ e) by (apply Z.div_le_lower_bound; lia).
  assert (z / 2 ^ e < 2 ^ 53) by (apply Z.div_lt_upper_bound; lia).
  lia.
Qed.

Lemma clamp_mono v w : v ≤ w → clamp v ≤ clamp w.
Proof.
  intros Hle. unfold clamp.
  destruct (INFINITY <=? v) eqn:E1; destruct (INFINITY <=? w) eqn:E2;
    rewrite ?Z.leb_le, ?Z.leb_gt in *; lia.
Qed.

(** Rounding keeps the order. *)
Lemma toDouble_mono z w : 0 ≤ z ≤ w → toDouble z ≤ toDouble w.
Proof.
  intros [Hz Hle].
  destruct (decide (w < 2 ^ 53)) as [Hw|Hw].
  { rewrite !toDouble_exact by lia. done. }
  rewrite (toDouble_big w) by lia.
  pose proof (mantissa_range w ltac:(lia)) as [Hmw _].
  assert (Hlw : 53 ≤ Z.log2 w).
  { change 53 with (Z.log2 (2 ^ 53)). apply Z.log2_le_mono. lia. }
  assert (Hpw : 2 ^ Z.log2 w
                ≤ roundHalfEven w (2 ^ (Z.log2 w - 52)) * 2 ^ (Z.log2 w - 52)).
  { replace (Z.log2 w) with (52 + (Z.log2 w - 52)) at 1 by lia.
    rewrite Z.pow_add_r by lia.
    assert (0 < 2 ^ (Z.log2 w - 52)) by (apply Z.pow_pos_nonneg; lia). nia. }
  destruct (decide (z < 2 ^ 53)) as [Hz53|Hz53].
  { rewrite toDouble_exact by lia. unfold clamp.
    assert (2 ^ 53 ≤ 2 ^ Z.log2 w) by (apply Z.pow_le_mono_r; lia).
    destruct (INFINITY <=? _); [unfold INFINITY|]; lia. }
  rewrite (toDouble_big z) by lia. apply clamp_mono.
  pose proof (mantissa_range z ltac:(lia)) as [_ Hmz].
  assert (Hlz : 53 ≤ Z.log2 z).
  { change 53 with (Z.log2 (2 ^ 53)). apply Z.log2_le_mono. lia. }
  assert (Hll : Z.log2 z ≤ Z.log2 w) by (apply Z.log2_le_mono; lia).
  destruct (decide (Z.log2 z = Z.log2 w)) as [Heq|Hne].
  - rewrite Heq.
    assert (0 < 2 ^ (Z.log2 w - 52)) by (apply Z.pow_pos_nonneg; lia).
    pose proof (roundHalfEven_mono z w (2 ^ (Z.log2 w - 52)) ltac:(done) Hle). nia.
  - etrans; [|exact Hpw].
    assert (0 < 2 ^ (Z.log2 z - 52)) by (apply Z.pow_pos_nonneg; lia).
    assert (2 ^ 53 * 2 ^ (Z.log2 z - 52) ≤ 2 ^ Z.log2 w).
    { rewrite <- Z.pow_add_r by lia. apply Z.pow_le_mono_r; lia. }
    nia.
Qed.

Lemma toDouble_INFINITY : toDouble INFINITY = INFINITY.
Proof. by vm_compute. Qed.

(** A number is its own nearest number. *)
Lemma toDouble_idemp z : 0 ≤ z → toDouble (toDouble z) = toDouble z.
Proof.
  intros Hz. destruct (decide (z < 2 ^ 53)) as [Hz53|Hz53].
  { rewrite (toDouble_exact z) by lia. by rewrite (toDouble_exact z) by lia. }
  rewrite (toDouble_big z) by lia. unfold clamp.
  destruct (INFINITY <=? _) eqn:Einf; [apply toDouble_INFINITY|].
  apply Z.leb_gt in Einf.
  pose proof (mantissa_range z ltac:(lia)) as [Hm1 Hm2].
  assert (Hl : 53 ≤ Z.log2 z).
  { change 53 with (Z.log2 (2 ^ 53)). apply Z.log2_le_mono. lia. }
  set (e := Z.log2 z - 52) in *. set (m := roundHalfEven z (2 ^ e)) in *.
  assert (Hp : 0 < 2 ^ e) by (apply Z.pow_pos_nonneg; lia).
  assert (Hv : 2 ^ 53 ≤ m * 2 ^ e).
  { assert (2 ^ 1 ≤ 2 ^ e) by (apply Z.pow_le_mono_r; lia). nia. }
  rewrite toDouble_big by done.
  destruct (decide (m = 2 ^ 53)) as [->|Hm].
  - rewrite <- Z.pow_add_r by lia. rewrite Z.log2_pow2 by lia.
    replace (53 + e - 52) with (e + 1) by lia.
    replace (2 ^ (53 + e)) with (2 ^ 52 * 2 ^ (e + 1))
      by (rewrite <- Z.pow_add_r by lia; f_equal; lia).
    rewrite roundHalfEven_exact by (apply Z.pow_pos_nonneg; lia).
    unfold clamp. rewrite (proj2 (Z.leb_gt _ _)); [done|].
    rewrite <- Z.pow_add_r in * by lia. replace (52 + (e + 1)) with (53 + e) by lia.
    done.
  - assert (Hlog : Z.log2 (m * 2 ^ e) = 52 + e).
    { rewrite Z.log2_mul_pow2 by lia.
      assert (Z.log2 m = 52); [|lia]. apply Z.log2_unique; lia. }
    rewrite Hlog. replace (52 + e - 52) with e by lia.
    rewrite roundHalfEven_exact by done. unfold clamp.
    by rewrite (proj2 (Z.leb_gt _ _)).
Qed.

Lemma toDouble_nonneg z : 0 ≤ z → 0 ≤ toDouble z.
Proof.
  intros Hz. change 0 with (toDouble 0) at 1. by apply toDouble_mono.
Qed.

(** The floor of the rounded product of a number below 1 and an integer
    [n] is below [n]: the largest number below 1 is [1 - 2 ^ -53], and its
    product with [n] is further than half a unit in the last place below
    [n]. *)
Lemma floor_product_lt num d n j :
  0 ≤ num → 0 < d → num * 2 ^ 53 ≤ (2 ^ 53 - 1) * d →
  0 < n → 0 ≤ j ≤ 52 → n ≤ 2 ^ j → 2 ^ j < 2 * n →
  let '(N, D) := roundDouble (num * n) d in 0 ≤ N / D < n.
Proof.
  intros Hnum Hd Hx Hn Hj Hnj Hjn. unfold roundDouble.
  destruct (num * n =? 0) eqn:E0; [rewrite Z.div_1_r; lia|].
  apply Z.eqb_neq in E0. set (a := num * n) in *.
  assert (Ha : 0 < a) by (subst a; nia).
  rewrite Z.abs_eq, Z.sgn_pos by lia.
  assert (Hlt : a < n * d) by (subst a; nia).
  assert (Hj2 : 0 < 2 ^ j) by (apply Z.pow_pos_nonneg; lia).
  pose proof (floorLog2_lt a d j Ha Hd ltac:(lia) ltac:(nia)) as Hfl.
  set (e := Z.max (floorLog2 a d - 52) (-1074)).
  assert (He : -1074 ≤ e ≤ j - 53) by lia. clearbody e.
  rewrite (proj2 (Z.leb_gt 0 e)) by lia.
  assert (Hp : 0 < 2 ^ (- e)) by (apply Z.pow_pos_nonneg; lia).
  pose proof (roundHalfEven_bounds (a * 2 ^ (- e)) d Hd) as [Hm0 Hm].
  assert (Hq : 0 ≤ a * 2 ^ (- e) / d ≤ a * 2 ^ (- e)).
  { split; [apply Z.div_pos; nia|]. apply Z.div_le_upper_bound; [done|]. nia. }
  assert (Hj52 : 2 ^ j ≤ 2 ^ 52) by (apply Z.pow_le_mono_r; lia).
  assert (Ha' : a < 2 ^ 53 * d) by nia.
  rewrite (proj2 (Z.leb_gt _ _)).
  2: { unfold INFINITY.
       assert (a * 2 ^ (- e) / d < 2 ^ 53 * 2 ^ (- e))
         by (apply Z.div_lt_upper_bound; nia). nia. }
  rewrite Z.mul_1_l.
  pose proof (roundHalfEven_floor_le a d (- e) ltac:(lia) Hd ltac:(lia)) as [Hlo Hhi].
  assert (Hqn : 0 ≤ a / d < n).
  { split; [apply Z.div_pos; lia|]. apply Z.div_lt_upper_bound; lia. }
  split; [lia|].
  destruct (decide (a / d = n - 1)) as [Hlast|Hnot]; [|lia].
  rewrite floor_roundHalfEven; [lia|lia|done|lia|].
  pose proof (Z.div_mod a d ltac:(lia)) as Hdm. rewrite Hlast in Hdm.
  assert (Hgap : d - a mod d = n * (d - num)) by (subst a; lia).
  rewrite Hgap.
  assert (Hk : 2 ^ (54 - j) ≤ 2 ^ (- e + 1)) by (apply Z.pow_le_mono_r; lia).
  assert (H54 : 2 ^ (54 - j) * 2 ^ j = 2 * 2 ^ 53).
  { rewrite <- Z.pow_add_r by lia. replace (54 - j + j) with 54 by lia. done. }
  assert (Hdn : d ≤ (d - num) * 2 ^ 53) by lia.
  assert (0 < d - num) by nia.
  apply Z.mul_lt_mono_pos_r with (2 ^ j); [done|].
  set (X := n * (d - num)). assert (HX : 0 ≤ X) by (subst X; nia).
  assert (H1 : X * 2 ^ (54 - j) * 2 ^ j ≤ X * 2 ^ (- e + 1) * 2 ^ j).
  { apply Z.mul_le_mono_nonneg_r; [lia|]. by apply Z.mul_le_mono_nonneg_l. }
  assert (H2 : X * 2 ^ (54 - j) * 2 ^ j = 2 * (n * ((d - num) * 2 ^ 53))).
  { rewrite <- Z.mul_assoc, H54. subst X. ring. }
  assert (H3 : n * d ≤ n * ((d - num) * 2 ^ 53))
    by (apply Z.mul_le_mono_nonneg_l; lia).
  assert (H4 : d * 2 ^ j < d * (2 * n)) by (apply Z.mul_lt_mono_pos_l; lia).
  lia.
Qed.

(** The rounding at work: odd integers above [2 ^ 53] are not numbers, 30
    is lost on [2 ^ 58], and the quotient of [2 ^ 60] by 1000, which is
    1152921504606846.976, rounds to the next whole number. *)
Example toDouble_rounds :
  toDouble (2 ^ 53 + 1) = 2 ^ 53
  ∧ toDouble (2 ^ 53 + 3) = 2 ^ 53 + 4
  ∧ toDouble (2 ^ 58 + 30) = 2 ^ 58
  ∧ toDouble (10 ^ 400) = INFINITY.
Proof. by vm_compute. Qed.

Example floorQuot_rounds :
  floorQuot (2 ^ 60) 1000 = 1152921504606847
  ∧ 2 ^ 60 / 1000 = 1152921504606846.
Proof. by vm_compute. Qed.

End Rounding.

(** ** The retry policy of [fetchFromITunes] *)

Lemma retryTrace_snoc url k :
  retryTrace url k ++ [EvSleep 500; EvFetch url]
  = EvFetch url :: EvSleep 500 :: retryTrace url k.
Proof. induction k as [|k IH]; simpl; [done|]. by rewrite IH. Qed.

Lemma netCalls_retryTrace url k tr :
  netCalls (retryTrace url k ++ tr) = netCalls tr + S k.
Proof.
  unfold netCalls. induction k as [|k IH]; simpl in *; [lia|].
  rewrite IH. lia.
Qed.

Lemma fetchFromITunes_run (H : Host) url retries st :
  ∃ k, k ≤ retries
    ∧ (∀ j, j < k → attempt H (netCalls (trace st) + j) url = Transient)
    ∧ fetchFromITunes H url retries st
      = (match attempt H (netCalls (trace st) + k) url with
         | Got d => d
         | _ => None
         end,
         withTrace (retryTrace url k ++ trace st) st)
    ∧ (attempt H (netCalls (trace st) + k) url = Transient → k = retries).
Proof.
  revert st. induction retries as [|n IH]; intros st.
  - exists 0. rewrite Nat.add_0_r. split; [lia|]. split; [intros; lia|].
    split; [|done]. simpl. unfold_M. unfold attempt.
    destruct (tryBody _) as [d|e]; [done|]. by destruct (isAbortError e).
  - simpl. unfold_M. destruct (attempt H (netCalls (trace st)) url) eqn:Ha.
    + exists 0. rewrite Nat.add_0_r, Ha. split; [lia|]. split; [intros; lia|].
      split; [|done]. unfold attempt in Ha.
      destruct (tryBody _) as [d'|e]; [by inversion Ha|].
      by destruct (isAbortError e).
    + exists 0. rewrite Nat.add_0_r, Ha. split; [lia|]. split; [intros; lia|].
      split; [|done]. unfold attempt in Ha.
      destruct (tryBody _) as [d'|e]; [done|].
      by destruct (isAbortError e).
    + destruct (IH (logEvent (EvSleep 500) (logEvent (EvFetch url) st)))
        as (k & Hk & Hbefore & Hrun & Hlast).
      simpl in Hbefore, Hrun, Hlast.
      change (netCalls (EvFetch url :: trace st)) with (S (netCalls (trace st)))
        in Hbefore, Hrun, Hlast.
      exists (S k). rewrite <- Nat.add_succ_comm.
      split; [lia|]. split; [|split].
      * intros [|j] Hj; [by rewrite Nat.add_0_r|].
        rewrite <- Nat.add_succ_comm. apply Hbefore. lia.
      * unfold attempt in Ha. destruct (tryBody _) as [d'|e]; [done|].
        destruct (isAbortError e); [done|].
        rewrite Hrun. f_equal. unfold withTrace. simpl. f_equal.
        change (EvFetch url :: EvSleep 500 :: retryTrace url k ++ trace st)
          with ((EvFetch url :: EvSleep 500 :: retryTrace url k) ++ trace st).
        rewrite <- retryTrace_snoc, <- app_assoc. done.
      * intros Ht. f_equal. by apply Hlast.
Qed.

Lemma attempt_timeout (H : Host) n url :
  (8000 ≤ (network H n url).1)%Z → attempt H n url = Aborted.
Proof.
  intros Hlat. unfold attempt, settle. destruct (network H n url) as [lat out].
  simpl in Hlat. rewrite bool_decide_eq_false_2 by lia. done.
Qed.

Lemma attempt_transient (H : Host) n url :
  ((network H n url).1 < 8000)%Z →
  match (network H n url).2 with
  | Fulfilled res => ok res = false
  | Rejected e => isAbortError e = false
  end →
  attempt H n url = Transient.
Proof.
  intros Hlat Hout. unfold attempt, settle. destruct (network H n url) as [lat out].
  simpl in *. rewrite bool_decide_eq_true_2 by lia.
  destruct out as [res|e]; simpl; by rewrite Hout.
Qed.

(** C5. [fetchFromITunes], called with its default of two retries, makes
    [k + 1] requests for some [k ≤ 2] (three at most), each one after the
    first preceded by a delay of 500 ms; every attempt before the last was a
    transient failure; the last attempt either succeeded, and its body is
    the result, or was aborted, and the result is [null] with no further
    attempt, or was the third transient failure, and the result is [null].
    The call always returns and touches neither cache nor the clock.
    An attempt is aborted when its request has not settled after 8000 ms;
    it is transient when the request settles in time with a status that is
    not ok or rejects with an error other than [AbortError]. *)
Theorem fetchFromITunes_retry_policy (H : Host) (url : jsstring) (st : State) :
  let n := netCalls (trace st) in
  (∃ k : nat,
    k ≤ 2
    ∧ (fetchFromITunes H url 2 st).2 = withTrace (retryTrace url k ++ trace st) st
    ∧ netCalls (trace (fetchFromITunes H url 2 st).2) = n + S k
    ∧ (∀ j, j < k → attempt H (n + j) url = Transient)
    ∧ match attempt H (n + k) url with
      | Got d => (fetchFromITunes H url 2 st).1 = d
      | Aborted => (fetchFromITunes H url 2 st).1 = None
      | Transient => k = 2 ∧ (fetchFromITunes H url 2 st).1 = None
      end)
  ∧ (∀ m, (8000 ≤ (network H m url).1)%Z → attempt H m url = Aborted)
  ∧ (∀ m, ((network H m url).1 < 8000)%Z →
          match (network H m url).2 with
          | Fulfilled res => ok res = false
          | Rejected e => isAbortError e = false
          end →
          attempt H m url = Transient).
Proof.
  intros n. split; [|split; intros m; [apply attempt_timeout|apply attempt_transient]].
  destruct (fetchFromITunes_run H url 2 st) as (k & Hk & Hb & Hrun & Hl).
  exists k. rewrite Hrun. simpl. split; [done|]. split; [done|].
  split; [apply netCalls_retryTrace|]. split; [done|].
  subst n. destruct (attempt H (netCalls (trace st) + k) url); auto.
Qed.

(** A catalog that is down: three requests, two delays, [null]. *)
Example fetchFromITunes_network_down :
  fetchFromITunes (constHost 10 networkError 0) (js "https://itunes.apple.com/search") 2
    initialState
  = (None,
     withTrace (retryTrace (js "https://itunes.apple.com/search") 2) initialState).
Proof. reflexivity. Qed.

(** A request that hangs: aborted after the first attempt. *)
Example fetchFromITunes_timeout :
  fetchFromITunes (constHost 9000 (okResponse (catalogBody [])) 0)
    (js "https://itunes.apple.com/search") 2 initialState
  = (None,
     withTrace [EvFetch (js "https://itunes.apple.com/search")] initialState).
Proof. reflexivity. Qed.

Lemma fetchFromITunes_frame (H : Host) url retries st :
  ∃ d tr, fetchFromITunes H url retries st = (d, withTrace tr st)
          ∧ netCalls (trace st) < netCalls tr.
Proof.
  destruct (fetchFromITunes_run H url retries st) as (k & _ & _ & Hrun & _).
  eexists _, _. split; [exact Hrun|]. rewrite netCalls_retryTrace. lia.
Qed.

(** ** Cache checks *)

Lemma isCacheValid_eq (H : Host) entry ttl st :
  isCacheValid H entry ttl st
  = (match entry with
     | Some e => bool_decide (fresh H st e ttl)
     | None => false
     end, afterCheck entry st).
Proof. by destruct entry. Qed.

Lemma searchSongs_long (H : Host) query st :
  2 ≤ length (trim query) →
  searchSongs H query st
  = match searchCache st !! searchKey H query with
    | Some c =>
        if bool_decide (fresh H st c SEARCH_CACHE_TTL)
        then (Fulfilled (data c), tick st)
        else searchSongs_fetch H (trim query) (searchKey H query) (tick st)
    | None => searchSongs_fetch H (trim query) (searchKey H query) st
    end.
Proof.
  intros Hlen. unfold searchSongs.
  rewrite (bool_decide_eq_false_2 (trim query = [])),
    (bool_decide_eq_false_2 (length (trim query) < 2)).
  2: lia. 2: { intros E. rewrite E in Hlen. simpl in Hlen. lia. }
  simpl. unfold mbind, M_bind, gets. fold (searchKey H query).
  rewrite isCacheValid_eq.
  destruct (searchCache st !! searchKey H query) as [c|]; [|done].
  simpl. by destruct (bool_decide _).
Qed.

Lemma getPopularSongs_eq (H : Host) st :
  getPopularSongs H st
  = match popularCache st with
    | Some p =>
        if bool_decide (fresh H st p POPULAR_CACHE_TTL)
           && bool_decide (0 < length (data p))
        then (data p, tick st)
        else getPopularSongs_fetch H (tick st)
    | None => getPopularSongs_fetch H st
    end.
Proof.
  unfold getPopularSongs, mbind, M_bind, gets. rewrite isCacheValid_eq.
  destruct (popularCache st) as [p|]; [|done].
  simpl. by destruct (_ && _).
Qed.

(** C9. For a query whose trimmed form has fewer than two code units (the
    empty one included) [searchSongs] resolves to the empty list and leaves
    the state as it was: no request in the trace, no cache written, the
    clock not read; as the answer is the same whatever the caches hold, no
    cache is read either. *)
Theorem searchSongs_short_query (H : Host) (query : jsstring) (st : State) :
  length (trim query) < 2 →
  searchSongs H query st = (Fulfilled [], st).
Proof.
  intros Hlen. unfold searchSongs.
  destruct (bool_decide (trim query = [])); [done|].
  by rewrite bool_decide_eq_true_2.
Qed.

Lemma searchSongs_short_query_witness :
  length (trim (js "  a ")) < 2
  ∧ searchSongs (constHost 10 networkError 0) (js "  a ") initialState
    = (Fulfilled [], initialState).
Proof.
  assert (Hlen : length (trim (js "  a ")) < 2) by (vm_compute; lia).
  split; [exact Hlen|].
  exact (searchSongs_short_query (constHost 10 networkError 0) (js "  a ")
           initialState Hlen).
Defined.

(** ** Expiry: the sweep and the read path *)

Lemma cleanupCache_searchCache (H : Host) st :
  searchCache (cleanupCache H st).2
  = filter (λ kv : jsstring * CacheEntry, fresh H st kv.2 SEARCH_CACHE_TTL)
           (searchCache st).
Proof.
  unfold cleanupCache. unfold_M. simpl.
  assert (Hf : ∀ m : gmap jsstring CacheEntry,
    filter (λ kv : jsstring * CacheEntry,
              ¬ (clock H (clockReads st) - timestamp kv.2 >= SEARCH_CACHE_TTL)%Z) m
    = filter (λ kv : jsstring * CacheEntry, fresh H st kv.2 SEARCH_CACHE_TTL) m).
  { intros m. apply map_filter_ext. intros k e _. unfold fresh, age. simpl. lia. }
  destruct (popularCache st) as [p|]; simpl; [|apply Hf].
  destruct (bool_decide _); simpl; apply Hf.
Qed.

Lemma cleanupCache_popularCache (H : Host) st :
  popularCache (cleanupCache H st).2
  = match popularCache st with
    | Some p => if bool_decide (fresh H st p POPULAR_CACHE_TTL) then Some p else None
    | None => None
    end.
Proof.
  unfold cleanupCache. unfold_M. simpl.
  destruct (popularCache st) as [p|] eqn:Hp; simpl; [|done].
  unfold fresh, age.
  destruct (decide (clock H (clockReads st) - timestamp p >= POPULAR_CACHE_TTL)%Z).
  - rewrite bool_decide_eq_true_2, bool_decide_eq_false_2 by lia. done.
  - rewrite bool_decide_eq_false_2, bool_decide_eq_true_2 by lia. done.
Qed.

Lemma allSettled_calls {A} (ps : list (M A)) st :
  Forall (λ p, ∀ st, netCalls (trace st) < netCalls (trace (p st).2)) ps →
  netCalls (trace st) + length ps ≤ netCalls (trace (allSettled ps st).2).
Proof.
  intros Hps. revert st. induction Hps as [|p ps Hp _ IH]; intros st; simpl.
  - unfold mret, M_ret. simpl. lia.
  - unfold mbind, M_bind, mret, M_ret. specialize (Hp st).
    destruct (p st) as [v st1]. specialize (IH st1).
    destruct (allSettled ps st1) as [vs st2]. simpl in *. lia.
Qed.

Lemma fetchFromITunes_calls (H : Host) url retries st :
  netCalls (trace st) < netCalls (trace (fetchFromITunes H url retries st).2).
Proof.
  destruct (fetchFromITunes_frame H url retries st) as (d & tr & -> & Hlt). done.
Qed.

Lemma getPopularSongs_fetch_calls (H : Host) st :
  netCalls (trace st) + 3 ≤ netCalls (trace (getPopularSongs_fetch H st).2).
Proof.
  unfold getPopularSongs_fetch. unfold mbind at 1. unfold M_bind at 1.
  pose proof (allSettled_calls ((λ url, fetchFromITunes H url 2) <$> queries) st) as Hc.
  rewrite length_fmap in Hc. change (length queries) with 3 in Hc.
  destruct (allSettled _ st) as [rs st1].
  assert (netCalls (trace st) + 3 ≤ netCalls (trace st1)) as Hle.
  { apply Hc. apply Forall_fmap, Forall_forall. intros url _ st'.
    apply fetchFromITunes_calls. }
  destruct (bool_decide _); unfold_M; cbn [trace snd setPopularCache tick]; lia.
Qed.

Lemma searchSongs_fetch_calls (H : Host) trimmed key enc st :
  encodeURIComponent trimmed = Some enc →
  netCalls (trace st) < netCalls (trace (searchSongs_fetch H trimmed key st).2).
Proof.
  intros Henc. unfold searchSongs_fetch. rewrite Henc.
  unfold mbind at 1. unfold M_bind at 1.
  pose proof (fetchFromITunes_calls H (searchUrl enc) 2 st) as Hc.
  destruct (fetchFromITunes _ _ _ st) as [d st1].
  destruct (bool_decide _); unfold_M; simpl in *; lia.
Qed.

(** What is requested and what is answered depends on the requests made so
    far, and on neither the caches nor the clock. *)
Lemma fetchFromITunes_trace_only (H : Host) url retries st st' :
  trace st = trace st' →
  (fetchFromITunes H url retries st).1 = (fetchFromITunes H url retries st').1
  ∧ trace (fetchFromITunes H url retries st).2
    = trace (fetchFromITunes H url retries st').2.
Proof.
  revert st st'. induction retries as [|n IH]; intros st st' Htr; simpl; unfold_M;
    cbn [trace logEvent]; rewrite Htr.
  - destruct (tryBody _) as [d|e]; cbn [fst snd trace logEvent]; by rewrite Htr.
  - destruct (tryBody _) as [d|e]; cbn [fst snd trace logEvent];
      [by rewrite Htr|].
    destruct (isAbortError e); cbn [fst snd trace logEvent]; [by rewrite Htr|].
    apply IH. cbn [trace logEvent]. by rewrite Htr.
Qed.

Lemma allSettled_trace_only {A} (ps : list (M A)) st st' :
  Forall (λ p, ∀ st st', trace st = trace st' →
                 (p st).1 = (p st').1 ∧ trace (p st).2 = trace (p st').2) ps →
  trace st = trace st' →
  (allSettled ps st).1 = (allSettled ps st').1
  ∧ trace (allSettled ps st).2 = trace (allSettled ps st').2.
Proof.
  intros Hps. revert st st'.
  induction Hps as [|p ps Hp _ IH]; intros st st' Htr; simpl.
  - done.
  - unfold mbind, M_bind, mret, M_ret. destruct (Hp st st' Htr) as [Hv Ht].
    destruct (p st) as [v st1], (p st') as [v' st1']. cbn [fst snd] in Hv, Ht.
    destruct (IH st1 st1' Ht) as [Hvs Hts].
    destruct (allSettled ps st1) as [vs st2], (allSettled ps st1') as [vs' st2'].
    cbn [fst snd] in *. by subst.
Qed.

(** What [searchSongs] answers once the cache check has failed: the songs
    of the response, when there are any, otherwise the fallback search. *)
Lemma searchSongs_fetch_result (H : Host) trimmed key enc st :
  encodeURIComponent trimmed = Some enc →
  (searchSongs_fetch H trimmed key st).1
  = Fulfilled
      (let songs := parseITunesResponse (fetchFromITunes H (searchUrl enc) 2 st).1 in
       if bool_decide (0 < length songs) then songs else fallbackSearch H key).
Proof.
  intros Henc. unfold searchSongs_fetch. rewrite Henc.
  unfold mbind at 1. unfold M_bind at 1.
  destruct (fetchFromITunes _ _ _ st) as [d st1]. cbn [fst].
  by destruct (bool_decide _).
Qed.

Lemma searchSongs_fetch_trace_only (H : Host) trimmed key st st' :
  trace st = trace st' →
  (searchSongs_fetch H trimmed key st).1 = (searchSongs_fetch H trimmed key st').1.
Proof.
  intros Htr. destruct (encodeURIComponent trimmed) as [enc|] eqn:Henc.
  - rewrite !(searchSongs_fetch_result H _ _ enc) by done.
    by destruct (fetchFromITunes_trace_only H (searchUrl enc) 2 st st' Htr) as [-> _].
  - unfold searchSongs_fetch. by rewrite Henc.
Qed.

Lemma getPopularSongs_fetch_eq (H : Host) st :
  getPopularSongs_fetch H st
  = let rs := allSettled ((λ url, fetchFromITunes H url 2) <$> queries) st in
    let finalSongs := take 15 (unique (collect rs.1)) in
    if bool_decide (0 < length finalSongs)
    then (finalSongs,
          setPopularCache
            (Some {| data := finalSongs; timestamp := clock H (clockReads rs.2) |})
            (tick rs.2))
    else (FALLBACK_SONGS, rs.2).
Proof.
  unfold getPopularSongs_fetch. unfold mbind at 1. unfold M_bind at 1.
  destruct (allSettled _ st) as [rs st1]. cbn [fst snd].
  by destruct (bool_decide _).
Qed.

Lemma getPopularSongs_fetch_trace_only (H : Host) st st' :
  trace st = trace st' →
  (getPopularSongs_fetch H st).1 = (getPopularSongs_fetch H st').1.
Proof.
  intros Htr. rewrite !getPopularSongs_fetch_eq. cbv zeta.
  assert (Hrs : (allSettled ((λ url, fetchFromITunes H url 2) <$> queries) st).1
                = (allSettled ((λ url, fetchFromITunes H url 2) <$> queries) st').1).
  { apply allSettled_trace_only; [|done].
    apply Forall_fmap, Forall_forall. intros url _ st0 st0'.
    apply fetchFromITunes_trace_only. }
  rewrite Hrs. by destruct (bool_decide _).
Qed.

(** C8. The sweep [cleanupCache] keeps every search entry, and the popular
    slot, whose age at the sweep's reading of the clock is below its TTL.
    On the read path [isCacheValid] rejects an entry whose age has reached
    the TTL, and a stale entry is not served. For [searchSongs] and a stale
    entry under the key of the query: the call goes on to the catalog, with
    at least one request when the query can be encoded into a URL; its
    answer is the answer it gives when nothing is stored under the key, so
    that nothing of the stale entry reaches it; and a list it resolves to is
    the non-empty list of songs of the response received in this call, or,
    when the response has none, the fallback search. For [getPopularSongs]
    and a stale popular slot: the call makes its three requests at least,
    and its answer is the answer it gives with the slot empty. *)
Theorem expired_only_swept_stale_never_served (H : Host) (st : State) :
  (∀ k e, searchCache st !! k = Some e →
          (age H st e < SEARCH_CACHE_TTL)%Z →
          searchCache (cleanupCache H st).2 !! k = Some e)
  ∧ (∀ p, popularCache st = Some p →
          (age H st p < POPULAR_CACHE_TTL)%Z →
          popularCache (cleanupCache H st).2 = Some p)
  ∧ (∀ e ttl, (ttl ≤ age H st e)%Z → (isCacheValid H (Some e) ttl st).1 = false)
  ∧ (∀ query c,
        2 ≤ length (trim query) →
        searchCache st !! searchKey H query = Some c →
        (SEARCH_CACHE_TTL ≤ age H st c)%Z →
        searchSongs H query st
        = searchSongs_fetch H (trim query) (searchKey H query) (tick st)
        ∧ (is_Some (encodeURIComponent (trim query)) →
           netCalls (trace st) < netCalls (trace (searchSongs H query st).2))
        ∧ (searchSongs H query st).1
          = (searchSongs H query
               (setSearchCache (delete (searchKey H query) (searchCache st)) st)).1
        ∧ (∀ l, (searchSongs H query st).1 = Fulfilled l →
             ∃ enc, encodeURIComponent (trim query) = Some enc
               ∧ let songs :=
                   parseITunesResponse
                     (fetchFromITunes H (searchUrl enc) 2 (tick st)).1 in
                 (songs ≠ [] ∧ l = songs)
                 ∨ (songs = [] ∧ l = fallbackSearch H (searchKey H query))))
  ∧ (∀ p, popularCache st = Some p →
          (POPULAR_CACHE_TTL ≤ age H st p)%Z →
          getPopularSongs H st = getPopularSongs_fetch H (tick st)
          ∧ netCalls (trace st) + 3 ≤ netCalls (trace (getPopularSongs H st).2)
          ∧ (getPopularSongs H st).1 = (getPopularSongs H (setPopularCache None st)).1).
Proof.
  split; [|split; [|split; [|split]]].
  - intros k e Hk Hage. rewrite cleanupCache_searchCache.
    apply map_lookup_filter_Some. done.
  - intros p Hp Hage. rewrite cleanupCache_popularCache, Hp.
    by rewrite bool_decide_eq_true_2.
  - intros e ttl Hage. rewrite isCacheValid_eq. simpl.
    apply bool_decide_eq_false_2. unfold fresh. lia.
  - intros query c Hlen Hc Hage.
    assert (Heq : searchSongs H query st
                  = searchSongs_fetch H (trim query) (searchKey H query) (tick st)).
    { rewrite searchSongs_long, Hc by done.
      rewrite bool_decide_eq_false_2; [done|]. unfold fresh. lia. }
    split; [done|]. split; [|split].
    + intros [enc Henc]. rewrite Heq.
      apply (searchSongs_fetch_calls H _ _ enc (tick st) Henc).
    + rewrite Heq, searchSongs_long by done.
      cbn [searchCache setSearchCache]. rewrite lookup_delete_eq.
      by apply searchSongs_fetch_trace_only.
    + intros l Hl. rewrite Heq in Hl.
      destruct (encodeURIComponent (trim query)) as [enc|] eqn:Henc.
      2: { unfold searchSongs_fetch in Hl. by rewrite Henc in Hl. }
      exists enc. split; [done|].
      rewrite (searchSongs_fetch_result H _ _ enc) in Hl by done.
      cbv zeta in *. injection Hl as <-.
      destruct (parseITunesResponse _) as [|s songs]; [by right|left].
      by rewrite bool_decide_eq_true_2 by (simpl; lia).
  - intros p Hp Hage.
    assert (Heq : getPopularSongs H st = getPopularSongs_fetch H (tick st)).
    { rewrite getPopularSongs_eq, Hp.
      rewrite (bool_decide_eq_false_2 (fresh H st p POPULAR_CACHE_TTL)); [done|].
      unfold fresh. lia. }
    split; [done|]. split.
    + rewrite Heq. apply (getPopularSongs_fetch_calls H (tick st)).
    + rewrite Heq, (getPopularSongs_eq H (setPopularCache None st)).
      cbn [popularCache setPopularCache]. by apply getPopularSongs_fetch_trace_only.
Qed.

(** A popular slot that has expired, and a catalog that is down: the
    fallback list is answered, not the list of the slot. *)
Example getPopularSongs_stale_not_served :
  let H := constHost 10 networkError POPULAR_CACHE_TTL in
  let st := setPopularCache
              (Some {| data := parseITunesResponse (catalogBody [track 7 "Ab"]);
                       timestamp := 0 |}) initialState in
  (getPopularSongs H st).1 = FALLBACK_SONGS.
Proof. reflexivity. Qed.

(** ** Searches that find nothing in the catalog *)

Lemma searchSongs_fetch_empty (H : Host) trimmed key enc st :
  encodeURIComponent trimmed = Some enc →
  parseITunesResponse (fetchFromITunes H (searchUrl enc) 2 st).1 = [] →
  searchSongs_fetch H trimmed key st
  = (Fulfilled (fallbackSearch H key), (fetchFromITunes H (searchUrl enc) 2 st).2).
Proof.
  intros Henc Hempty. unfold searchSongs_fetch. rewrite Henc.
  unfold mbind at 1. unfold M_bind at 1.
  destruct (fetchFromITunes _ _ _ st) as [d st1]. simpl in Hempty.
  rewrite Hempty. done.
Qed.

Lemma searchSongs_fetch_found (H : Host) trimmed key enc st :
  encodeURIComponent trimmed = Some enc →
  parseITunesResponse (fetchFromITunes H (searchUrl enc) 2 st).1 ≠ [] →
  let r := fetchFromITunes H (searchUrl enc) 2 st in
  let songs := parseITunesResponse r.1 in
  searchSongs_fetch H trimmed key st
  = (Fulfilled songs,
     setSearchCache
       (<[key := {| data := songs; timestamp := clock H (clockReads r.2) |}]>
          (searchCache r.2)) (tick r.2)).
Proof.
  intros Henc Hfound. unfold searchSongs_fetch. rewrite Henc.
  unfold mbind at 1. unfold M_bind at 1.
  destruct (fetchFromITunes _ _ _ st) as [d st1]. simpl in *.
  destruct (parseITunesResponse d) as [|s l]; [done|].
  rewrite bool_decide_eq_true_2 by (simpl; lia). done.
Qed.

(** C10. When a search misses the cache and its catalog fetch fails or
    normalizes to the empty list, [searchSongs] answers with the fallback
    search and leaves both caches as they were; with a clock that does not
    run backwards, the same query asked again goes to the network again. *)
Theorem failed_search_not_cached (H : Host) (query enc : jsstring) (st : State) :
  let key := searchKey H query in
  let st0 := afterCheck (searchCache st !! key) st in
  let st' := (searchSongs H query st).2 in
  2 ≤ length (trim query) →
  (∀ c, searchCache st !! key = Some c → (SEARCH_CACHE_TTL ≤ age H st c)%Z) →
  encodeURIComponent (trim query) = Some enc →
  parseITunesResponse (fetchFromITunes H (searchUrl enc) 2 st0).1 = [] →
  (searchSongs H query st).1 = Fulfilled (fallbackSearch H key)
  ∧ searchCache st' = searchCache st
  ∧ popularCache st' = popularCache st
  ∧ ((∀ i j, i ≤ j → (clock H i ≤ clock H j)%Z) →
     netCalls (trace st') < netCalls (trace (searchSongs H query st').2)).
Proof.
  intros key st0 st' Hlen Hmiss Henc Hempty.
  assert (Hrun : searchSongs H query st
                 = (Fulfilled (fallbackSearch H key),
                    (fetchFromITunes H (searchUrl enc) 2 st0).2)).
  { rewrite searchSongs_long by done. fold key. subst st0.
    destruct (searchCache st !! key) as [c|] eqn:Hc; simpl in *.
    - rewrite bool_decide_eq_false_2
        by (unfold fresh; specialize (Hmiss c eq_refl); lia).
      by apply searchSongs_fetch_empty.
    - by apply searchSongs_fetch_empty. }
  destruct (fetchFromITunes_frame H (searchUrl enc) 2 st0) as (d & tr & Hfr & _).
  rewrite Hfr in Hrun. subst st'. rewrite Hrun. cbn [fst snd withTrace searchCache popularCache].
  assert (Hsc : searchCache st0 = searchCache st)
    by (subst st0; by destruct (searchCache st !! key)).
  assert (Hpc : popularCache st0 = popularCache st)
    by (subst st0; by destruct (searchCache st !! key)).
  assert (Hcr : clockReads st ≤ clockReads st0)
    by (subst st0; destruct (searchCache st !! key); simpl; lia).
  split; [done|]. split; [done|]. split; [done|]. intros Hmono.
  rewrite searchSongs_long by done. fold key. simpl. rewrite Hsc.
  destruct (searchCache st !! key) as [c|] eqn:Hc.
  - rewrite bool_decide_eq_false_2.
    + apply (searchSongs_fetch_calls H _ _ enc (tick (withTrace tr st0)) Henc).
    + unfold fresh, age. simpl. specialize (Hmiss c eq_refl). unfold age in Hmiss.
      specialize (Hmono _ _ Hcr). subst st0. simpl in Hmono. lia.
  - apply (searchSongs_fetch_calls H _ _ enc (withTrace tr st0) Henc).
Qed.

Lemma failed_search_not_cached_witness :
  let H := constHost 10 networkError 0 in
  let st' := (searchSongs H (js "ab") initialState).2 in
  (searchSongs H (js "ab") initialState).1
  = Fulfilled (fallbackSearch H (searchKey H (js "ab")))
  ∧ searchCache st' = searchCache initialState
  ∧ popularCache st' = popularCache initialState
  ∧ netCalls (trace st') < netCalls (trace (searchSongs H (js "ab") st').2).
Proof.
  intros H st'.
  destruct (failed_search_not_cached (constHost 10 networkError 0)
              (js "ab") (js "ab") initialState) as (Hr & Hs & Hp & Hn).
  - vm_compute. lia.
  - intros c Hc. vm_compute in Hc. discriminate.
  - vm_compute. reflexivity.
  - vm_compute. reflexivity.
  - split; [exact Hr|]. split; [exact Hs|]. split; [exact Hp|].
    apply Hn. intros i j _. simpl. lia.
Defined.

(** ** Substrings *)

Lemma startsWith_spec p s : startsWith p s = true ↔ ∃ b, s = p ++ b.
Proof.
  revert s. induction p as [|a p IH]; intros s; simpl.
  - split; [intros _; by exists s|done].
  - destruct s as [|c s].
    + split; [done|]. intros [b Hb]. discriminate.
    + rewrite andb_true_iff, bool_decide_eq_true, IH. split.
      * intros [-> [b ->]]. by exists b.
      * intros [b Hb]. injection Hb as -> ->. split; [done|by exists b].
Qed.

Lemma includes_spec s k : includes s k = true ↔ contains s k.
Proof.
  unfold contains. induction s as [|c s IH]; simpl.
  - rewrite orb_false_r, startsWith_spec. split.
    + intros [b Hb]. by exists [], b.
    + intros (a & b & Hab). destruct a; [by exists b|discriminate].
  - rewrite orb_true_iff, startsWith_spec, IH. split.
    + intros [[b Hb]|(a & b & Hab)].
      * by exists [], b.
      * exists (c :: a), b. by rewrite Hab.
    + intros (a & b & Hab). destruct a as [|c' a].
      * left. by exists b.
      * right. injection Hab as -> ->. by exists a, b.
Qed.

Lemma fallbackSearch_spec (H : Host) key s :
  s ∈ fallbackSearch H key
  ↔ s ∈ FALLBACK_SONGS
    ∧ (contains (toLowerCase H (title s)) key
       ∨ contains (toLowerCase H (artist s)) key).
Proof.
  unfold fallbackSearch. rewrite list_elem_of_filter.
  rewrite orb_true_iff, !includes_spec. tauto.
Qed.

(** ** When the catalog is unavailable *)

Lemma fetchFromITunes_unavailable (H : Host) url retries st :
  catalogUnavailable H →
  parseITunesResponse (fetchFromITunes H url retries st).1 = [].
Proof.
  intros Hun. destruct (fetchFromITunes_run H url retries st) as (k & _ & _ & -> & _).
  simpl. specialize (Hun (netCalls (trace st) + k) url).
  by destruct (attempt _ _ _).
Qed.

Lemma allSettled_Forall {A} (P : A → Prop) (ps : list (M A)) st :
  Forall (λ p, ∀ st, P (p st).1) ps →
  Forall (λ r, ∃ v, r = Fulfilled v ∧ P v) (allSettled ps st).1.
Proof.
  intros Hps. revert st. induction Hps as [|p ps Hp _ IH]; intros st; simpl.
  - constructor.
  - unfold mbind, M_bind, mret, M_ret. specialize (Hp st).
    destruct (p st) as [v st1]. specialize (IH st1).
    destruct (allSettled ps st1) as [vs st2]. simpl in *.
    constructor; [by exists v|done].
Qed.

Lemma collect_empty (rs : list (Settled (option Json))) :
  Forall (λ r, ∃ v, r = Fulfilled v ∧ parseITunesResponse v = []) rs →
  collect rs = [].
Proof.
  (* the loop leaves its accumulator as it is *)
  intros Hrs. unfold collect. generalize (@nil Song) as acc.
  induction Hrs as [|r rs (v & -> & Hv) _ IH]; intros acc; simpl; [done|].
  destruct v as [v|]; [|apply IH]. rewrite Hv, app_nil_r. apply IH.
Qed.

Lemma getPopularSongs_fetch_unavailable (H : Host) st :
  catalogUnavailable H → (getPopularSongs_fetch H st).1 = FALLBACK_SONGS.
Proof.
  intros Hun. unfold getPopularSongs_fetch. unfold mbind at 1. unfold M_bind at 1.
  pose proof (allSettled_Forall (λ v, parseITunesResponse v = [])
                ((λ url, fetchFromITunes H url 2) <$> queries) st) as Hall.
  destruct (allSettled _ st) as [rs st1]. cbn [fst] in Hall.
  rewrite collect_empty; [done|]. apply Hall.
  apply Forall_fmap, Forall_forall. intros url _ st'.
  by apply fetchFromITunes_unavailable.
Qed.

(** C7. When every catalog request fails or brings no valid entry and the
    cache holds nothing fresh, [getPopularSongs] returns the built-in
    fallback list, and [searchSongs], for a query of at least two code units
    that can be encoded into a URL, returns the fallback songs, in the order
    of the list, whose lowercased title or lowercased artist contains the
    trimmed, lowercased query. *)
Theorem fallback_when_catalog_unavailable (H : Host) (st : State) :
  catalogUnavailable H →
  ((∀ p, popularCache st = Some p → (POPULAR_CACHE_TTL ≤ age H st p)%Z) →
   (getPopularSongs H st).1 = FALLBACK_SONGS)
  ∧ (∀ query,
       let key := toLowerCase H (trim query) in
       2 ≤ length (trim query) →
       is_Some (encodeURIComponent (trim query)) →
       (∀ c, searchCache st !! key = Some c → (SEARCH_CACHE_TTL ≤ age H st c)%Z) →
       ∃ found,
         (searchSongs H query st).1 = Fulfilled found
         ∧ found = filter (λ s, includes (toLowerCase H (title s)) key
                                || includes (toLowerCase H (artist s)) key = true)
                          FALLBACK_SONGS
         ∧ ∀ s, s ∈ found ↔
                s ∈ FALLBACK_SONGS
                ∧ (contains (toLowerCase H (title s)) key
                   ∨ contains (toLowerCase H (artist s)) key)).
Proof.
  intros Hun. split.
  - intros Hstale. rewrite getPopularSongs_eq.
    destruct (popularCache st) as [p|] eqn:Hp.
    + rewrite (bool_decide_eq_false_2 (fresh H st p POPULAR_CACHE_TTL))
        by (unfold fresh; specialize (Hstale p eq_refl); lia).
      simpl. by apply getPopularSongs_fetch_unavailable.
    + by apply getPopularSongs_fetch_unavailable.
  - intros query key Hlen [enc Henc] Hstale.
    exists (fallbackSearch H key). split; [|split; [done|apply fallbackSearch_spec]].
    rewrite searchSongs_long by done. unfold searchKey. fold key.
    destruct (searchCache st !! key) as [c|] eqn:Hc.
    + rewrite bool_decide_eq_false_2
        by (unfold fresh; specialize (Hstale c eq_refl); lia).
      rewrite (searchSongs_fetch_empty H _ _ enc); [done|done|].
      by apply fetchFromITunes_unavailable.
    + rewrite (searchSongs_fetch_empty H _ _ enc); [done|done|].
      by apply fetchFromITunes_unavailable.
Qed.

Lemma fallback_when_catalog_unavailable_witness :
  let H := constHost 10 networkError 0 in
  catalogUnavailable H
  ∧ (getPopularSongs H initialState).1 = FALLBACK_SONGS
  ∧ (searchSongs H (js " Ed ") initialState).1 = Fulfilled (take 1 FALLBACK_SONGS).
Proof.
  intros H.
  assert (Hun : catalogUnavailable H) by (intros n url; vm_compute; exact I).
  destruct (fallback_when_catalog_unavailable H initialState Hun) as [Hpop Hsearch].
  split; [exact Hun|]. split.
  - apply Hpop. intros p Hp. discriminate.
  - destruct (Hsearch (js " Ed ")) as (found & Hr & Hf & _).
    + vm_compute. lia.
    + vm_compute. eauto.
    + intros c Hc. vm_compute in Hc. discriminate.
    + rewrite Hr, Hf. vm_compute. reflexivity.
Defined.

(** ** Cache hits *)

(** C6, as the code has it. A query of at least two code units whose key
    is cached with an age below the TTL is answered with the cached list,
    without any request. Hence, when a first call misses the cache and its
    first request brings a body that normalizes to a non-empty list, a
    second call with a query of the same key, made while the entry written
    by the first is younger than the TTL, gets the same list, and the two
    calls make exactly one request together. *)
Theorem searchSongs_cache_hit (H : Host) (st : State) :
  (∀ query c,
     2 ≤ length (trim query) →
     searchCache st !! searchKey H query = Some c →
     (age H st c < SEARCH_CACHE_TTL)%Z →
     searchSongs H query st = (Fulfilled (data c), tick st))
  ∧ (∀ q1 q2 enc d,
       let r1 := searchSongs H q1 st in
       let r2 := searchSongs H q2 r1.2 in
       2 ≤ length (trim q1) →
       2 ≤ length (trim q2) →
       searchKey H q1 = searchKey H q2 →
       (∀ c, searchCache st !! searchKey H q1 = Some c →
             (SEARCH_CACHE_TTL ≤ age H st c)%Z) →
       encodeURIComponent (trim q1) = Some enc →
       attempt H (netCalls (trace st)) (searchUrl enc) = Got d →
       parseITunesResponse d ≠ [] →
       (∀ c, searchCache r1.2 !! searchKey H q1 = Some c →
             (age H r1.2 c < SEARCH_CACHE_TTL)%Z) →
       r1.1 = Fulfilled (parseITunesResponse d)
       ∧ r2.1 = Fulfilled (parseITunesResponse d)
       ∧ netCalls (trace r2.2) = netCalls (trace st) + 1).
Proof.
  assert (Hhit : ∀ st query c,
     2 ≤ length (trim query) →
     searchCache st !! searchKey H query = Some c →
     (age H st c < SEARCH_CACHE_TTL)%Z →
     searchSongs H query st = (Fulfilled (data c), tick st)).
  { intros st' query c Hlen Hc Hage. rewrite searchSongs_long, Hc by done.
    by rewrite bool_decide_eq_true_2. }
  split; [apply Hhit|].
  intros q1 q2 enc d r1 r2 Hlen1 Hlen2 Hkey Hmiss Henc Hgot Hfound Hwindow.
  set (st0 := afterCheck (searchCache st !! searchKey H q1) st).
  assert (Htr0 : trace st0 = trace st)
    by (subst st0; by destruct (searchCache st !! _)).
  assert (Hfetch : fetchFromITunes H (searchUrl enc) 2 st0
                   = (d, withTrace (EvFetch (searchUrl enc) :: trace st) st0)).
  { simpl. unfold_M. rewrite Htr0. unfold attempt in Hgot.
    destruct (tryBody _) as [d'|e].
    - injection Hgot as ->. unfold logEvent, withTrace. by rewrite Htr0.
    - by destruct (isAbortError e). }
  assert (Hrun : r1 = searchSongs_fetch H (trim q1) (searchKey H q1) st0).
  { subst r1 st0. rewrite searchSongs_long by done.
    destruct (searchCache st !! searchKey H q1) as [c|] eqn:Hc; [|done].
    rewrite bool_decide_eq_false_2; [done|].
    unfold fresh. specialize (Hmiss c eq_refl). lia. }
  rewrite (searchSongs_fetch_found H _ _ enc) in Hrun
    by (try done; by rewrite Hfetch).
  cbv zeta in Hrun. rewrite Hfetch in Hrun. cbn [fst snd] in Hrun.
  assert (Hc1 : searchCache r1.2 !! searchKey H q1
                = Some {| data := parseITunesResponse d;
                          timestamp := clock H (clockReads st0) |}).
  { rewrite Hrun. cbn. apply lookup_insert_eq. }
  specialize (Hwindow _ Hc1). rewrite Hkey in Hc1.
  split; [by rewrite Hrun|].
  subst r2. rewrite (Hhit r1.2 q2 _ Hlen2 Hc1 Hwindow).
  split; [done|]. rewrite Hrun. cbn. unfold netCalls. simpl. lia.
Qed.

Lemma searchSongs_cache_hit_witness :
  let H := constHost 10 (okResponse (catalogBody [track 7 "Ab"])) 0 in
  let r1 := searchSongs H (js "ab") initialState in
  let r2 := searchSongs H (js " AB ") r1.2 in
  r1.1 = Fulfilled [toSong (track 7 "Ab")]
  ∧ r2.1 = Fulfilled [toSong (track 7 "Ab")]
  ∧ netCalls (trace r2.2) = 1.
Proof.
  intros H r1 r2.
  apply (proj2 (searchSongs_cache_hit H initialState)
           (js "ab") (js " AB ") (js "ab") (catalogBody [track 7 "Ab"])).
  - vm_compute. lia.
  - vm_compute. lia.
  - vm_compute. reflexivity.
  - intros c Hc. vm_compute in Hc. discriminate.
  - vm_compute. reflexivity.
  - vm_compute. reflexivity.
  - vm_compute. discriminate.
  - intros c Hc. vm_compute in Hc. injection Hc as <-. vm_compute. reflexivity.
Defined.

(** C6, as stated, fails: with a catalog that answers every request with an
    empty [results] array and a clock that stands still, two consecutive
    calls of [searchSongs] with the same query make two requests, one
    each, since the first call caches nothing. *)
Lemma searchSongs_twice_two_requests :
  let H := constHost 10 (okResponse (catalogBody [])) 0 in
  let st1 := (searchSongs H (js "ab") initialState).2 in
  let st2 := (searchSongs H (js "ab") st1).2 in
  searchCache st1 = ∅
  ∧ netCalls (trace st1) = 1
  ∧ netCalls (trace st2) = 2
  ∧ netCalls (trace st2) - netCalls (trace initialState) ≠ 1.
Proof. vm_compute. repeat split; try reflexivity. discriminate. Qed.

(** ** Deduplication of the popular songs *)

Section JsMapFacts.
Context {K V : Type} `{EqDecision K}.
Implicit Types (m es : list (K * V)) (k : K) (v : V).

Lemma elem_of_firstSeen (l : list K) x : x ∈ firstSeen l ↔ x ∈ l.
Proof.
  induction l as [|a l IH]; simpl; [done|].
  rewrite !elem_of_cons, list_elem_of_filter, IH.
  destruct (decide (x = a)); tauto.
Qed.

Lemma NoDup_firstSeen (l : list K) : NoDup (firstSeen l).
Proof.
  induction l as [|a l IH]; simpl; constructor.
  - rewrite list_elem_of_filter. tauto.
  - by apply NoDup_filter.
Qed.

Lemma firstSeen_snoc (l : list K) x :
  firstSeen (l ++ [x])
  = if decide (x ∈ l) then firstSeen l else firstSeen l ++ [x].
Proof.
  induction l as [|a l IH]; simpl; [done|]. rewrite IH.
  destruct (decide (x ∈ l)) as [Hin|Hnin], (decide (x ∈ a :: l)) as [Hin'|Hnin'];
    rewrite ?elem_of_cons in *; try tauto.
  - rewrite filter_app. destruct Hin' as [->|]; [|done].
    rewrite filter_cons_False, filter_nil, app_nil_r by tauto. done.
  - rewrite filter_app, filter_cons_True, filter_nil by tauto. done.
Qed.

Lemma Map_set_keys k v m :
  (Map_set k v m).*1 = if decide (k ∈ m.*1) then m.*1 else m.*1 ++ [k].
Proof.
  induction m as [|[k' v'] m IH]; csimpl; [done|].
  destruct (decide (k = k')) as [->|Hne]; csimpl.
  - rewrite decide_True; [done|]. apply elem_of_cons. by left.
  - rewrite IH.
    destruct (decide (k ∈ m.*1)), (decide (k ∈ k' :: m.*1)) as [Hin'|Hnin'];
      rewrite ?elem_of_cons in *; tauto.
Qed.

Lemma elem_of_Map_set k v m k0 v0 :
  NoDup m.*1 →
  (k0, v0) ∈ Map_set k v m ↔ (k0 = k ∧ v0 = v) ∨ (k0 ≠ k ∧ (k0, v0) ∈ m).
Proof.
  induction m as [|[k' v'] m IH]; simpl; intros Hnd.
  - rewrite list_elem_of_singleton. split.
    + intros [= -> ->]. tauto.
    + intros [[-> ->]|[_ Hin]]; [done|]. by apply elem_of_nil in Hin.
  - apply NoDup_cons in Hnd as [Hk' Hnd]. specialize (IH Hnd).
    destruct (decide (k = k')) as [->|Hne]; rewrite !elem_of_cons.
    + split.
      * intros [[= -> ->]|Hin]; [tauto|]. right.
        assert (k0 ≠ k'); [|tauto]. intros ->. apply Hk'.
        apply list_elem_of_fmap. by exists (k', v0).
      * intros [[-> ->]|[Hne [[= -> ->]|Hin]]]; tauto.
    + rewrite IH. split.
      * intros [[= -> ->]|[[-> ->]|[Hn Hin]]]; try tauto.
        right. split; [congruence|by left].
      * intros [[-> ->]|[Hn [[= -> ->]|Hin]]]; tauto.
Qed.

Lemma Map_new_snoc es e : Map_new (es ++ [e]) = Map_set e.1 e.2 (Map_new es).
Proof. unfold Map_new. by rewrite foldl_snoc. Qed.

Lemma Map_new_keys es : (Map_new es).*1 = firstSeen es.*1.
Proof.
  induction es as [|e es IH] using rev_ind; [done|].
  rewrite Map_new_snoc, Map_set_keys, fmap_app.
  change (fst <$> [e]) with [e.1]. rewrite firstSeen_snoc, IH.
  destruct (decide (e.1 ∈ firstSeen es.*1)), (decide (e.1 ∈ es.*1));
    rewrite ?elem_of_firstSeen in *; tauto.
Qed.

Lemma elem_of_Map_new es k v :
  (k, v) ∈ Map_new es ↔ last (filter (λ e, e.1 = k) es) = Some (k, v).
Proof.
  induction es as [|e es IH] using rev_ind.
  - simpl. split; [by intros ?%elem_of_nil|done].
  - rewrite Map_new_snoc, elem_of_Map_set, IH, filter_app
      by (rewrite Map_new_keys; apply NoDup_firstSeen).
    destruct e as [k' v']. simpl. destruct (decide (k' = k)) as [->|Hne].
    + rewrite filter_cons_True, filter_nil, last_snoc by done.
      split; [intros [[_ ->]|[? _]]; done|]. intros [= ->]. tauto.
    + rewrite filter_cons_False, filter_nil, app_nil_r by done.
      split; [intros [[-> _]|[_ ?]]; done|]. intros ?. right. split; [congruence|done].
Qed.

End JsMapFacts.

Lemma filter_fmap_comm {A B} (f : A → B) (P : B → Prop) `{∀ x, Decision (P x)}
    (l : list A) :
  filter P (f <$> l) = f <$> filter (λ x, P (f x)) l.
Proof.
  induction l as [|a l IH]; csimpl; [done|].
  rewrite !filter_cons, IH. by destruct (decide (P (f a))).
Qed.

Lemma unique_entry (allSongs : list Song) k s :
  (k, s) ∈ Map_new ((λ s, (id s, s)) <$> allSongs) ↔
  k = id s ∧ last (filter (λ x, id x = id s) allSongs) = Some s.
Proof.
  rewrite elem_of_Map_new, (filter_fmap_comm _ (λ e, e.1 = k)), fmap_last.
  simpl. split.
  - intros Hl. destruct (last _) as [s'|] eqn:Hs'; [|done].
    injection Hl as <- <-. split; [done|]. exact Hs'.
  - intros [-> ->]. done.
Qed.

Lemma unique_ids (allSongs : list Song) :
  id <$> unique allSongs = firstSeen (id <$> allSongs).
Proof.
  unfold unique, Map_values.
  transitivity ((Map_new ((λ s, (id s, s)) <$> allSongs)).*1).
  - apply list_eq. intros i. rewrite !list_lookup_fmap.
    destruct (Map_new _ !! i) as [[k s]|] eqn:Hi; [|done]. simpl.
    apply list_elem_of_lookup_2, unique_entry in Hi as [-> _]. done.
  - rewrite Map_new_keys, <- list_fmap_compose. done.
Qed.

Lemma unique_last (allSongs : list Song) s :
  s ∈ unique allSongs → last (filter (λ x, id x = id s) allSongs) = Some s.
Proof.
  unfold unique, Map_values. intros ([k s'] & -> & Hin)%list_elem_of_fmap.
  by apply unique_entry in Hin as [_ Hl].
Qed.

(** C3, as the code has it. When the popular cache holds nothing fresh,
    [getPopularSongs] returns the fallback list if the deduplicated list is
    empty and the deduplicated list otherwise; this list holds every
    identifier at most once, has at most 15 songs, lists the identifiers in
    the order in which the concatenated results first show them, and holds
    for each identifier the LAST song of the concatenation with it. *)
Theorem getPopularSongs_dedup (H : Host) (st : State) :
  let st0 := afterCheck (popularCache st) st in
  let allSongs :=
    collect (allSettled ((λ url, fetchFromITunes H url 2) <$> queries) st0).1 in
  (∀ p, popularCache st = Some p → (POPULAR_CACHE_TTL ≤ age H st p)%Z) →
  ∃ finalSongs,
    (getPopularSongs H st).1
    = (if decide (finalSongs = []) then FALLBACK_SONGS else finalSongs)
    ∧ NoDup (id <$> finalSongs)
    ∧ length finalSongs ≤ 15
    ∧ id <$> finalSongs = take 15 (firstSeen (id <$> allSongs))
    ∧ ∀ s, s ∈ finalSongs →
           last (filter (λ x, id x = id s) allSongs) = Some s.
Proof.
  intros st0 allSongs Hstale. exists (take 15 (unique allSongs)).
  split; [|split; [|split; [|split]]].
  - assert (Hrun : getPopularSongs H st = getPopularSongs_fetch H st0).
    { rewrite getPopularSongs_eq. subst st0.
      destruct (popularCache st) as [p|] eqn:Hp; [|done].
      rewrite (bool_decide_eq_false_2 (fresh H st p POPULAR_CACHE_TTL)); [done|].
      unfold fresh. specialize (Hstale p eq_refl). lia. }
    rewrite Hrun. unfold getPopularSongs_fetch. unfold mbind at 1. unfold M_bind at 1.
    subst allSongs. destruct (allSettled _ st0) as [rs st1]. cbn [fst].
    destruct (take 15 (unique (collect rs))) as [|s l]; [done|].
    rewrite bool_decide_eq_true_2 by (simpl; lia). done.
  - rewrite fmap_take, unique_ids.
    eapply sublist_NoDup; [apply NoDup_firstSeen|apply sublist_take].
  - rewrite length_take. lia.
  - by rewrite fmap_take, unique_ids.
  - intros s Hs. apply unique_last.
    apply elem_of_take in Hs as (i & Hi & _). by eapply list_elem_of_lookup_2.
Qed.

Lemma getPopularSongs_dedup_witness :
  let H := scriptedHost [okResponse (catalogBody [track 1 "A"; track 2 "B"]);
                         okResponse (catalogBody [track 2 "B again"; track 3 "C"])] in
  ∃ finalSongs,
    (getPopularSongs H initialState).1 = finalSongs
    ∧ id <$> finalSongs = [1; 2; 3]%Z
    ∧ NoDup (id <$> finalSongs)
    ∧ toSong (track 2 "B again") ∈ finalSongs.
Proof.
  intros H.
  destruct (getPopularSongs_dedup H initialState) as (l & Hr & Hnd & _ & Hids & _).
  - intros p Hp. discriminate.
  - exists l. assert (Hl : id <$> l = [1; 2; 3]%Z) by (rewrite Hids; vm_compute; reflexivity).
    split; [|split; [exact Hl|split; [exact Hnd|]]].
    + rewrite Hr. destruct (decide (l = [])) as [->|]; [discriminate|done].
    + destruct (decide (l = [])) as [->|]; [discriminate|].
      rewrite <- Hr. vm_compute. apply elem_of_cons. right. apply elem_of_cons. by left.
Defined.

(** C3, as stated, fails: when two queries bring the same identifier, the
    song kept is the one of the later query, not the first occurrence. *)
Lemma getPopularSongs_keeps_last_duplicate :
  let H := scriptedHost [okResponse (catalogBody [track 7 "First"]);
                         okResponse (catalogBody [track 7 "Second"]);
                         okResponse (catalogBody [])] in
  let allSongs := [toSong (track 7 "First"); toSong (track 7 "Second")] in
  collect (allSettled ((λ url, fetchFromITunes H url 2) <$> queries) initialState).1
  = allSongs
  ∧ (getPopularSongs H initialState).1 = [toSong (track 7 "Second")]
  ∧ head (filter (λ x, id x = 7%Z) allSongs) = Some (toSong (track 7 "First"))
  ∧ toSong (track 7 "First") ≠ toSong (track 7 "Second").
Proof. vm_compute. repeat split; try reflexivity. discriminate. Qed.

(** ** Preview URLs *)

(** Every song that [parseITunesResponse] returns has a preview URL that is
    not empty: entries without one are filtered out. *)
Lemma parseITunesResponse_preview (data : option Json) (s : Song) :
  s ∈ parseITunesResponse data → preview s ≠ [].
Proof.
  unfold parseITunesResponse. destruct (data ≫= results) as [[|t ts]|].
  1, 3: by intros ?%elem_of_nil.
  intros (t' & -> & Hin)%list_elem_of_fmap.
  apply list_elem_of_filter in Hin as [Hkeep _].
  unfold keepTrack in Hkeep. apply andb_true_iff in Hkeep as [Hkeep _].
  apply andb_true_iff in Hkeep as [Hp _]. simpl.
  by destruct (previewUrl t') as [[|c r]|].
Qed.

Lemma parseITunesResponse_preview_witness :
  toSong (track 7 "Ab") ∈ parseITunesResponse (catalogBody [track 7 "Ab"])
  ∧ preview (toSong (track 7 "Ab")) ≠ [].
Proof.
  assert (Hin : toSong (track 7 "Ab") ∈ parseITunesResponse (catalogBody [track 7 "Ab"])).
  { apply (bool_decide_unpack _). vm_compute. exact I. }
  split; [exact Hin|].
  exact (parseITunesResponse_preview (catalogBody [track 7 "Ab"]) _ Hin).
Defined.

(** C2 fails on the fallback list. With the network down and nothing
    cached, [getPopularSongs] returns the built-in fallback list, whose
    second and third songs have the empty string as their preview URL; the
    fallback search of [searchSongs] returns such a song as well. *)
Theorem fallback_songs_empty_preview :
  let H := constHost 10 networkError 0 in
  (getPopularSongs H initialState).1 = FALLBACK_SONGS
  ∧ preview <$> FALLBACK_SONGS !! 1 = Some []
  ∧ preview <$> FALLBACK_SONGS !! 2 = Some []
  ∧ ∃ s, (searchSongs H (js "Levitating") initialState).1 = Fulfilled [s]
         ∧ preview s = [].
Proof.
  vm_compute. split; [reflexivity|]. split; [reflexivity|]. split; [reflexivity|].
  eexists. split; reflexivity.
Qed.

(** ** The playback window *)

Lemma takeWhile_all {A} (p : A → bool) l :
  Forall (λ x, p x = true) l → takeWhile p l = l.
Proof. induction 1 as [|x l Hx _ IH]; simpl; [done|]. by rewrite Hx, IH. Qed.

Lemma startsWith_app p s : startsWith p (p ++ s) = true.
Proof. apply startsWith_spec. by exists s. Qed.

Lemma forallb_Forall {A} (p : A → bool) l :
  Forall (λ x, p x = true) l → forallb p l = true.
Proof. induction 1 as [|x l Hx _ IH]; simpl; [done|]. by rewrite Hx, IH. Qed.

Lemma regexSearch_here {A} (anchored : jsstring → option A) s r :
  anchored s = Some r → regexSearch anchored s = Some r.
Proof. intros Hs. destruct s; simpl; by rewrite Hs. Qed.

Lemma regexSearch_skip {A} (anchored : jsstring → option A) (P : N → Prop) pre s :
  (∀ c r, P c → anchored (c :: r) = None) →
  Forall P pre →
  regexSearch anchored (pre ++ s) = regexSearch anchored s.
Proof.
  intros Hnone. induction 1 as [|c pre Hc _ IH]; [done|].
  change ((c :: pre) ++ s) with (c :: pre ++ s). simpl. by rewrite Hnone.
Qed.

Lemma reVideoId_other c s : c ≠ 121%N → reVideoId (c :: s) = None.
Proof.
  intros Hc. unfold reVideoId, afterPrefix11.
  assert (∀ p, startsWith (121%N :: p) (c :: s) = false) as Hy.
  { intros p. simpl. by rewrite bool_decide_eq_false_2. }
  change (js "youtube.com/watch?v=") with (121%N :: js "outube.com/watch?v=").
  change (js "youtu.be/") with (121%N :: js "outu.be/").
  by rewrite !Hy.
Qed.

Lemma reStart_other c s : c ≠ 63%N → c ≠ 38%N → reStart (c :: s) = None.
Proof.
  intros H1 H2. destruct s as [|t [|e r]]; [reflexivity|reflexivity|]. simpl.
  by rewrite (bool_decide_eq_false_2 (c = 63%N)), (bool_decide_eq_false_2 (c = 38%N)).
Qed.

Lemma isVideoIdChar_not_delimiter c :
  isVideoIdChar c = true → c ≠ 63%N ∧ c ≠ 38%N.
Proof. intros Hc. split; intros ->; vm_compute in Hc; discriminate. Qed.

(** Both link forms of Platform A with a start time: the short form
    [https://youtu.be/ID?t=DIGITS] and the watch form
    [https://www.youtube.com/watch?v=ID&t=DIGITS]. *)
Lemma regexSearch_Some {A} (anchored : jsstring → option A) s r :
  regexSearch anchored s = Some r →
  ∃ pre post, s = pre ++ post ∧ anchored post = Some r.
Proof.
  induction s as [|c s IH]; simpl.
  - destruct (anchored []) eqn:E; [|done]. intros [= <-]. by exists [], [].
  - destruct (anchored (c :: s)) eqn:E.
    + intros [= <-]. by exists [], (c :: s).
    + intros (pre & post & -> & Hr)%IH. by exists (c :: pre), post.
Qed.

Lemma regexSearch_None {A} (anchored : jsstring → option A) s :
  regexSearch anchored s = None ↔ ∀ pre post, s = pre ++ post → anchored post = None.
Proof.
  induction s as [|c s IH]; simpl.
  - split.
    + destruct (anchored []) eqn:E; [done|]. intros _ pre post Hs.
      symmetry in Hs. apply app_eq_nil in Hs as [_ ->]. done.
    + intros Hn. by rewrite (Hn [] []).
  - split.
    + destruct (anchored (c :: s)) eqn:E; [done|]. intros Hs pre post Hpp.
      destruct pre as [|c' pre]; simpl in Hpp; [by subst|].
      injection Hpp as -> ->. by eapply IH.
    + intros Hn. rewrite (Hn [] (c :: s)) by done. apply IH.
      intros pre post ->. by apply (Hn (c :: pre)).
Qed.

Lemma takeWhile_dropWhile {A} (p : A → bool) l :
  takeWhile p l ++ dropWhile p l = l.
Proof. induction l as [|x l IH]; simpl; [done|]. destruct (p x); simpl; by rewrite ?IH. Qed.

Lemma Forall_takeWhile {A} (p : A → bool) l :
  Forall (λ x, p x = true) (takeWhile p l).
Proof.
  induction l as [|x l IH]; simpl; [done|]. destruct (p x) eqn:E; [|done].
  by constructor.
Qed.

Lemma head_dropWhile {A} (p : A → bool) l x :
  head (dropWhile p l) = Some x → p x = false.
Proof.
  induction l as [|y l IH]; simpl; [done|]. destruct (p y) eqn:E; [done|].
  simpl. by intros [= <-].
Qed.

Lemma decimalValue_nonneg ds :
  Forall (λ c, isDigit c = true) ds → (0 ≤ decimalValue ds)%Z.
Proof.
  unfold decimalValue. intros Hds.
  assert (∀ acc, (0 ≤ acc)%Z →
            (0 ≤ foldl (λ acc d, 10 * acc + (Z.of_N d - 48))%Z acc ds)%Z) as Hgen.
  { induction Hds as [|d ds Hd _ IH]; intros acc Hacc; simpl; [done|].
    apply IH. change (isDigit d) with (bool_decide (48 ≤ d ≤ 57)%N) in Hd.
    apply bool_decide_eq_true in Hd. lia. }
  by apply Hgen.
Qed.

Lemma parseInt_nonneg ds :
  Forall (λ c, isDigit c = true) ds → (0 ≤ parseInt ds)%Z.
Proof. intros Hds. by apply toDouble_nonneg, decimalValue_nonneg. Qed.

Lemma reStart_Some s ds :
  reStart s = Some ds →
  ds ≠ [] ∧ Forall (λ c, isDigit c = true) ds
  ∧ ∃ b, (s = js "?t=" ++ ds ++ b ∨ s = js "&t=" ++ ds ++ b)
         ∧ ∀ c, head b = Some c → isDigit c = false.
Proof.
  unfold reStart. destruct s as [|c [|t [|e r]]]; try done.
  destruct (_ && _) eqn:Hc; [|done].
  apply andb_true_iff in Hc as [Hc He]. apply andb_true_iff in Hc as [Hc Ht].
  apply bool_decide_eq_true in He as ->. apply bool_decide_eq_true in Ht as ->.
  destruct (takeWhile isDigit r) as [|d cap] eqn:E; [done|]. intros [= <-].
  split; [done|]. split; [rewrite <- E; apply Forall_takeWhile|].
  exists (dropWhile isDigit r). split; [|apply head_dropWhile].
  rewrite <- E, takeWhile_dropWhile.
  apply orb_true_iff in Hc as [->%bool_decide_eq_true | ->%bool_decide_eq_true];
    [by left|by right].
Qed.

Lemma parseYouTubeUrl_start_time vid ds :
  length vid = 11 →
  Forall (λ c, isVideoIdChar c = true) vid →
  ds ≠ [] →
  Forall (λ c, isDigit c = true) ds →
  let yt := {| videoId := vid; yt_startTime := Some (parseInt ds) |} in
  parseYouTubeUrl (js "https://youtu.be/" ++ vid ++ js "?t=" ++ ds) = Some yt
  ∧ parseYouTubeUrl (js "https://www.youtube.com/watch?v=" ++ vid ++ js "&t=" ++ ds)
    = Some yt.
Proof.
  intros Hlen Hvid Hds Hdig yt.
  assert (Hcap : ∀ prefix rest,
            afterPrefix11 prefix (prefix ++ vid ++ rest) = Some vid).
  { intros prefix rest. unfold afterPrefix11.
    rewrite startsWith_app, drop_app_length, take_app_length', Hlen by done.
    by rewrite forallb_Forall. }
  assert (Hdigits : ∀ c, c = 63%N ∨ c = 38%N →
            reStart (c :: js "t=" ++ ds) = Some ds).
  { intros c Hc.
    change (js "t=" ++ ds) with (116%N :: 61%N :: ds). unfold reStart.
    rewrite takeWhile_all by done.
    destruct Hc as [-> | ->]; by destruct ds. }
  assert (Hvid' : Forall (λ c, c ≠ 63%N ∧ c ≠ 38%N) vid).
  { eapply Forall_impl; [exact Hvid|]. apply isVideoIdChar_not_delimiter. }
  assert (Hskip : ∀ pre c,
            Forall (λ c, c ≠ 63%N ∧ c ≠ 38%N) pre → c = 63%N ∨ c = 38%N →
            regexSearch reStart (pre ++ vid ++ c :: js "t=" ++ ds) = Some ds).
  { intros pre c Hpre Hc.
    rewrite (regexSearch_skip _ (λ c, c ≠ 63%N ∧ c ≠ 38%N))
      by (try done; intros ? ? []; by apply reStart_other).
    rewrite (regexSearch_skip _ (λ c, c ≠ 63%N ∧ c ≠ 38%N))
      by (try done; intros ? ? []; by apply reStart_other).
    by apply regexSearch_here, Hdigits. }
  unfold parseYouTubeUrl. split.
  - assert (regexSearch reVideoId (js "https://youtu.be/" ++ vid ++ js "?t=" ++ ds)
            = Some vid) as ->.
    { change (js "https://youtu.be/") with (js "https://" ++ js "youtu.be/").
      rewrite <- app_assoc.
      rewrite (regexSearch_skip _ (λ c, c ≠ 121%N))
        by (try apply reVideoId_other; apply (bool_decide_unpack _); vm_compute; exact I).
      apply regexSearch_here. unfold reVideoId.
      assert (afterPrefix11 (js "youtube.com/watch?v=")
                (js "youtu.be/" ++ vid ++ js "?t=" ++ ds) = None) as -> by reflexivity.
      apply Hcap. }
    change (js "?t=" ++ ds) with (63%N :: js "t=" ++ ds).
    rewrite Hskip; [done| |by left].
    apply (bool_decide_unpack _). vm_compute. exact I.
  - assert (regexSearch reVideoId
              (js "https://www.youtube.com/watch?v=" ++ vid ++ js "&t=" ++ ds)
            = Some vid) as ->.
    { change (js "https://www.youtube.com/watch?v=")
        with (js "https://www." ++ js "youtube.com/watch?v=").
      rewrite <- app_assoc.
      rewrite (regexSearch_skip _ (λ c, c ≠ 121%N))
        by (try apply reVideoId_other; apply (bool_decide_unpack _); vm_compute; exact I).
      apply regexSearch_here. unfold reVideoId. by rewrite Hcap. }
    change (js "https://www.youtube.com/watch?v=" ++ vid ++ js "&t=" ++ ds)
      with (js "https://www.youtube.com/watch"
            ++ 63%N :: 118%N :: 61%N :: vid ++ 38%N :: js "t=" ++ ds).
    rewrite (regexSearch_skip _ (λ c, c ≠ 63%N ∧ c ≠ 38%N))
      by (try (intros ? ? []; by apply reStart_other);
          apply (bool_decide_unpack _); vm_compute; exact I).
    change (regexSearch reStart (63%N :: 118%N :: 61%N :: vid ++ 38%N :: js "t=" ++ ds))
      with (regexSearch reStart ([118%N; 61%N] ++ vid ++ 38%N :: js "t=" ++ ds)).
    rewrite Hskip; [done| |by right].
    apply (bool_decide_unpack _). vm_compute. exact I.
Qed.

Lemma embedInfo_window wantTitle build r sd :
  (∀ t thumb, startTime (build t thumb) = 0%Z ∧ endTime (build t thumb) = 30%Z) →
  embedInfo wantTitle build r = Some sd →
  startTime sd = 0%Z ∧ endTime sd = 30%Z.
Proof.
  intros Hb. unfold embedInfo. destruct r as [res|e]; [|done].
  destruct (negb (ok res)); [done|].
  destruct (json res) as [[d|]|]; try done.
  destruct (json_title d), wantTitle; try done; intros [= <-]; apply Hb.
Qed.

Lemma yt_startTime_number url yt t :
  parseYouTubeUrl url = Some yt → yt_startTime yt = Some t →
  (0 ≤ t)%Z ∧ toDouble t = t.
Proof.
  unfold parseYouTubeUrl. destruct (regexSearch reVideoId url); [|done].
  intros [= <-]. cbn [yt_startTime].
  destruct (regexSearch reStart url) as [ds|] eqn:E; [|done]. intros [= <-].
  apply regexSearch_Some in E as (pre & post & _ & Hm).
  apply reStart_Some in Hm as (_ & Hds & _).
  pose proof (decimalValue_nonneg ds Hds).
  split; [by apply parseInt_nonneg|]. by apply toDouble_idemp.
Qed.

(** C4, as the code has it. The link [https://youtu.be/dQw4w9WgXcQ?t=43]
    parses to the video id [dQw4w9WgXcQ] and the start time 43, and so
    does every link of the short or the watch form to its video id and the
    number nearest to what its [t] parameter spells, which is what it
    spells below [2 ^ 53]. For a link recognized as Platform A whose embed
    request succeeds, [processMusicLink] resolves to a [SongData] whose
    window starts at the start time of the link (0 when the link has none)
    and ends at the number nearest to the start plus 30, which is the
    start plus 30 while the start is below [2 ^ 53 - 30]. Every [SongData]
    that [processMusicLink] resolves to, for either platform, ends no
    earlier than it starts, and ends after it starts when it starts below
    [2 ^ 53 - 30]. *)
Theorem processMusicLink_window (H : Host) (st : State) :
  parseYouTubeUrl (js "https://youtu.be/dQw4w9WgXcQ?t=43")
  = Some {| videoId := js "dQw4w9WgXcQ"; yt_startTime := Some 43%Z |}
  ∧ (∀ vid ds,
       length vid = 11 →
       Forall (λ c, isVideoIdChar c = true) vid →
       ds ≠ [] →
       Forall (λ c, isDigit c = true) ds →
       let yt := {| videoId := vid; yt_startTime := Some (parseInt ds) |} in
       parseYouTubeUrl (js "https://youtu.be/" ++ vid ++ js "?t=" ++ ds) = Some yt
       ∧ parseYouTubeUrl
           (js "https://www.youtube.com/watch?v=" ++ vid ++ js "&t=" ++ ds)
         = Some yt
       ∧ ((decimalValue ds < 2 ^ 53)%Z → parseInt ds = decimalValue ds))
  ∧ (∀ url yt res d t,
       parseYouTubeUrl url = Some yt →
       settle H None (netCalls (trace st)) (youTubeEmbedUrl (videoId yt))
       = Fulfilled res →
       ok res = true →
       json res = Fulfilled (Some d) →
       json_title d = StringTitle t →
       ∃ sd, (processMusicLink H url st).1 = Some sd
             ∧ sd_type sd = youtube
             ∧ sd_id sd = videoId yt
             ∧ startTime sd = default 0%Z (yt_startTime yt)
             ∧ endTime sd = toDouble (default 0 (yt_startTime yt) + 30)%Z
             ∧ ((default 0 (yt_startTime yt) < 2 ^ 53 - 30)%Z →
                endTime sd = (startTime sd + 30)%Z))
  ∧ (∀ url sd,
       (processMusicLink H url st).1 = Some sd →
       (startTime sd ≤ endTime sd)%Z
       ∧ ((startTime sd < 2 ^ 53 - 30)%Z → (startTime sd < endTime sd)%Z)).
Proof.
  split; [by vm_compute|]. split; [|split].
  - intros vid ds Hlen Hvid Hne Hds yt.
    destruct (parseYouTubeUrl_start_time vid ds Hlen Hvid Hne Hds) as [H1 H2].
    split; [done|]. split; [done|]. intros Hlt. apply toDouble_exact.
    pose proof (decimalValue_nonneg ds Hds). lia.
  - intros url yt res d t Hyt Hres Hok Hjson Ht.
    assert (Hsd : ∃ sd, (processMusicLink H url st).1 = Some sd
              ∧ sd_type sd = youtube
              ∧ sd_id sd = videoId yt
              ∧ startTime sd = default 0%Z (yt_startTime yt)
              ∧ endTime sd = toDouble (default 0 (yt_startTime yt) + 30)%Z).
    { unfold processMusicLink. rewrite Hyt. unfold fetchYouTubeInfo. unfold_M.
      rewrite Hres. cbn [embedInfo fst]. rewrite Hok, Hjson, Ht. cbn [negb].
      destruct (yt_startTime yt) as [n|]; [|by eexists].
      unfold truthyNum. destruct (decide (n = 0%Z)) as [->|Hn].
      + rewrite bool_decide_eq_true_2 by done. by eexists.
      + rewrite bool_decide_eq_false_2 by done. by eexists. }
    destruct Hsd as (sd & Hr & Hty & Hid & Hs & He). exists sd.
    repeat (split; [done|]). intros Hlt. rewrite He, Hs. apply toDouble_exact.
    destruct (yt_startTime yt) as [n|] eqn:Hn; [|done].
    destruct (yt_startTime_number url yt n Hyt Hn) as [Hn0 _].
    change (default 0%Z (Some n)) with n in *. lia.
  - intros url sd. unfold processMusicLink.
    destruct (parseYouTubeUrl url) as [yt|] eqn:Hyt.
    + unfold fetchYouTubeInfo. unfold_M. cbn [fst].
      destruct (embedInfo _ _ _) as [i|] eqn:Hi; [|by destruct (yt_startTime yt)].
      apply embedInfo_window in Hi as [Hs He]; [|done].
      destruct (yt_startTime yt) as [n|] eqn:Hn.
      * destruct (yt_startTime_number url yt n Hyt Hn) as [Hn0 Hnn].
        destruct (truthyNum (Some n)); intros [= <-];
          cbn [setWindow startTime endTime]; [|lia].
        split.
        -- rewrite <- Hnn at 1. apply toDouble_mono. lia.
        -- intros Hlt. rewrite toDouble_exact; lia.
      * intros [= <-]. lia.
    + destruct (parseSpotifyUrl url) as [tid|]; [|done].
      unfold fetchSpotifyInfo. unfold_M. cbn [fst]. intros Hi.
      apply embedInfo_window in Hi as [Hs He]; [lia|done].
Qed.

Lemma processMusicLink_window_witness :
  let H := constHost 10 (okResponse (embedBody (js "Rick Astley - Never Gonna Give You Up"))) 0 in
  ∃ sd, (processMusicLink H (js "https://youtu.be/dQw4w9WgXcQ?t=43") initialState).1
        = Some sd
        ∧ sd_type sd = youtube
        ∧ sd_id sd = js "dQw4w9WgXcQ"
        ∧ startTime sd = 43%Z
        ∧ endTime sd = 73%Z.
Proof.
  intros H.
  destruct (proj1 (proj2 (proj2 (processMusicLink_window H initialState)))
              (js "https://youtu.be/dQw4w9WgXcQ?t=43")
              {| videoId := js "dQw4w9WgXcQ"; yt_startTime := Some 43%Z |}
              {| ok := true; status := 200;
                 json := Fulfilled (embedBody (js "Rick Astley - Never Gonna Give You Up")) |}
              {| results := None;
                 json_title := StringTitle (js "Rick Astley - Never Gonna Give You Up");
                 thumbnail_url := None |}
              (js "Rick Astley - Never Gonna Give You Up"))
    as (sd & Hsd & Hty & Hid & Hs & He & _).
  - vm_compute. reflexivity.
  - vm_compute. reflexivity.
  - reflexivity.
  - reflexivity.
  - reflexivity.
  - exists sd. split; [exact Hsd|]. split; [exact Hty|]. split; [exact Hid|].
    split; [exact Hs|]. rewrite He. vm_compute. reflexivity.
Defined.

(** C4, as stated, fails where it says that the end-time
    is always greater than the start-time: for a start time of [2 ^ 58]
    seconds, 288230376151711744, the number nearest to the start plus 30
    is the start itself, and the window that [processMusicLink] resolves
    to ends when it starts. *)
Lemma processMusicLink_window_collapses :
  let H := constHost 10 (okResponse (embedBody (js "Rick Astley - Never Gonna Give You Up"))) 0 in
  ∃ sd, (processMusicLink H (js "https://youtu.be/dQw4w9WgXcQ?t=288230376151711744")
           initialState).1 = Some sd
        ∧ startTime sd = (2 ^ 58)%Z
        ∧ endTime sd = startTime sd.
Proof.
  intros H. eexists. split; [vm_compute; reflexivity|]. by vm_compute.
Qed.

(** ** Title and artist of a resolved link *)

Lemma split_no_sep sep s : sep ∉ s → split sep s = [s].
Proof.
  induction s as [|c s IH]; simpl; [done|]. rewrite not_elem_of_cons.
  intros [Hne Hs]. rewrite bool_decide_eq_false_2 by done. by rewrite IH.
Qed.

Lemma split_sep sep a b :
  sep ∉ a → split sep (a ++ sep :: b) = a :: split sep b.
Proof.
  induction a as [|c a IH]; simpl.
  - intros _. by rewrite bool_decide_eq_true_2.
  - rewrite not_elem_of_cons. intros [Hne Ha].
    rewrite bool_decide_eq_false_2 by done. by rewrite IH.
Qed.

Lemma split_head sep b :
  ∃ rest, split sep b = takeWhile (λ c, negb (bool_decide (c = sep))) b :: rest.
Proof.
  induction b as [|c b [rest IH]]; simpl; [by eexists|].
  destruct (bool_decide (c = sep)); simpl; [by eexists|].
  rewrite IH. by eexists.
Qed.

Lemma orStr_Some (s dflt : jsstring) :
  orStr (Some s) dflt = if decide (s = []) then dflt else s.
Proof. by destruct s. Qed.

(** The separator of Platform B is not white space. *)
Lemma middle_dot_not_space : isWhiteSpace MIDDLE_DOT = false.
Proof. by vm_compute. Qed.

Lemma reSeparator_space c r :
  isWhiteSpace c = true → reSeparator (c :: r) = reSeparator r.
Proof.
  intros Hc. simpl. rewrite Hc. destruct (reSeparator r); [done|].
  rewrite bool_decide_eq_false_2; [done|]. intros ->.
  by rewrite middle_dot_not_space in Hc.
Qed.

Lemma reSeparator_other c r :
  isWhiteSpace c = false → c ≠ MIDDLE_DOT → reSeparator (c :: r) = None.
Proof. intros Hc Hne. simpl. rewrite Hc. by rewrite bool_decide_eq_false_2. Qed.

Lemma reSeparator_dot r : reSeparator (MIDDLE_DOT :: r) = reSpaceRest r.
Proof. reflexivity. Qed.

Lemma reSeparator_no_dot s : MIDDLE_DOT ∉ s → reSeparator s = None.
Proof.
  induction s as [|c s IH]; [done|]. rewrite not_elem_of_cons. intros [Hne Hs].
  destruct (isWhiteSpace c) eqn:Hc.
  - rewrite reSeparator_space by done. by apply IH.
  - by apply reSeparator_other.
Qed.

Lemma reLazy_no_dot g s : MIDDLE_DOT ∉ s → reLazy g s = None.
Proof.
  revert g. induction s as [|c s IH]; intros g Hs; simpl; [done|].
  rewrite not_elem_of_cons in Hs. destruct Hs as [Hne Hs].
  assert (reSeparator (c :: s) = None) as Hsep
    by (apply reSeparator_no_dot; rewrite not_elem_of_cons; done).
  simpl in Hsep. rewrite Hsep. destruct (isLineTerminator c); [done|]. by apply IH.
Qed.

Lemma regexSearch_no_dot s : MIDDLE_DOT ∉ s → regexSearch reTitleArtist s = None.
Proof.
  induction s as [|c s IH]; [done|]. rewrite not_elem_of_cons. intros [Hne Hs].
  simpl. destruct (isLineTerminator c); [by apply IH|].
  rewrite reLazy_no_dot by done. by apply IH.
Qed.

Lemma reSpaceRest_spaces ws b :
  Forall (λ c, isWhiteSpace c = true) ws →
  (∃ c, head b = Some c ∧ isWhiteSpace c = false) →
  Forall (λ c, isLineTerminator c = false) b →
  reSpaceRest (ws ++ b) = Some b.
Proof.
  intros Hws (c & Hb & Hc) Hline. induction Hws as [|w ws Hw _ IH]; simpl.
  - destruct b as [|c' b]; [done|]. injection Hb as ->. simpl. rewrite Hc.
    apply Forall_cons in Hline as [Hl Hline]. unfold reRest. simpl. rewrite Hl. simpl.
    rewrite takeWhile_all; [done|].
    eapply Forall_impl; [exact Hline|]. simpl. by intros x ->.
  - by rewrite Hw, IH.
Qed.

Lemma reSeparator_spaces ws r :
  Forall (λ c, isWhiteSpace c = true) ws →
  reSeparator (ws ++ MIDDLE_DOT :: r) = reSpaceRest r.
Proof.
  induction 1 as [|w ws Hw _ IH]; [apply reSeparator_dot|].
  change ((w :: ws) ++ MIDDLE_DOT :: r) with (w :: ws ++ MIDDLE_DOT :: r).
  by rewrite reSeparator_space.
Qed.

Lemma reSeparator_inside a tail :
  a ≠ [] → MIDDLE_DOT ∉ a →
  (∀ c, last a = Some c → isWhiteSpace c = false) →
  reSeparator (a ++ tail) = None.
Proof.
  induction a as [|c a IH]; [done|]. intros _ Hdot Hend.
  rewrite not_elem_of_cons in Hdot. destruct Hdot as [Hne Hdot].
  change ((c :: a) ++ tail) with (c :: a ++ tail).
  destruct (isWhiteSpace c) eqn:Hc.
  - rewrite reSeparator_space by done. destruct a as [|c' a].
    + specialize (Hend c eq_refl). congruence.
    + apply IH; [done|done|]. intros x Hx. apply Hend. exact Hx.
  - by apply reSeparator_other.
Qed.

Lemma reLazy_track g a tail b :
  Forall (λ c, isLineTerminator c = false) a →
  MIDDLE_DOT ∉ a →
  (∀ c, last a = Some c → isWhiteSpace c = false) →
  reSeparator tail = Some b →
  reLazy g (a ++ tail) = Some (g ++ a, b).
Proof.
  revert g. induction a as [|c a IH]; intros g Hline Hdot Hend Htail.
  - rewrite app_nil_r. destruct tail; simpl in *; [done|by rewrite Htail].
  - change ((c :: a) ++ tail) with (c :: a ++ tail).
    assert (reSeparator (c :: a ++ tail) = None) as Hin
      by (by apply (reSeparator_inside (c :: a))).
    apply Forall_cons in Hline as [Hc Hline].
    rewrite not_elem_of_cons in Hdot. destruct Hdot as [_ Hdot].
    simpl in *. rewrite Hin, Hc.
    rewrite IH; [by rewrite <- app_assoc|done|done| |done].
    intros x Hx. apply Hend. by destruct a.
Qed.

Lemma regexSearch_track_dot_artist a ws1 ws2 b :
  TrackDotArtist a ws1 ws2 b →
  regexSearch reTitleArtist (a ++ ws1 ++ MIDDLE_DOT :: ws2 ++ b) = Some (a, b).
Proof.
  intros [Hne Hline Hdot Hend Hws1 Hws2 Hb Hbl].
  destruct a as [|c a]; [done|].
  apply Forall_cons in Hline as [Hc Hline].
  rewrite not_elem_of_cons in Hdot. destruct Hdot as [_ Hdot].
  assert (Hr : reTitleArtist ((c :: a) ++ ws1 ++ MIDDLE_DOT :: ws2 ++ b)
               = Some (c :: a, b)).
  { simpl. rewrite Hc. apply (reLazy_track [c] a); [done|done| |].
    - intros x Hx. apply Hend. by destruct a.
    - rewrite reSeparator_spaces by done. by apply reSpaceRest_spaces. }
  destruct a; simpl in *; by rewrite Hr.
Qed.

(** C1, as the code has it.
    Platform A ([fetchYouTubeInfo]): a title without hyphen is the title of
    the [SongData] as it stands. A title [a ++ "-" ++ b] with no hyphen in
    [a] gives the trimmed [a] as artist, or "Unknown Artist" when that is
    empty, and as title the trimmed piece of [b] up to its first hyphen, or
    the whole title string when that piece is empty.
    Platform B ([fetchSpotifyInfo]): a title without middle dot gives the
    artist "Unknown Artist" and itself as title, or "Unknown" when it is
    empty. A title [a], white space, middle dot, white space, [b] in the
    documented form gives [a] as title and [b] as artist. *)
Theorem title_artist_heuristics (vid tid : jsstring) (thumb : option jsstring) :
  (∀ t, HYPHEN ∉ t → sd_title (youTubeSongData vid t thumb) = t)
  ∧ (∀ a b,
       HYPHEN ∉ a →
       let t := a ++ HYPHEN :: b in
       let second := trim (takeWhile (λ c, negb (bool_decide (c = HYPHEN))) b) in
       sd_artist (youTubeSongData vid t thumb)
       = (if decide (trim a = []) then js "Unknown Artist" else trim a)
       ∧ sd_title (youTubeSongData vid t thumb)
         = (if decide (second = []) then t else second))
  ∧ (∀ t,
       MIDDLE_DOT ∉ t →
       sd_title (spotifySongData tid (Some t) thumb)
       = (if decide (t = []) then js "Unknown" else t)
       ∧ sd_artist (spotifySongData tid (Some t) thumb) = js "Unknown Artist")
  ∧ (∀ a ws1 ws2 b,
       TrackDotArtist a ws1 ws2 b →
       let t := a ++ ws1 ++ MIDDLE_DOT :: ws2 ++ b in
       sd_title (spotifySongData tid (Some t) thumb) = a
       ∧ sd_artist (spotifySongData tid (Some t) thumb) = b).
Proof.
  split; [|split; [|split]].
  - intros t Ht. unfold youTubeSongData. cbn [sd_title].
    by rewrite split_no_sep.
  - intros a b Ha t second. unfold youTubeSongData. cbn [sd_title sd_artist].
    subst t. rewrite split_sep by done.
    destruct (split_head HYPHEN b) as [rest ->]. rewrite !fmap_cons.
    cbn [lookup list_lookup].
    rewrite !orStr_Some. done.
  - intros t Ht. unfold spotifySongData. cbn [sd_title sd_artist mbind option_bind].
    rewrite regexSearch_no_dot by done. by rewrite orStr_Some.
  - intros a ws1 ws2 b Hform t. unfold spotifySongData.
    cbn [sd_title sd_artist mbind option_bind]. subst t.
    by rewrite regexSearch_track_dot_artist.
Qed.

Lemma title_artist_heuristics_witness :
  let yt := youTubeSongData (js "dQw4w9WgXcQ")
              (js "Rick Astley - Never Gonna Give You Up") None in
  let sp := spotifySongData (js "abc123")
              (Some (js "Song Title " ++ MIDDLE_DOT :: js " Artist Name")) None in
  (sd_artist yt = js "Rick Astley" ∧ sd_title yt = js "Never Gonna Give You Up")
  ∧ (sd_title sp = js "Song Title" ∧ sd_artist sp = js "Artist Name").
Proof.
  intros yt sp.
  destruct (title_artist_heuristics (js "dQw4w9WgXcQ") (js "abc123") None)
    as (_ & Hyt & _ & Hsp).
  split.
  - apply (Hyt (js "Rick Astley ") (js " Never Gonna Give You Up")).
    apply (bool_decide_unpack _). vm_compute. exact I.
  - apply (Hsp (js "Song Title") (js " ") (js " ") (js "Artist Name")).
    split.
    + discriminate.
    + apply (bool_decide_unpack _). vm_compute. exact I.
    + apply (bool_decide_unpack _). vm_compute. exact I.
    + intros c [= <-]. vm_compute. reflexivity.
    + apply (bool_decide_unpack _). vm_compute. exact I.
    + apply (bool_decide_unpack _). vm_compute. exact I.
    + eexists. split; vm_compute; reflexivity.
    + apply (bool_decide_unpack _). vm_compute. exact I.
Defined.

(** C1, as stated, fails: for the Platform A title "Artist -" the hyphen is
    there and the piece after it is empty, yet the title of the [SongData]
    is the whole title string. *)
Lemma youTube_title_empty_after_hyphen :
  let t := js "Artist -" in
  let sd := youTubeSongData (js "dQw4w9WgXcQ") t None in
  HYPHEN ∈ t
  ∧ split HYPHEN t = [js "Artist "; []]
  ∧ sd_artist sd = js "Artist"
  ∧ sd_title sd = js "Artist -"
  ∧ sd_title sd ≠ [].
Proof.
  split; [apply (bool_decide_unpack _); vm_compute; exact I|].
  vm_compute. by repeat split.
Qed.

(** For a Platform A title without hyphen the artist is the trimmed title,
    not "Unknown Artist": [parts[0]] is the whole title then, so the
    default of [parts[0] || 'Unknown Artist'] does not apply. *)
Remark youTube_artist_without_hyphen :
  sd_artist (youTubeSongData (js "dQw4w9WgXcQ") (js "Hello") None) = js "Hello"
  ∧ sd_title (youTubeSongData (js "dQw4w9WgXcQ") (js "Hello") None) = js "Hello".
Proof. by vm_compute. Qed.

(** ** Links of neither platform, and a link of Platform B *)

(** A link that matches neither pattern resolves to [null], and nothing is
    requested. *)
Lemma processMusicLink_unrecognized (H : Host) (url : jsstring) (st : State) :
  parseYouTubeUrl url = None →
  parseSpotifyUrl url = None →
  processMusicLink H url st = (None, st).
Proof. intros Hyt Hsp. unfold processMusicLink. by rewrite Hyt, Hsp. Qed.

Lemma processMusicLink_unrecognized_witness :
  let H := constHost 10 networkError 0 in
  processMusicLink H (js "https://example.com/foo") initialState
  = (None, initialState).
Proof.
  intros H.
  apply (processMusicLink_unrecognized H (js "https://example.com/foo") initialState);
    vm_compute; reflexivity.
Defined.

(** The link [https://open.spotify.com/track/abc123] parses to the track id
    [abc123]; with the embed title "Song Title · Artist Name" it resolves
    to that title and artist and the window from 0 to 30. *)
Lemma processMusicLink_spotify_example :
  let t := js "Song Title " ++ MIDDLE_DOT :: js " Artist Name" in
  let H := constHost 10 (okResponse (embedBody t)) 0 in
  let r := processMusicLink H (js "https://open.spotify.com/track/abc123") initialState in
  parseSpotifyUrl (js "https://open.spotify.com/track/abc123") = Some (js "abc123")
  ∧ r.1 = Some {| sd_type := spotify; sd_id := js "abc123";
                  sd_title := js "Song Title"; sd_artist := js "Artist Name";
                  sd_albumCover := None; startTime := 0; endTime := 30 |}
  ∧ trace r.2 = [EvFetch (spotifyEmbedUrl (js "abc123"))].
Proof. by vm_compute. Qed.

(** ** More on the normalizer *)

Lemma orStr_nonempty o dflt : dflt ≠ [] → orStr o dflt ≠ [].
Proof. by destruct o as [[|c r]|]. Qed.

Lemma slice0_nonempty n s : 0 < n → s ≠ [] → slice0 n s ≠ [].
Proof. destruct n, s; simpl; (lia || done). Qed.

Lemma elem_of_parseITunesResponse (data : option Json) (s : Song) :
  s ∈ parseITunesResponse data ↔
  ∃ ts t, data ≫= results = Some ts ∧ t ∈ ts ∧ keepTrack t = true ∧ s = toSong t.
Proof.
  unfold parseITunesResponse. destruct (data ≫= results) as [[|t0 ts]|].
  - split; [by intros ?%elem_of_nil|]. intros (? & ? & [= <-] & ?%elem_of_nil & _). done.
  - rewrite list_elem_of_fmap. split.
    + intros (t & -> & [Hk Hin]%list_elem_of_filter). by exists (t0 :: ts), t.
    + intros (? & t & [= <-] & Hin & Hk & ->). exists t. split; [done|].
      by apply list_elem_of_filter.
  - split; [by intros ?%elem_of_nil|]. by intros (? & ? & ? & _).
Qed.

Lemma toSong_fields (t : Track) :
  keepTrack t = true →
  id (toSong t) ≠ 0%Z
  ∧ title (toSong t) ≠ [] ∧ artist (toSong t) ≠ []
  ∧ length (title (toSong t)) ≤ 100 ∧ length (artist (toSong t)) ≤ 100
  ∧ length (album (toSong t)) ≤ 100.
Proof.
  intros Hkeep.
  unfold keepTrack in Hkeep. apply andb_true_iff in Hkeep as [_ Hid].
  unfold toSong. cbn [id title artist album].
  split.
  { unfold truthyNum in Hid. destruct (trackId t) as [n|]; [|done]. simpl.
    intros ->. by rewrite bool_decide_eq_true_2 in Hid. }
  split; [by apply slice0_nonempty, orStr_nonempty; [lia|]|].
  split; [by apply slice0_nonempty, orStr_nonempty; [lia|]|].
  unfold slice0. rewrite !length_take. lia.
Qed.

(** Every song that [parseITunesResponse] returns has an identifier other
    than 0, a title and an artist that are not empty, and a title, an
    artist and an album of at most 100 code units. *)
Lemma parseITunesResponse_fields (data : option Json) (s : Song) :
  s ∈ parseITunesResponse data →
  id s ≠ 0%Z
  ∧ title s ≠ [] ∧ artist s ≠ []
  ∧ length (title s) ≤ 100 ∧ length (artist s) ≤ 100 ∧ length (album s) ≤ 100.
Proof.
  intros (ts & t & _ & _ & Hkeep & ->)%elem_of_parseITunesResponse.
  by apply toSong_fields.
Qed.

Lemma parseITunesResponse_fields_witness :
  toSong (track 7 "Ab") ∈ parseITunesResponse (catalogBody [track 7 "Ab"])
  ∧ id (toSong (track 7 "Ab")) ≠ 0%Z
  ∧ title (toSong (track 7 "Ab")) ≠ [] ∧ artist (toSong (track 7 "Ab")) ≠ []
  ∧ length (title (toSong (track 7 "Ab"))) ≤ 100
  ∧ length (artist (toSong (track 7 "Ab"))) ≤ 100
  ∧ length (album (toSong (track 7 "Ab"))) ≤ 100.
Proof.
  assert (Hin : toSong (track 7 "Ab") ∈ parseITunesResponse (catalogBody [track 7 "Ab"])).
  { apply (bool_decide_unpack _). vm_compute. exact I. }
  split; [exact Hin|].
  exact (parseITunesResponse_fields (catalogBody [track 7 "Ab"]) _ Hin).
Defined.

Lemma replace_absent pat rep s : includes s pat = false → replace pat rep s = s.
Proof.
  induction s as [|c s IH]; simpl.
  - rewrite orb_false_r. by intros ->.
  - intros [-> Hs]%orb_false_iff. by rewrite IH.
Qed.

Lemma replace_unfold pat rep s :
  replace pat rep s
  = if startsWith pat s then rep ++ drop (length pat) s
    else match s with [] => [] | c :: r => c :: replace pat rep r end.
Proof. by destruct s. Qed.

Lemma replace_first pat rep pre post :
  (∀ i, i < length pre → startsWith pat (drop i (pre ++ pat ++ post)) = false) →
  replace pat rep (pre ++ pat ++ post) = pre ++ rep ++ post.
Proof.
  induction pre as [|c pre IH]; intros Hfirst.
  - rewrite replace_unfold. change ([] ++ pat ++ post) with (pat ++ post).
    rewrite (proj2 (startsWith_spec pat _)) by by exists post.
    by rewrite drop_app_length.
  - pose proof (Hfirst 0 ltac:(simpl; lia)) as H0. rewrite drop_0 in H0.
    rewrite replace_unfold, H0. cbn [app]. rewrite IH; [done|].
    intros i Hi. apply (Hfirst (S i)). simpl. lia.
Qed.

Lemma first_occurrence pat pre post :
  ¬ contains (pre ++ take (length pat - 1) pat) pat →
  ∀ i, i < length pre → startsWith pat (drop i (pre ++ pat ++ post)) = false.
Proof.
  intros Hno i Hi. apply not_true_is_false. intros [b Hb]%startsWith_spec.
  apply Hno. exists (take i pre).
  rewrite drop_app_le in Hb by lia.
  set (n := length pat) in *.
  assert (Hsplit : drop i pre ++ pat ++ post
                   = (drop i pre ++ take (n - 1) pat) ++ drop (n - 1) pat ++ post).
  { by rewrite <- app_assoc, (app_assoc (take _ _)), take_drop. }
  assert (Hpat : pat = take n (drop i pre ++ take (n - 1) pat)).
  { transitivity (take n (pat ++ b)); [subst n; by rewrite take_app_length|].
    rewrite <- Hb, Hsplit. rewrite take_app_le; [done|].
    rewrite length_app, length_drop, length_take. lia. }
  exists (drop n (drop i pre ++ take (n - 1) pat)).
  rewrite <- (take_drop i pre) at 1. rewrite <- app_assoc. f_equal.
  rewrite Hpat at 2. by rewrite take_drop.
Qed.

(** The conversions of [toSong]: the artwork URL is upgraded by replacing
    the first "100x100" with "300x300" and is otherwise passed through (the
    empty string when absent); the duration is 30 when the track time is
    absent or 0, and for a track time below [2 ^ 53] ms it is the track
    time in whole seconds, rounded down: up to there the rounding of the
    quotient does not reach the next whole second. *)
Lemma toSong_conversions (t : Track) :
  (artworkUrl100 t = None → albumCover (toSong t) = [])
  ∧ (∀ url, artworkUrl100 t = Some url →
            includes url (js "100x100") = false →
            albumCover (toSong t) = url)
  ∧ (∀ pre post,
       artworkUrl100 t = Some (pre ++ js "100x100" ++ post) →
       ¬ contains (pre ++ js "100x10") (js "100x100") →
       albumCover (toSong t) = pre ++ js "300x300" ++ post)
  ∧ (∀ ms, trackTimeMillis t = Some ms → (0 < ms < 2 ^ 53)%Z →
           (duration (toSong t) * 1000 ≤ ms < duration (toSong t) * 1000 + 1000)%Z)
  ∧ (trackTimeMillis t = None ∨ trackTimeMillis t = Some 0%Z →
     duration (toSong t) = 30%Z).
Proof.
  unfold toSong. cbn [albumCover duration].
  split; [by intros ->|]. split; [|split; [|split]].
  - intros url -> Hno. cbn [fmap option_fmap option_map].
    rewrite replace_absent by done. by destruct url.
  - intros pre post -> Hfirst. cbn [fmap option_fmap option_map].
    rewrite (replace_first (js "100x100") (js "300x300") pre post)
      by exact (first_occurrence (js "100x100") pre post Hfirst).
    unfold orStr. destruct (pre ++ js "300x300" ++ post) eqn:E; [|done].
    by destruct pre.
  - intros ms -> Hms. unfold orNum. rewrite bool_decide_eq_false_2 by lia.
    rewrite (floorQuot_exact ms 1000 44) by lia.
    pose proof (Z.div_mod ms 1000 ltac:(lia)).
    pose proof (Z.mod_pos_bound ms 1000 ltac:(lia)). lia.
  - intros [-> | ->]; by vm_compute.
Qed.

Lemma toSong_conversions_witness :
  let t := {| trackId := Some 7%Z; trackName := None; artistName := None;
              collectionName := None;
              artworkUrl100 := Some (js "https://is1/image/100x100bb.jpg");
              previewUrl := Some (js "https://p/a.m4a"); kind := Some (js "song");
              trackTimeMillis := Some 215999%Z |} in
  albumCover (toSong t) = js "https://is1/image/300x300bb.jpg"
  ∧ (duration (toSong t) * 1000 ≤ 215999 < duration (toSong t) * 1000 + 1000)%Z.
Proof.
  intros t. destruct (toSong_conversions t) as (_ & _ & Hup & Hdur & _). split.
  - apply (Hup (js "https://is1/image/") (js "bb.jpg")); [reflexivity|].
    intros Hc%includes_spec. vm_compute in Hc. discriminate.
  - apply Hdur; [reflexivity|lia].
Defined.

(** ** More on the retry policy *)

Lemma totalDelay_retryTrace url k tr :
  totalDelay (retryTrace url k ++ tr) = (totalDelay tr + 500 * Z.of_nat k)%Z.
Proof. induction k as [|k IH]; simpl in *; [lia|]. rewrite IH. lia. Qed.

(** For every retry budget, [fetchFromITunes] makes at least one and at
    most [retries + 1] requests, waits 500 ms before each request but the
    first, and so at most [500 * retries] ms in all; it leaves the caches
    and the clock alone; and a result other than [null] is the body of the
    last request, which succeeded. *)
Lemma fetchFromITunes_budget (H : Host) (url : jsstring) (retries : nat) (st : State) :
  let r := fetchFromITunes H url retries st in
  let requests := netCalls (trace r.2) - netCalls (trace st) in
  1 ≤ requests ≤ retries + 1
  ∧ totalDelay (trace r.2) = (totalDelay (trace st) + 500 * Z.of_nat (requests - 1))%Z
  ∧ searchCache r.2 = searchCache st
  ∧ popularCache r.2 = popularCache st
  ∧ clockReads r.2 = clockReads st
  ∧ (∀ d, r.1 = Some d →
          attempt H (netCalls (trace st) + (requests - 1)) url = Got (Some d)).
Proof.
  intros r requests. subst requests r.
  destruct (fetchFromITunes_run H url retries st) as (k & Hk & _ & -> & _).
  cbn [fst snd withTrace trace searchCache popularCache clockReads].
  rewrite netCalls_retryTrace, totalDelay_retryTrace.
  replace (netCalls (trace st) + S k - netCalls (trace st)) with (S k) by lia.
  replace (S k - 1) with k by lia.
  repeat (split; [done || lia|]).
  intros d Hd. by destruct (attempt _ _ _) as [[d'|]| |]; simplify_eq.
Qed.

(** ** More on the caches *)

(** The sweep keeps exactly the entries that are fresh at its reading of
    the clock: no expired entry survives it, no entry is added or changed.
    It reads the clock once and requests nothing. *)
Lemma cleanupCache_exact (H : Host) (st : State) :
  let st' := (cleanupCache H st).2 in
  (∀ k e, searchCache st' !! k = Some e ↔
          searchCache st !! k = Some e ∧ (age H st e < SEARCH_CACHE_TTL)%Z)
  ∧ (∀ p, popularCache st' = Some p ↔
          popularCache st = Some p ∧ (age H st p < POPULAR_CACHE_TTL)%Z)
  ∧ trace st' = trace st
  ∧ clockReads st' = S (clockReads st).
Proof.
  intros st'. subst st'. split; [|split; [|split]].
  - intros k e. rewrite cleanupCache_searchCache. apply map_lookup_filter_Some.
  - intros p. rewrite cleanupCache_popularCache.
    destruct (popularCache st) as [p0|]; [|by split; [|intros []]].
    destruct (decide (fresh H st p0 POPULAR_CACHE_TTL)) as [Hf|Hf].
    + rewrite bool_decide_eq_true_2 by done.
      split; [by intros [= <-]|by intros [? _]].
    + rewrite bool_decide_eq_false_2 by done.
      split; [done|]. by intros [[= <-] ?].
  - unfold cleanupCache. unfold_M. simpl.
    destruct (popularCache st) as [p|]; simpl; [|done]. by destruct (bool_decide _).
  - unfold cleanupCache. unfold_M. simpl.
    destruct (popularCache st) as [p|]; simpl; [|done]. by destruct (bool_decide _).
Qed.

Lemma fetchFromITunes_calls_le (H : Host) url retries st :
  netCalls (trace (fetchFromITunes H url retries st).2)
  ≤ netCalls (trace st) + S retries.
Proof.
  destruct (fetchFromITunes_run H url retries st) as (k & Hk & _ & -> & _).
  cbn [snd withTrace trace]. rewrite netCalls_retryTrace. lia.
Qed.

Lemma allSettled_calls_le {A} (ps : list (M A)) (b : nat) st :
  Forall (λ p, ∀ st, netCalls (trace (p st).2) ≤ netCalls (trace st) + b) ps →
  netCalls (trace (allSettled ps st).2) ≤ netCalls (trace st) + length ps * b.
Proof.
  intros Hps. revert st. induction Hps as [|p ps Hp _ IH]; intros st; simpl.
  - unfold mret, M_ret. simpl. lia.
  - unfold mbind, M_bind, mret, M_ret. specialize (Hp st).
    destruct (p st) as [v st1]. specialize (IH st1).
    destruct (allSettled ps st1) as [vs st2]. simpl in *. lia.
Qed.

(** What a computation leaves alone: the search cache, the popular cache,
    the clock. *)
Lemma fetchFromITunes_state (H : Host) url retries st :
  ∃ tr, (fetchFromITunes H url retries st).2 = withTrace tr st.
Proof.
  destruct (fetchFromITunes_frame H url retries st) as (d & tr & -> & _). by exists tr.
Qed.

Lemma allSettled_state {A} (ps : list (M A)) st :
  Forall (λ p, ∀ st, ∃ tr, (p st).2 = withTrace tr st) ps →
  ∃ tr, (allSettled ps st).2 = withTrace tr st.
Proof.
  intros Hps. revert st. induction Hps as [|p ps Hp _ IH]; intros st; simpl.
  - exists (trace st). by destruct st.
  - unfold mbind, M_bind, mret, M_ret. destruct (Hp st) as [tr1 Hp1].
    destruct (p st) as [v st1]. simpl in Hp1. subst st1.
    destruct (IH (withTrace tr1 st)) as [tr2 IH2].
    destruct (allSettled ps (withTrace tr1 st)) as [vs st2]. simpl in *. subst st2.
    by exists tr2.
Qed.

Lemma afterCheck_frame entry st :
  searchCache (afterCheck entry st) = searchCache st
  ∧ popularCache (afterCheck entry st) = popularCache st
  ∧ trace (afterCheck entry st) = trace st
  ∧ clockReads st ≤ clockReads (afterCheck entry st).
Proof. destruct entry; simpl; repeat split; lia. Qed.

(** The outcome of [getPopularSongs_fetch]: the songs found, otherwise the
    fallback list with the popular cache left as it was. *)
Lemma getPopularSongs_fetch_outcome (H : Host) st :
  let r := getPopularSongs_fetch H st in
  ∃ tr,
    netCalls (trace st) + 3 ≤ netCalls tr ≤ netCalls (trace st) + 9
    ∧ ((r.1 = FALLBACK_SONGS ∧ r.2 = withTrace tr st)
       ∨ (r.1 ≠ []
          ∧ r.2 = setPopularCache
                    (Some {| data := r.1; timestamp := clock H (clockReads st) |})
                    (tick (withTrace tr st)))).
Proof.
  intros r. subst r. rewrite getPopularSongs_fetch_eq.
  pose proof (allSettled_calls ((λ url, fetchFromITunes H url 2) <$> queries) st) as Hlo.
  pose proof (allSettled_calls_le ((λ url, fetchFromITunes H url 2) <$> queries) 3 st) as Hhi.
  pose proof (allSettled_state ((λ url, fetchFromITunes H url 2) <$> queries) st) as Hst.
  rewrite length_fmap in Hlo, Hhi. change (length queries) with 3 in Hlo, Hhi.
  destruct Hst as [tr Htr].
  { apply Forall_fmap, Forall_forall. intros url _ st'. apply fetchFromITunes_state. }
  destruct (allSettled _ st) as [rs st1]. cbn [fst snd] in *. subst st1.
  exists tr. split.
  { split.
    - apply Hlo. apply Forall_fmap, Forall_forall. intros url _ st'.
      apply fetchFromITunes_calls.
    - cbn [trace withTrace] in Hhi. etrans; [apply Hhi|lia].
      apply Forall_fmap, Forall_forall. intros url _ st'.
      apply (fetchFromITunes_calls_le H url 2 st'). }
  destruct (take 15 (unique (collect rs))) as [|s l] eqn:Hfinal.
  - left. done.
  - right. rewrite bool_decide_eq_true_2 by (simpl; lia). done.
Qed.

(** [getPopularSongs]: a fresh popular list that is not empty is returned
    without any request. Otherwise between three and nine requests are made
    (three queries, each tried up to three times), and either the popular
    cache is left as it was, or the list found, which is not empty, is
    returned and stored with the time read after the requests; a later call
    that finds this entry fresh returns the same list without any request.
    The search cache is never changed. *)
Lemma getPopularSongs_cache (H : Host) (st : State) :
  let r := getPopularSongs H st in
  let requests := netCalls (trace r.2) - netCalls (trace st) in
  searchCache r.2 = searchCache st
  ∧ (∀ p, popularCache st = Some p →
          (age H st p < POPULAR_CACHE_TTL)%Z → data p ≠ [] →
          r = (data p, tick st))
  ∧ ((∀ p, popularCache st = Some p →
           (POPULAR_CACHE_TTL ≤ age H st p)%Z ∨ data p = []) →
     3 ≤ requests ≤ 9
     ∧ (popularCache r.2 = popularCache st
        ∨ (r.1 ≠ []
           ∧ (∃ ts, popularCache r.2 = Some {| data := r.1; timestamp := ts |})
           ∧ ∀ e, popularCache r.2 = Some e →
                  (age H r.2 e < POPULAR_CACHE_TTL)%Z →
                  getPopularSongs H r.2 = (r.1, tick r.2)))).
Proof.
  intros r requests.
  assert (Hhit : ∀ st p, popularCache st = Some p →
            (age H st p < POPULAR_CACHE_TTL)%Z → data p ≠ [] →
            getPopularSongs H st = (data p, tick st)).
  { intros st0 p Hp Hage Hdata. rewrite getPopularSongs_eq, Hp.
    rewrite (bool_decide_eq_true_2 (fresh H st0 p POPULAR_CACHE_TTL)) by done.
    rewrite bool_decide_eq_true_2; [done|]. destruct (data p); [done|simpl; lia]. }
  assert (Hmiss : (∀ p, popularCache st = Some p →
             (POPULAR_CACHE_TTL ≤ age H st p)%Z ∨ data p = []) →
           r = getPopularSongs_fetch H (afterCheck (popularCache st) st)).
  { intros Hno. subst r. rewrite getPopularSongs_eq.
    destruct (popularCache st) as [p|] eqn:Hp; [|done].
    destruct (Hno p eq_refl) as [Hage | Hdata].
    - rewrite (bool_decide_eq_false_2 (fresh H st p POPULAR_CACHE_TTL)); [done|].
      unfold fresh. lia.
    - rewrite Hdata, (bool_decide_eq_false_2 (0 < length [])) by (simpl; lia).
      by rewrite andb_false_r. }
  split; [|split].
  - subst r. rewrite getPopularSongs_eq.
    destruct (popularCache st) as [p|] eqn:Hp.
    + destruct (_ && _); [done|].
      destruct (getPopularSongs_fetch_outcome H (tick st)) as (tr & _ & [[_ ->] | [_ ->]]);
        done.
    + destruct (getPopularSongs_fetch_outcome H st) as (tr & _ & [[_ ->] | [_ ->]]);
        done.
  - intros p Hp Hage Hdata. by apply Hhit.
  - intros Hno. specialize (Hmiss Hno). subst requests.
    set (st0 := afterCheck (popularCache st) st) in *.
    destruct (afterCheck_frame (popularCache st) st) as (_ & Hpc0 & Htr0 & _).
    fold st0 in Hpc0, Htr0.
    destruct (getPopularSongs_fetch_outcome H st0) as (tr & Hn & Hcases).
    rewrite <- Hmiss in Hcases. rewrite Htr0 in Hn.
    destruct Hcases as [[Hr1 Hr2] | [Hr1 Hr2]]; rewrite Hr2.
    + cbn [trace withTrace popularCache]. split; [lia|]. by left.
    + cbn [trace withTrace popularCache tick setPopularCache]. split; [lia|]. right.
      split; [done|]. split; [by eexists|].
      intros e [= <-] Hage. rewrite <- Hr2.
      apply (Hhit r.2 {| data := r.1; timestamp := clock H (clockReads st0) |});
        [by rewrite Hr2|by rewrite Hr2|done].
Qed.

(** ** White space around a query *)

Lemma dropWhile_app_all {A} (p : A → bool) ws l :
  Forall (λ x, p x = true) ws → dropWhile p (ws ++ l) = dropWhile p l.
Proof. induction 1 as [|x ws Hx _ IH]; simpl; [done|]. by rewrite Hx. Qed.

Lemma dropWhile_app_stop {A} (p : A → bool) l m :
  dropWhile p l ≠ [] → dropWhile p (l ++ m) = dropWhile p l ++ m.
Proof.
  induction l as [|x l IH]; simpl; [done|]. destruct (p x); [done|]. by intros _.
Qed.

Lemma dropWhile_nil_all {A} (p : A → bool) l :
  dropWhile p l = [] → Forall (λ x, p x = true) l.
Proof.
  induction l as [|x l IH]; simpl; [constructor|].
  destruct (p x) eqn:Hx; [|done]. intros Hl. constructor; auto.
Qed.

Lemma trimEnd_app_space l w :
  Forall (λ c, isWhiteSpace c = true) w → trimEnd (l ++ w) = trimEnd l.
Proof.
  intros Hw. unfold trimEnd. rewrite reverse_app, dropWhile_app_all; [done|].
  by apply Forall_reverse.
Qed.

Lemma trim_padding ws1 q ws2 :
  Forall (λ c, isWhiteSpace c = true) ws1 →
  Forall (λ c, isWhiteSpace c = true) ws2 →
  trim (ws1 ++ q ++ ws2) = trim q.
Proof.
  intros H1 H2. unfold trim, trimStart. rewrite dropWhile_app_all by done.
  destruct (dropWhile isWhiteSpace q) as [|c r] eqn:Hq.
  - apply dropWhile_nil_all in Hq.
    rewrite dropWhile_app_all by done.
    destruct (dropWhile isWhiteSpace ws2) as [|c r] eqn:Hw; [done|].
    assert (Hall : Forall (λ x, isWhiteSpace x = true) ws2) by done.
    clear -Hw Hall. exfalso. induction Hall as [|x l Hx _ IH]; simpl in Hw; [done|].
    rewrite Hx in Hw. auto.
  - rewrite dropWhile_app_stop by (by rewrite Hq). rewrite Hq.
    by apply trimEnd_app_space.
Qed.

(** [searchSongs] does not see white space around the query. *)
Lemma searchSongs_padding (H : Host) (ws1 query ws2 : jsstring) (st : State) :
  Forall (λ c, isWhiteSpace c = true) ws1 →
  Forall (λ c, isWhiteSpace c = true) ws2 →
  searchSongs H (ws1 ++ query ++ ws2) st = searchSongs H query st.
Proof. intros H1 H2. unfold searchSongs. by rewrite trim_padding. Qed.

Lemma searchSongs_padding_witness :
  let H := constHost 10 (okResponse (catalogBody [track 7 "Ab"])) 0 in
  searchSongs H (js "  " ++ js "Ab" ++ js " ") initialState
  = searchSongs H (js "Ab") initialState.
Proof.
  intros H. apply searchSongs_padding; apply (bool_decide_unpack _); vm_compute; exact I.
Defined.

(** ** What [searchSongs] changes, and when it rejects *)

Lemma searchSongs_short_query_eq (H : Host) query st :
  length (trim query) < 2 → searchSongs H query st = (Fulfilled [], st).
Proof.
  intros Hlen. unfold searchSongs.
  destruct (bool_decide (trim query = [])); [done|].
  by rewrite bool_decide_eq_true_2.
Qed.

Lemma searchSongs_fetch_outcome (H : Host) trimmed key st :
  let r := searchSongs_fetch H trimmed key st in
  (encodeURIComponent trimmed = None ∧ r = (Rejected URIError, st))
  ∨ ∃ tr,
      is_Some (encodeURIComponent trimmed)
      ∧ netCalls (trace st) + 1 ≤ netCalls tr ≤ netCalls (trace st) + 3
      ∧ ((r = (Fulfilled (fallbackSearch H key), withTrace tr st))
         ∨ ∃ songs,
             songs ≠ []
             ∧ (∃ d, songs = parseITunesResponse d)
             ∧ r = (Fulfilled songs,
                    setSearchCache
                      (<[key := {| data := songs; timestamp := clock H (clockReads st) |}]>
                         (searchCache st))
                      (tick (withTrace tr st)))).
Proof.
  intros r. subst r. destruct (encodeURIComponent trimmed) as [enc|] eqn:Henc.
  2: { left. split; [done|]. unfold searchSongs_fetch. by rewrite Henc. }
  right.
  pose proof (fetchFromITunes_calls H (searchUrl enc) 2 st) as Hlo.
  pose proof (fetchFromITunes_calls_le H (searchUrl enc) 2 st) as Hhi.
  destruct (fetchFromITunes_frame H (searchUrl enc) 2 st) as (d & tr & Hrun & _).
  rewrite Hrun in Hlo, Hhi. cbn [snd trace withTrace] in Hlo, Hhi.
  exists tr. split; [by eexists|]. split; [lia|].
  destruct (parseITunesResponse d) as [|s l] eqn:Hd.
  - left. rewrite (searchSongs_fetch_empty H _ _ enc); [by rewrite Hrun|done|].
    by rewrite Hrun.
  - right. exists (s :: l). split; [done|]. split; [by exists d|].
    rewrite (searchSongs_fetch_found H _ _ enc); [|done|by rewrite Hrun; cbn [fst]; rewrite Hd].
    cbv zeta. rewrite Hrun. cbn [fst snd]. by rewrite Hd.
Qed.

Lemma unreserved_not_surrogate c :
  isUriUnreserved c = true → isHighSurrogate c = false ∧ isLowSurrogate c = false.
Proof.
  intros Hc. assert (c < 128)%N as Hlt.
  { unfold isUriUnreserved, isAlnum, inRange in Hc. cbn [js] in Hc.
    repeat (apply orb_true_iff in Hc as [Hc|Hc]);
      try (apply bool_decide_eq_true in Hc; cbn in Hc; lia).
    apply bool_decide_eq_true in Hc.
    repeat (apply elem_of_cons in Hc as [->|Hc]; [done|]). by apply elem_of_nil in Hc. }
  unfold isHighSurrogate, isLowSurrogate. rewrite !bool_decide_eq_false. lia.
Qed.

Lemma high_not_low c : isHighSurrogate c = true → isLowSurrogate c = false.
Proof.
  unfold isHighSurrogate, isLowSurrogate.
  rewrite bool_decide_eq_true, bool_decide_eq_false. lia.
Qed.

Lemma encodeURIComponent_WellFormed s :
  is_Some (encodeURIComponent s) ↔ WellFormed s.
Proof.
  remember (length s) as n eqn:Hn. revert s Hn.
  induction n as [n IH] using lt_wf_ind. intros s Hn.
  destruct s as [|c s]; [split; [constructor|by eexists]|].
  simpl. destruct (isUriUnreserved c) eqn:Hu.
  { apply unreserved_not_surrogate in Hu as [Hh Hl].
    rewrite fmap_is_Some, (IH (length s)) by (simpl in Hn; lia || done).
    split; [by constructor|]. inversion 1; subst; [done|congruence]. }
  destruct (isLowSurrogate c) eqn:Hl.
  { split; [by intros [? ?]|]. inversion 1; subst; [congruence|].
    apply high_not_low in H2. congruence. }
  destruct (isHighSurrogate c) eqn:Hh.
  - destruct s as [|d s].
    { split; [by intros [? ?]|]. inversion 1; subst; congruence. }
    destruct (isLowSurrogate d) eqn:Hd.
    + rewrite fmap_is_Some, (IH (length s)) by (simpl in Hn; lia || done).
      split; [by constructor|]. inversion 1; subst; [congruence|done].
    + split; [by intros [? ?]|]. inversion 1; subst; congruence.
  - rewrite fmap_is_Some, (IH (length s)) by (simpl in Hn; lia || done).
    split; [by constructor|]. inversion 1; subst; [done|congruence].
Qed.

(** [searchSongs] never changes the popular cache or a search entry of
    another key; the entry of its own key is left as it was or becomes the
    non-empty list that is returned; at most three requests are made. *)
Lemma searchSongs_frame (H : Host) (query : jsstring) (st : State) :
  let r := searchSongs H query st in
  let key := searchKey H query in
  popularCache r.2 = popularCache st
  ∧ (∀ k, k ≠ key → searchCache r.2 !! k = searchCache st !! k)
  ∧ (searchCache r.2 !! key = searchCache st !! key
     ∨ ∃ songs ts,
         songs ≠ [] ∧ r.1 = Fulfilled songs
         ∧ searchCache r.2 !! key = Some {| data := songs; timestamp := ts |})
  ∧ netCalls (trace st) ≤ netCalls (trace r.2) ≤ netCalls (trace st) + 3.
Proof.
  intros r key.
  destruct (decide (length (trim query) < 2)) as [Hshort|Hlong].
  { subst r. rewrite searchSongs_short_query_eq by done. cbn [fst snd].
    split; [done|]. split; [done|]. split; [by left|lia]. }
  assert (Hfetch : ∀ st0,
    searchCache st0 = searchCache st → popularCache st0 = popularCache st →
    trace st0 = trace st →
    let r := searchSongs_fetch H (trim query) key st0 in
    popularCache r.2 = popularCache st
    ∧ (∀ k, k ≠ key → searchCache r.2 !! k = searchCache st !! k)
    ∧ (searchCache r.2 !! key = searchCache st !! key
       ∨ ∃ songs ts,
           songs ≠ [] ∧ r.1 = Fulfilled songs
           ∧ searchCache r.2 !! key = Some {| data := songs; timestamp := ts |})
    ∧ netCalls (trace st) ≤ netCalls (trace r.2) ≤ netCalls (trace st) + 3).
  { intros st0 Hs Hp Ht r0.
    destruct (searchSongs_fetch_outcome H (trim query) key st0)
      as [[_ Hr] | (tr & _ & Hn & [Hr | (songs & Hne & _ & Hr)])];
      fold r0 in Hr; rewrite Hr;
      cbn [fst snd trace searchCache popularCache withTrace setSearchCache tick];
      rewrite ?Hs, ?Hp, ?Ht.
    - split; [done|]. split; [done|]. split; [by left|lia].
    - rewrite Ht in Hn. split; [done|]. split; [done|]. split; [by left|lia].
    - rewrite Ht in Hn. split; [done|]. split.
      { intros k Hk. by rewrite lookup_insert_ne. }
      split; [|lia]. right. eexists _, _. split; [done|]. split; [done|].
      apply lookup_insert_eq. }
  pose proof (Hfetch (tick st) eq_refl eq_refl eq_refl) as Hstale.
  pose proof (Hfetch st eq_refl eq_refl eq_refl) as Habsent.
  clear Hfetch. cbv zeta in Hstale, Habsent.
  subst r. rewrite searchSongs_long by lia. fold key.
  destruct (searchCache st !! key) as [c|] eqn:Hc; [|exact Habsent].
  destruct (bool_decide _); [|exact Hstale].
  cbn [fst snd tick trace searchCache popularCache].
  split; [done|]. split; [done|]. split; [by left|lia].
Qed.

(** [searchSongs] rejects with a [URIError] in one case, and in that case
    always: the trimmed query has at least two code units, no fresh entry
    answers it, and it holds a surrogate without its partner, so that no URL
    can be built. Nothing has then been requested and no cache changed. *)
Lemma searchSongs_rejects (H : Host) (query : jsstring) (st : State) :
  let r := searchSongs H query st in
  (r.1 = Rejected URIError ↔
   2 ≤ length (trim query)
   ∧ ¬ WellFormed (trim query)
   ∧ ∀ c, searchCache st !! searchKey H query = Some c →
          (SEARCH_CACHE_TTL ≤ age H st c)%Z)
  ∧ (r.1 = Rejected URIError →
          trace r.2 = trace st
          ∧ searchCache r.2 = searchCache st
          ∧ popularCache r.2 = popularCache st).
Proof.
  intros r.
  assert (Hfetch : ∀ st0,
    let r := searchSongs_fetch H (trim query) (searchKey H query) st0 in
    (r.1 = Rejected URIError ↔ ¬ WellFormed (trim query))
    ∧ (r.1 = Rejected URIError → r.2 = st0)).
  { intros st0 r0. rewrite <- encodeURIComponent_WellFormed.
    destruct (searchSongs_fetch_outcome H (trim query) (searchKey H query) st0)
      as [[Henc Hr] | (tr & Henc & _ & [Hr | (songs & _ & _ & Hr)])];
      fold r0 in Hr; rewrite Hr; cbn [fst snd].
    - rewrite Henc. split; [|done].
      split; [by intros _ [? ?]|done].
    - split; [|done]. split; [done|by intros []].
    - split; [|done]. split; [done|by intros []]. }
  destruct (decide (length (trim query) < 2)) as [Hshort|Hlong].
  { subst r. rewrite searchSongs_short_query_eq by done. cbn [fst snd].
    split; [|done]. split; [done|]. intros [? _]. lia. }
  subst r. rewrite searchSongs_long by lia.
  destruct (searchCache st !! searchKey H query) as [c|] eqn:Hc.
  - destruct (decide (fresh H st c SEARCH_CACHE_TTL)) as [Hf|Hf].
    + rewrite bool_decide_eq_true_2 by done. cbn [fst snd].
      split; [|done]. split; [done|].
      intros (_ & _ & Hstale). specialize (Hstale c eq_refl). unfold fresh in Hf. lia.
    + rewrite bool_decide_eq_false_2 by done.
      destruct (Hfetch (tick st)) as [Hiff Hrej]. split.
      * rewrite Hiff. split; [|by intros (_ & ? & _)].
        intros Hwf. split; [lia|]. split; [done|].
        intros c' [= <-]. unfold fresh in Hf. lia.
      * intros He. by rewrite (Hrej He).
  - destruct (Hfetch st) as [Hiff Hrej]. split.
    + rewrite Hiff. split; [|by intros (_ & ? & _)].
      intros Hwf. split; [lia|]. split; [done|]. by intros c' [=].
    + intros He. by rewrite (Hrej He).
Qed.

(** A query with a high surrogate that no low surrogate follows. *)
Example searchSongs_lone_surrogate :
  searchSongs (constHost 10 networkError 0) [55296; 65; 66]%N initialState
  = (Rejected URIError, initialState).
Proof. reflexivity. Qed.

(** ** An invariant of the caches *)

Lemma EntryOk_mono (H : Host) st st' e :
  clockReads st ≤ clockReads st' → EntryOk H st e → EntryOk H st' e.
Proof.
  intros Hle (Hne & Hcat & n & Hn & Hts). split; [done|]. split; [done|].
  exists n. split; [lia|done].
Qed.

Lemma elem_of_collect (rs : list (Settled (option Json))) s :
  s ∈ collect rs → Catalogued s.
Proof.
  unfold collect.
  assert (Hgen : ∀ acc, Forall Catalogued acc →
            Forall Catalogued
              (foldl (λ allSongs result,
                        match result with
                        | Fulfilled (Some v) => allSongs ++ parseITunesResponse (Some v)
                        | _ => allSongs
                        end) acc rs)).
  { induction rs as [|r rs IH]; intros acc Hacc; simpl; [done|].
    apply IH. destruct r as [[v|]|]; try done.
    apply Forall_app. split; [done|]. apply Forall_forall. intros x Hx. by exists (Some v). }
  intros Hs. specialize (Hgen [] (Forall_nil_2 _)). rewrite Forall_forall in Hgen. auto.
Qed.

Lemma unique_subset (allSongs : list Song) s : s ∈ unique allSongs → s ∈ allSongs.
Proof.
  intros Hl%unique_last. apply last_Some_elem_of in Hl.
  by apply list_elem_of_filter in Hl as [_ ?].
Qed.

Lemma finalSongs_ok (rs : list (Settled (option Json))) :
  let finalSongs := take 15 (unique (collect rs)) in
  Forall Catalogued finalSongs
  ∧ length finalSongs ≤ 15
  ∧ NoDup (id <$> finalSongs).
Proof.
  intros finalSongs. subst finalSongs. split; [|split].
  - apply Forall_forall. intros s Hs. apply (elem_of_collect rs).
    apply unique_subset. apply elem_of_take in Hs as (i & Hi & _).
    by eapply list_elem_of_lookup_2.
  - rewrite length_take. lia.
  - rewrite fmap_take, unique_ids.
    eapply sublist_NoDup; [apply NoDup_firstSeen|apply sublist_take].
Qed.

Lemma processMusicLink_state (H : Host) url st :
  ∃ tr, (processMusicLink H url st).2 = withTrace tr st
        ∧ netCalls (trace st) ≤ netCalls tr ≤ netCalls (trace st) + 1.
Proof.
  unfold processMusicLink. destruct (parseYouTubeUrl url) as [yt|].
  - unfold fetchYouTubeInfo. unfold_M. cbn [snd].
    exists (EvFetch (youTubeEmbedUrl (videoId yt)) :: trace st). split; [done|].
    unfold netCalls. simpl. lia.
  - destruct (parseSpotifyUrl url) as [tid|].
    + unfold fetchSpotifyInfo. unfold_M. cbn [snd].
      exists (EvFetch (spotifyEmbedUrl tid) :: trace st). split; [done|].
      unfold netCalls. simpl. lia.
    + exists (trace st). split; [by destruct st|lia].
Qed.

Lemma CachesOk_frame (H : Host) st st' :
  searchCache st' = searchCache st → popularCache st' = popularCache st →
  clockReads st ≤ clockReads st' →
  CachesOk H st → CachesOk H st'.
Proof.
  intros Hs Hp Hc [Hsearch Hpop]. split.
  - intros k e. rewrite Hs. intros He. eapply EntryOk_mono; eauto.
  - intros p. rewrite Hp. intros Hpp. destruct (Hpop p Hpp) as (? & ? & ?).
    split; [|done]. eapply EntryOk_mono; eauto.
Qed.

Lemma getPopularSongs_fetch_ok (H : Host) st :
  CachesOk H st → CachesOk H (getPopularSongs_fetch H st).2.
Proof.
  intros Hok. rewrite getPopularSongs_fetch_eq. cbv zeta.
  destruct (allSettled_state ((λ url, fetchFromITunes H url 2) <$> queries) st) as [tr Htr].
  { apply Forall_fmap, Forall_forall. intros url _ st'. apply fetchFromITunes_state. }
  destruct (allSettled _ st) as [rs st1]. cbn [fst snd] in *. subst st1.
  destruct (finalSongs_ok rs) as (Hcat & Hlen & Hnd).
  destruct (bool_decide (0 < length (take 15 (unique (collect rs))))) eqn:Hne; cbn [snd].
  - apply bool_decide_eq_true in Hne. destruct Hok as [Hsearch _]. split.
    + intros k e He. cbn in He. eapply EntryOk_mono; [|by eapply Hsearch].
      simpl. lia.
    + intros p [= <-]. cbn [data]. split; [|done]. split.
      { intros E. cbn [data] in E. rewrite E in Hne. simpl in Hne. lia. }
      split; [done|]. exists (clockReads st). split; [simpl; lia|done].
  - by apply (CachesOk_frame H st).
Qed.

Lemma cleanupCache_sub (H : Host) st :
  let st' := (cleanupCache H st).2 in
  (∀ k e, searchCache st' !! k = Some e → searchCache st !! k = Some e)
  ∧ (∀ p, popularCache st' = Some p → popularCache st = Some p)
  ∧ clockReads st' = S (clockReads st).
Proof.
  intros st'. subst st'. split; [|split].
  - intros k e. rewrite cleanupCache_searchCache.
    by intros [? _]%map_lookup_filter_Some.
  - intros p. rewrite cleanupCache_popularCache.
    destruct (popularCache st) as [p0|]; [|done]. by destruct (bool_decide _).
  - unfold cleanupCache. unfold_M. simpl.
    destruct (popularCache st) as [p|]; simpl; [|done]. by destruct (bool_decide _).
Qed.

Lemma Reachable_CachesOk (H : Host) (st : State) :
  Reachable H st → CachesOk H st.
Proof.
  induction 1 as [|st _ IH|query st _ IH|url st _ IH|st _ IH].
  - split; [intros k e He; cbn [searchCache initialState] in He;
             by rewrite lookup_empty in He|done].
  - rewrite getPopularSongs_eq. destruct (popularCache st) as [p|] eqn:Hp.
    + destruct (_ && _); cbn [snd].
      * by apply (CachesOk_frame H st); [..|simpl; lia|].
      * apply getPopularSongs_fetch_ok. by apply (CachesOk_frame H st); [..|simpl; lia|].
    + by apply getPopularSongs_fetch_ok.
  - destruct (decide (length (trim query) < 2)) as [Hshort|Hlong].
    { by rewrite searchSongs_short_query_eq. }
    assert (Hfetch : ∀ st0, CachesOk H st0 →
              CachesOk H (searchSongs_fetch H (trim query) (searchKey H query) st0).2).
    { intros st0 Hok.
      destruct (searchSongs_fetch_outcome H (trim query) (searchKey H query) st0)
        as [[_ Hr] | (tr & _ & _ & [Hr | (songs & Hne & [d Hd] & Hr)])];
        rewrite Hr; cbn [snd]; [done|by apply (CachesOk_frame H st0)|].
      destruct Hok as [Hsearch Hpop]. split.
      - intros k e. cbn [searchCache setSearchCache]. rewrite lookup_insert.
        case_decide as Hk.
        + intros [= <-]. split; [done|]. split.
          { rewrite Hd. apply Forall_forall. intros x Hx. by exists d. }
          exists (clockReads st0). split; [simpl; lia|done].
        + intros He. eapply EntryOk_mono; [|by eapply Hsearch]. simpl. lia.
      - intros p Hp. cbn in Hp. destruct (Hpop p Hp) as (? & ? & ?).
        split; [|done]. eapply EntryOk_mono; [|done]. simpl. lia. }
    rewrite searchSongs_long by lia.
    destruct (searchCache st !! searchKey H query) as [c|].
    + destruct (bool_decide _); cbn [snd].
      * by apply (CachesOk_frame H st); [..|simpl; lia|].
      * apply Hfetch. by apply (CachesOk_frame H st); [..|simpl; lia|].
    + by apply Hfetch.
  - destruct (processMusicLink_state H url st) as (tr & -> & _).
    by apply (CachesOk_frame H st).
  - destruct (cleanupCache_sub H st) as (Hs & Hp & Hc).
    destruct IH as [Hsearch Hpop]. split.
    + intros k e He%Hs. eapply EntryOk_mono; [|by eapply Hsearch]. lia.
    + intros p Hpp%Hp. destruct (Hpop p Hpp) as (? & ? & ?).
      split; [|done]. eapply EntryOk_mono; [|done]. lia.
Qed.

Lemma getPopularSongs_searchCache (H : Host) st :
  searchCache (getPopularSongs H st).2 = searchCache st.
Proof.
  assert (Hfetch : ∀ st0, searchCache (getPopularSongs_fetch H st0).2 = searchCache st0).
  { intros st0. destruct (getPopularSongs_fetch_outcome H st0) as (tr & _ & [[_ ->] | [_ ->]]);
      done. }
  rewrite getPopularSongs_eq. destruct (popularCache st) as [p|]; [|apply Hfetch].
  destruct (_ && _); [done|]. by rewrite Hfetch.
Qed.

Lemma Reachable_KeysOk (H : Host) (st : State) :
  Reachable H st → KeysOk H st.
Proof.
  induction 1 as [|st _ IH|query st _ IH|url st _ IH|st _ IH]; intros k.
  - cbn [searchCache initialState]. rewrite lookup_empty. by intros [? ?].
  - rewrite getPopularSongs_searchCache. apply IH.
  - destruct (decide (length (trim query) < 2)) as [Hshort|Hlong].
    { rewrite searchSongs_short_query_eq by done. apply IH. }
    assert (Hfetch : ∀ st0,
              searchCache st0 = searchCache st →
              is_Some (searchCache
                         (searchSongs_fetch H (trim query) (searchKey H query) st0).2 !! k) →
              ∃ query, k = searchKey H query ∧ 2 ≤ length (trim query)).
    { intros st0 Hst0.
      destruct (searchSongs_fetch_outcome H (trim query) (searchKey H query) st0)
        as [[_ Hr] | (tr & _ & _ & [Hr | (songs & _ & _ & Hr)])];
        rewrite Hr; cbn [snd searchCache withTrace setSearchCache]; rewrite ?Hst0;
        try apply IH.
      rewrite lookup_insert. case_decide as Hk; [|apply IH].
      intros _. exists query. split; [done|lia]. }
    rewrite searchSongs_long by lia.
    destruct (searchCache st !! searchKey H query) as [c|].
    + destruct (bool_decide _); cbn [snd]; [apply IH|by apply Hfetch].
    + by apply Hfetch.
  - destruct (processMusicLink_state H url st) as (tr & -> & _). apply IH.
  - destruct (cleanupCache_sub H st) as (Hs & _). intros [e He%Hs]. by apply IH.
Qed.

(** In every state the module can reach, each cached list is not empty and
    holds only songs made by the normalizer, each timestamp is a reading of
    the clock that has been made, the popular list has at most 15 songs
    with distinct identifiers, and each key of the search cache is the key
    of a query of two code units or more. *)
Lemma reachable_caches_ok (H : Host) (st : State) :
  Reachable H st → CachesOk H st ∧ KeysOk H st.
Proof.
  intros Hst. split; [by apply Reachable_CachesOk|by apply Reachable_KeysOk].
Qed.

Lemma reachable_caches_ok_witness :
  let H := constHost 10 (okResponse (catalogBody [track 7 "Ab"])) 0 in
  let st := (searchSongs H (js "ab") (getPopularSongs H initialState).2).2 in
  Reachable H st ∧ CachesOk H st ∧ KeysOk H st.
Proof.
  intros H st.
  assert (Hst : Reachable H st).
  { apply reach_searchSongs, reach_getPopularSongs, reach_initial. }
  split; [exact Hst|]. exact (reachable_caches_ok H st Hst).
Defined.

(** ** Which links are recognized *)

Lemma afterPrefix11_Some prefix s cap :
  afterPrefix11 prefix s = Some cap ↔
  length cap = 11 ∧ Forall (λ c, isVideoIdChar c = true) cap
  ∧ ∃ rest, s = prefix ++ cap ++ rest.
Proof.
  unfold afterPrefix11. split.
  - destruct (startsWith prefix s) eqn:Hp; [|done].
    apply startsWith_spec in Hp as [b ->]. rewrite drop_app_length.
    destruct (bool_decide _ && _) eqn:Hc; [|done]. intros [= <-].
    apply andb_true_iff in Hc as [Hlen Hall]. apply bool_decide_eq_true in Hlen.
    split; [done|]. split.
    + apply Forall_forall. intros c Hc.
      rewrite forallb_forall in Hall. apply Hall. by apply list_elem_of_In.
    + exists (drop 11 b). by rewrite take_drop.
  - intros (Hlen & Hall & rest & ->).
    rewrite startsWith_app, drop_app_length, <- Hlen, take_app_length.
    rewrite bool_decide_eq_true_2 by done. by rewrite forallb_Forall.
Qed.

(** [parseYouTubeUrl] recognizes exactly the strings in which
    "youtube.com/watch?v=" or "youtu.be/" is followed by eleven code units
    of [[a-zA-Z0-9_-]]; the video id it returns is such a run of eleven,
    found in the link right after one of the two markers. *)
Lemma parseYouTubeUrl_recognizes (url : jsstring) :
  (is_Some (parseYouTubeUrl url) ↔
   ∃ vid, length vid = 11 ∧ Forall (λ c, isVideoIdChar c = true) vid
          ∧ (contains url (js "youtube.com/watch?v=" ++ vid)
             ∨ contains url (js "youtu.be/" ++ vid)))
  ∧ (∀ yt, parseYouTubeUrl url = Some yt →
           length (videoId yt) = 11
           ∧ Forall (λ c, isVideoIdChar c = true) (videoId yt)
           ∧ (contains url (js "youtube.com/watch?v=" ++ videoId yt)
              ∨ contains url (js "youtu.be/" ++ videoId yt))).
Proof.
  assert (Hsound : ∀ vid, regexSearch reVideoId url = Some vid →
            length vid = 11 ∧ Forall (λ c, isVideoIdChar c = true) vid
            ∧ (contains url (js "youtube.com/watch?v=" ++ vid)
               ∨ contains url (js "youtu.be/" ++ vid))).
  { intros vid (pre & post & -> & Hm)%regexSearch_Some. unfold reVideoId in Hm.
    destruct (afterPrefix11 (js "youtube.com/watch?v=") post) as [cap|] eqn:E.
    - injection Hm as ->. apply afterPrefix11_Some in E as (? & ? & rest & ->).
      split; [done|]. split; [done|]. left. exists pre, rest. by rewrite <- app_assoc.
    - apply afterPrefix11_Some in Hm as (? & ? & rest & ->).
      split; [done|]. split; [done|]. right. exists pre, rest. by rewrite <- app_assoc. }
  split.
  - unfold parseYouTubeUrl. split.
    + intros [yt Hyt]. destruct (regexSearch reVideoId url) as [vid|] eqn:E; [|done].
      exists vid. by apply Hsound.
    + intros (vid & Hlen & Hall & Hc).
      destruct (regexSearch reVideoId url) as [v|] eqn:E; [by eexists|]. exfalso.
      rewrite regexSearch_None in E.
      destruct Hc as [(a & b & ->) | (a & b & ->)].
      * specialize (E a ((js "youtube.com/watch?v=" ++ vid) ++ b) eq_refl).
        unfold reVideoId in E. rewrite <- app_assoc in E.
        rewrite (proj2 (afterPrefix11_Some _ _ vid)) in E; [done|]. by eauto.
      * specialize (E a ((js "youtu.be/" ++ vid) ++ b) eq_refl).
        unfold reVideoId in E. rewrite <- app_assoc in E.
        destruct (afterPrefix11 (js "youtube.com/watch?v=") _); [done|].
        rewrite (proj2 (afterPrefix11_Some _ _ vid)) in E; [done|]. by eauto.
  - intros yt. unfold parseYouTubeUrl.
    destruct (regexSearch reVideoId url) as [vid|] eqn:E; [|done].
    intros [= <-]. by apply Hsound.
Qed.

Lemma takeWhile_app_stop {A} (p : A → bool) a b :
  Forall (λ x, p x = true) a → (∀ x, head b = Some x → p x = false) →
  takeWhile p (a ++ b) = a.
Proof.
  intros Ha Hb. induction Ha as [|x a Hx _ IH]; simpl.
  - destruct b as [|y b]; simpl; [done|]. by rewrite (Hb y).
  - by rewrite Hx, IH.
Qed.

Lemma takeWhile_cons_true {A} (p : A → bool) x l :
  p x = true → takeWhile p (x :: l) ≠ [].
Proof. intros Hx. simpl. by rewrite Hx. Qed.

Lemma reTrack_Some s tid :
  reTrack s = Some tid →
  tid ≠ [] ∧ Forall (λ c, isAlnum c = true) tid
  ∧ ∃ b, s = js "spotify.com/track/" ++ tid ++ b
         ∧ ∀ c, head b = Some c → isAlnum c = false.
Proof.
  unfold reTrack. destruct (startsWith _ s) eqn:Hp; [|done].
  apply startsWith_spec in Hp as [b ->]. rewrite drop_app_length.
  destruct (takeWhile isAlnum b) as [|c cap] eqn:E; [done|]. intros [= <-].
  split; [done|]. split; [rewrite <- E; apply Forall_takeWhile|].
  exists (dropWhile isAlnum b). split.
  - rewrite <- E. by rewrite takeWhile_dropWhile.
  - apply head_dropWhile.
Qed.

(** [parseSpotifyUrl] recognizes exactly the strings in which
    "spotify.com/track/" is followed by a letter or digit; the track id is
    the whole run of letters and digits after the marker, so it is not empty
    and what follows it in the link is not a letter or digit. *)
Lemma parseSpotifyUrl_recognizes (url : jsstring) :
  (is_Some (parseSpotifyUrl url) ↔
   ∃ c, isAlnum c = true ∧ contains url (js "spotify.com/track/" ++ [c]))
  ∧ (∀ tid, parseSpotifyUrl url = Some tid →
            tid ≠ [] ∧ Forall (λ c, isAlnum c = true) tid
            ∧ ∃ a b, url = a ++ js "spotify.com/track/" ++ tid ++ b
                     ∧ ∀ c, head b = Some c → isAlnum c = false).
Proof.
  assert (Hsound : ∀ tid, parseSpotifyUrl url = Some tid →
            tid ≠ [] ∧ Forall (λ c, isAlnum c = true) tid
            ∧ ∃ a b, url = a ++ js "spotify.com/track/" ++ tid ++ b
                     ∧ ∀ c, head b = Some c → isAlnum c = false).
  { intros tid (pre & post & -> & Hm)%regexSearch_Some.
    apply reTrack_Some in Hm as (Hne & Hall & b & -> & Hb). eauto 6. }
  split; [|done]. split.
  - intros [tid Htid]. destruct (Hsound tid Htid) as (Hne & Hall & a & b & -> & _).
    destruct tid as [|c tid]; [done|]. exists c. split; [by inversion Hall|].
    exists a, (tid ++ b). by rewrite <- !app_assoc.
  - intros (c & Hc & a & b & ->). unfold parseSpotifyUrl.
    destruct (regexSearch reTrack _) as [tid|] eqn:E; [by eexists|]. exfalso.
    rewrite regexSearch_None in E. specialize (E a _ eq_refl).
    unfold reTrack in E. rewrite <- app_assoc in E.
    rewrite startsWith_app, drop_app_length in E.
    pose proof (takeWhile_cons_true isAlnum c b Hc) as Hne.
    change ([c] ++ b) with (c :: b) in E.
    by destruct (takeWhile isAlnum (c :: b)).
Qed.

Lemma reStart_digit d r :
  isDigit d = true →
  is_Some (reStart (js "?t=" ++ d :: r)) ∧ is_Some (reStart (js "&t=" ++ d :: r)).
Proof.
  intros Hd. pose proof (takeWhile_cons_true isDigit d r Hd) as Hne.
  split.
  - change (js "?t=" ++ d :: r) with (63%N :: 116%N :: 61%N :: d :: r).
    unfold reStart. rewrite !bool_decide_eq_true_2 by done. cbn [orb andb].
    destruct (takeWhile isDigit (d :: r)); [done|by eexists].
  - change (js "&t=" ++ d :: r) with (38%N :: 116%N :: 61%N :: d :: r).
    unfold reStart. rewrite (bool_decide_eq_false_2 (38%N = 63%N)) by done.
    rewrite !bool_decide_eq_true_2 by done. cbn [orb andb].
    destruct (takeWhile isDigit (d :: r)); [done|by eexists].
Qed.

(** The start time of a recognized Platform A link: it is present exactly
    when "?t=" or "&t=" is followed by a digit somewhere in the link; it is
    then [parseInt] of a whole run of digits that follows such a marker:
    the number nearest to what the digits spell, which is what they spell
    below [2 ^ 53]; and it is not negative. *)
Lemma parseYouTubeUrl_start (url : jsstring) (yt : YouTubeRef) :
  parseYouTubeUrl url = Some yt →
  (is_Some (yt_startTime yt) ↔
   ∃ d, isDigit d = true
        ∧ (contains url (js "?t=" ++ [d]) ∨ contains url (js "&t=" ++ [d])))
  ∧ (∀ t, yt_startTime yt = Some t →
          (0 ≤ t)%Z
          ∧ ∃ ds a b,
              (url = a ++ js "?t=" ++ ds ++ b ∨ url = a ++ js "&t=" ++ ds ++ b)
              ∧ ds ≠ [] ∧ Forall (λ c, isDigit c = true) ds
              ∧ (∀ c, head b = Some c → isDigit c = false)
              ∧ t = parseInt ds
              ∧ ((decimalValue ds < 2 ^ 53)%Z → t = decimalValue ds)).
Proof.
  unfold parseYouTubeUrl. destruct (regexSearch reVideoId url) as [vid|]; [|done].
  intros [= <-]. cbn [yt_startTime].
  assert (Hsound : ∀ ds, regexSearch reStart url = Some ds →
            ∃ a b,
              (url = a ++ js "?t=" ++ ds ++ b ∨ url = a ++ js "&t=" ++ ds ++ b)
              ∧ ds ≠ [] ∧ Forall (λ c, isDigit c = true) ds
              ∧ (∀ c, head b = Some c → isDigit c = false)).
  { intros ds (pre & post & -> & Hm)%regexSearch_Some.
    apply reStart_Some in Hm as (Hne & Hall & b & Hs & Hb).
    exists pre, b. split; [|done]. destruct Hs as [-> | ->]; [by left|by right]. }
  split.
  - split.
    + intros [t Ht]. destruct (regexSearch reStart url) as [ds|] eqn:E; [|done].
      destruct (Hsound ds eq_refl) as (a & b & Hurl & Hne & Hall & _).
      destruct ds as [|d ds]; [done|]. exists d. split; [by inversion Hall|].
      destruct Hurl as [-> | ->]; [left|right]; exists a, (ds ++ b);
        by rewrite <- !app_assoc.
    + intros (d & Hd & Hc).
      destruct (regexSearch reStart url) as [ds|] eqn:E; [by eexists|]. exfalso.
      rewrite regexSearch_None in E.
      destruct Hc as [(a & b & ->) | (a & b & ->)].
      * specialize (E a _ eq_refl). rewrite <- app_assoc in E.
        change ([d] ++ b) with (d :: b) in E.
        destruct (reStart_digit d b Hd) as [[? Hq] _]. congruence.
      * specialize (E a _ eq_refl). rewrite <- app_assoc in E.
        change ([d] ++ b) with (d :: b) in E.
        destruct (reStart_digit d b Hd) as [_ [? Hq]]. congruence.
  - intros t. destruct (regexSearch reStart url) as [ds|] eqn:E; [|done].
    intros [= <-]. destruct (Hsound ds eq_refl) as (a & b & Hurl & Hne & Hall & Hb).
    split; [by apply parseInt_nonneg|]. exists ds, a, b.
    repeat (split; [done|]). intros Hlt. apply toDouble_exact.
    pose proof (decimalValue_nonneg ds Hall). lia.
Qed.

Lemma parseYouTubeUrl_start_witness :
  let url := js "https://youtu.be/dQw4w9WgXcQ?t=43s" in
  let yt := {| videoId := js "dQw4w9WgXcQ"; yt_startTime := Some 43%Z |} in
  parseYouTubeUrl url = Some yt
  ∧ (is_Some (yt_startTime yt) ↔
     ∃ d, isDigit d = true
          ∧ (contains url (js "?t=" ++ [d]) ∨ contains url (js "&t=" ++ [d]))).
Proof.
  intros url yt.
  assert (Hyt : parseYouTubeUrl url = Some yt) by (vm_compute; reflexivity).
  split; [exact Hyt|]. exact (proj1 (parseYouTubeUrl_start url yt Hyt)).
Defined.

(** ** What the link resolver returns *)

Lemma embedInfo_Some wantTitle build r sd :
  embedInfo wantTitle build r = Some sd ↔
  ∃ res d t, r = Fulfilled res ∧ ok res = true ∧ json res = Fulfilled (Some d)
             ∧ ((∃ s, json_title d = StringTitle s ∧ t = Some s)
                ∨ (json_title d = NoTitle ∧ wantTitle = false ∧ t = None))
             ∧ sd = build t (thumbnail_url d).
Proof.
  unfold embedInfo. split.
  - destruct r as [res|e]; [|done]. destruct (ok res) eqn:Hok; [|done].
    cbn [negb]. destruct (json res) as [[d|]|] eqn:Hj; try done.
    destruct (json_title d) as [|s|] eqn:Ht; [| |done].
    + destruct wantTitle; [done|]. intros [= <-]. exists res, d, None.
      repeat (split; [done|]). split; [by right|done].
    + intros [= <-]. exists res, d, (Some s).
      repeat (split; [done|]). split; [left; by exists s|done].
  - intros (res & d & t & -> & Hok & Hj & Ht & ->). rewrite Hok, Hj. cbn [negb].
    destruct Ht as [(s & -> & ->) | (-> & -> & ->)]; done.
Qed.

Lemma processMusicLink_eq (H : Host) url st :
  processMusicLink H url st =
  match parseYouTubeUrl url with
  | Some yt =>
      let info := embedInfo true
                    (λ t thumb, youTubeSongData (videoId yt) (default [] t) thumb)
                    (settle H None (netCalls (trace st)) (youTubeEmbedUrl (videoId yt))) in
      (match info, yt_startTime yt with
       | Some i, Some t => if truthyNum (Some t) then Some (setWindow t i) else Some i
       | _, _ => info
       end,
       logEvent (EvFetch (youTubeEmbedUrl (videoId yt))) st)
  | None =>
      match parseSpotifyUrl url with
      | Some tid =>
          (embedInfo false (spotifySongData tid)
             (settle H None (netCalls (trace st)) (spotifyEmbedUrl tid)),
           logEvent (EvFetch (spotifyEmbedUrl tid)) st)
      | None => (None, st)
      end
  end.
Proof.
  unfold processMusicLink. destruct (parseYouTubeUrl url) as [yt|]; [done|].
  by destruct (parseSpotifyUrl url).
Qed.

(** [processMusicLink] resolves to [null] exactly when the link is of
    neither platform or the embed request does not give a usable body: it
    rejects, its status is not ok, its body does not parse or is [null], or
    the title in the body is not usable: for Platform A a title that is
    not a string, an absent one included; for Platform B a title that is
    neither absent nor a string. *)
Lemma processMusicLink_null (H : Host) (url : jsstring) (st : State) :
  (processMusicLink H url st).1 = None ↔
  match parseYouTubeUrl url with
  | Some yt =>
      ∀ res d t,
        settle H None (netCalls (trace st)) (youTubeEmbedUrl (videoId yt))
        = Fulfilled res →
        ok res = true → json res = Fulfilled (Some d) →
        json_title d ≠ StringTitle t
  | None =>
      match parseSpotifyUrl url with
      | Some tid =>
          ∀ res d,
            settle H None (netCalls (trace st)) (spotifyEmbedUrl tid)
            = Fulfilled res →
            ok res = true → json res = Fulfilled (Some d) →
            json_title d = OtherTitle
      | None => True
      end
  end.
Proof.
  rewrite processMusicLink_eq. destruct (parseYouTubeUrl url) as [yt|].
  - cbn [fst]. set (build := λ t thumb, youTubeSongData _ _ thumb).
    set (r := settle _ _ _ _).
    destruct (embedInfo true build r) as [i|] eqn:E.
    + apply embedInfo_Some in E as (res & d & t & Hr & Hok & Hj & Ht & _).
      split.
      * by destruct (yt_startTime yt) as [n|]; [destruct (truthyNum (Some n))|].
      * intros Hn. destruct Ht as [(s & Hs & _) | (_ & ? & _)]; [|done].
        by destruct (Hn res d s Hr Hok Hj).
    + split; [|by destruct (yt_startTime yt)]. intros _ res d t Hr Hok Hj Ht.
      assert (is_Some (embedInfo true build r)) as [? ?]; [|congruence].
      eexists. apply embedInfo_Some. exists res, d, (Some t).
      repeat (split; [done|]). split; [left; by exists t|done].
  - destruct (parseSpotifyUrl url) as [tid|]; [|done]. cbn [fst].
    set (r := settle _ _ _ _).
    destruct (embedInfo false (spotifySongData tid) r) as [i|] eqn:E.
    + apply embedInfo_Some in E as (res & d & t & Hr & Hok & Hj & Ht & _).
      split; [done|]. intros Hn. specialize (Hn res d Hr Hok Hj).
      destruct Ht as [(s & Hs & _) | (Hs & _)]; congruence.
    + split; [|done]. intros _ res d Hr Hok Hj.
      destruct (json_title d) as [|s|] eqn:Ht; [| |done]; exfalso.
      * assert (is_Some (embedInfo false (spotifySongData tid) r)) as [? ?];
          [|congruence].
        eexists. apply embedInfo_Some. exists res, d, None.
        repeat (split; [done|]). split; [by right|done].
      * assert (is_Some (embedInfo false (spotifySongData tid) r)) as [? ?];
          [|congruence].
        eexists. apply embedInfo_Some. exists res, d, (Some s).
        repeat (split; [done|]). split; [left; by exists s|done].
Qed.

(** [processMusicLink] leaves both caches and the clock alone and never
    waits; it makes one request when the link is recognized and none
    otherwise, and the request goes to the embed endpoint of Platform A
    whenever the link has a Platform A video id, also when it has a
    Platform B track id as well. *)
Lemma processMusicLink_frame (H : Host) (url : jsstring) (st : State) :
  let st' := (processMusicLink H url st).2 in
  searchCache st' = searchCache st
  ∧ popularCache st' = popularCache st
  ∧ clockReads st' = clockReads st
  ∧ (is_Some (parseYouTubeUrl url) ∨ is_Some (parseSpotifyUrl url) ↔
     netCalls (trace st') = S (netCalls (trace st)))
  ∧ (parseYouTubeUrl url = None ∧ parseSpotifyUrl url = None ↔ trace st' = trace st)
  ∧ (∀ yt, parseYouTubeUrl url = Some yt →
           trace st' = EvFetch (youTubeEmbedUrl (videoId yt)) :: trace st)
  ∧ (∀ tid, parseYouTubeUrl url = None → parseSpotifyUrl url = Some tid →
            trace st' = EvFetch (spotifyEmbedUrl tid) :: trace st).
Proof.
  intros st'. subst st'. rewrite processMusicLink_eq.
  assert (Hcons : ∀ (e : Event) l, e :: l ≠ l).
  { intros e l Heq. apply (f_equal length) in Heq. simpl in Heq. lia. }
  assert (Hcalls : ∀ u, netCalls (EvFetch u :: trace st) = S (netCalls (trace st)))
    by done.
  destruct (parseYouTubeUrl url) as [yt|].
  - cbn [snd logEvent searchCache popularCache clockReads trace].
    split; [done|]. split; [done|]. split; [done|].
    split; [split; [by intros _|by eauto]|].
    split; [split; [by intros [? _]|by intros ?%Hcons]|].
    split; [by intros ? [= <-]|done].
  - destruct (parseSpotifyUrl url) as [tid|].
    + cbn [snd logEvent searchCache popularCache clockReads trace].
      split; [done|]. split; [done|]. split; [done|].
      split; [split; [by intros _|by eauto]|].
      split; [split; [by intros [_ ?]|by intros ?%Hcons]|].
      split; [done|by intros ? _ [= <-]].
    + cbn [snd].
      split; [done|]. split; [done|]. split; [done|].
      split; [split; [by intros [[? ?] | [? ?]]|lia]|].
      split; [done|]. split; done.
Qed.

Lemma reRest_nonempty s g : reRest s = Some g → g ≠ [].
Proof. unfold reRest. destruct (takeWhile _ s); [done|]. by intros [= <-]. Qed.

Lemma reSpaceRest_nonempty s g : reSpaceRest s = Some g → g ≠ [].
Proof.
  revert g. induction s as [|c s IH]; intros g; simpl; [done|].
  destruct (isWhiteSpace c).
  - destruct (reSpaceRest s) as [g'|]; [intros [= <-]; by apply IH|].
    apply reRest_nonempty.
  - apply reRest_nonempty.
Qed.

Lemma reSeparator_nonempty s g : reSeparator s = Some g → g ≠ [].
Proof.
  revert g. induction s as [|c s IH]; intros g; simpl; [done|].
  assert (Hhere : (if bool_decide (c = MIDDLE_DOT) then reSpaceRest s else None)
                  = Some g → g ≠ []).
  { destruct (bool_decide _); [apply reSpaceRest_nonempty|done]. }
  destruct (isWhiteSpace c); [|done].
  destruct (reSeparator s) as [g'|]; [intros [= <-]; by apply IH|done].
Qed.

Lemma reLazy_nonempty g1 s g :
  g1 ≠ [] → reLazy g1 s = Some g → g.1 ≠ [] ∧ g.2 ≠ [].
Proof.
  revert g1. induction s as [|c s IH]; intros g1 Hg1.
  - done.
  - change (reLazy g1 (c :: s))
      with (match reSeparator (c :: s) with
            | Some g2 => Some (g1, g2)
            | None => if isLineTerminator c then None else reLazy (g1 ++ [c]) s
            end).
    destruct (reSeparator (c :: s)) as [g2|] eqn:E.
    + intros [= <-]. split; [done|]. by eapply reSeparator_nonempty.
    + destruct (isLineTerminator c); [done|]. apply IH. by destruct g1.
Qed.

Lemma reTitleArtist_nonempty t g :
  regexSearch reTitleArtist t = Some g → g.1 ≠ [] ∧ g.2 ≠ [].
Proof.
  intros (pre & post & -> & Hm)%regexSearch_Some. unfold reTitleArtist in Hm.
  destruct post as [|c r]; [done|]. destruct (isLineTerminator c); [done|].
  by apply (reLazy_nonempty [c] r).
Qed.

Lemma head_trimEnd s c : head (trimEnd s) = Some c → head s = Some c.
Proof.
  unfold trimEnd. intros Hc.
  pose proof (takeWhile_dropWhile isWhiteSpace (reverse s)) as Hs.
  apply (f_equal reverse) in Hs. rewrite reverse_app, reverse_involutive in Hs.
  rewrite <- Hs. by destruct (reverse (dropWhile isWhiteSpace (reverse s))).
Qed.

(** What [trim] returns neither starts nor ends with white space. *)
Lemma trim_trimmed s c :
  head (trim s) = Some c ∨ last (trim s) = Some c → isWhiteSpace c = false.
Proof.
  unfold trim. intros [Hc | Hc].
  - apply head_trimEnd in Hc. by apply head_dropWhile in Hc.
  - unfold trimEnd in Hc. rewrite last_reverse in Hc. by apply head_dropWhile in Hc.
Qed.

Lemma youTubeSongData_artist vid t thumb c :
  head (sd_artist (youTubeSongData vid t thumb)) = Some c
  ∨ last (sd_artist (youTubeSongData vid t thumb)) = Some c →
  isWhiteSpace c = false.
Proof.
  cbn [youTubeSongData sd_artist].
  destruct ((trim <$> split HYPHEN t) !! 0%nat) as [p|] eqn:E.
  - rewrite orStr_Some. destruct (decide (p = [])).
    + intros [[= <-] | [= <-]]; by vm_compute.
    + apply list_lookup_fmap_Some in E as (x & -> & _). apply trim_trimmed.
  - intros [[= <-] | [= <-]]; by vm_compute.
Qed.

(** Every [SongData] that [processMusicLink] resolves to has an artist that
    is not empty. One of Platform A carries the video id of the link, a
    cover that is not empty, and an artist without white space at either
    end. One of Platform B comes from a link without a Platform A video id,
    carries the track id of the link and a title that is not empty, and
    plays from 0 to 30. *)
Lemma processMusicLink_fields (H : Host) (url : jsstring) (st : State) (sd : SongData) :
  (processMusicLink H url st).1 = Some sd →
  sd_artist sd ≠ []
  ∧ match sd_type sd with
    | youtube =>
        (∃ yt, parseYouTubeUrl url = Some yt ∧ sd_id sd = videoId yt)
        ∧ (∃ cover, sd_albumCover sd = Some cover ∧ cover ≠ [])
        ∧ (∀ c, head (sd_artist sd) = Some c ∨ last (sd_artist sd) = Some c →
                isWhiteSpace c = false)
    | spotify =>
        parseYouTubeUrl url = None
        ∧ parseSpotifyUrl url = Some (sd_id sd)
        ∧ sd_title sd ≠ []
        ∧ startTime sd = 0%Z ∧ endTime sd = 30%Z
    end.
Proof.
  rewrite processMusicLink_eq. destruct (parseYouTubeUrl url) as [yt|].
  - cbn [fst]. set (build := λ t thumb, youTubeSongData _ _ thumb).
    set (r := settle _ _ _ _).
    destruct (embedInfo true build r) as [i|] eqn:E; [|by destruct (yt_startTime yt)].
    apply embedInfo_Some in E as (res & d & jt & _ & _ & _ & _ & ->).
    assert (Hi : ∀ sd', sd_type sd' = sd_type (build jt (thumbnail_url d)) →
              sd_id sd' = sd_id (build jt (thumbnail_url d)) →
              sd_artist sd' = sd_artist (build jt (thumbnail_url d)) →
              sd_albumCover sd' = sd_albumCover (build jt (thumbnail_url d)) →
              sd_artist sd' ≠ []
              ∧ match sd_type sd' with
                | youtube =>
                    (∃ yt', Some yt = Some yt' ∧ sd_id sd' = videoId yt')
                    ∧ (∃ cover, sd_albumCover sd' = Some cover ∧ cover ≠ [])
                    ∧ (∀ c, head (sd_artist sd') = Some c ∨ last (sd_artist sd') = Some c →
                            isWhiteSpace c = false)
                | spotify =>
                    Some yt = None ∧ parseSpotifyUrl url = Some (sd_id sd')
                    ∧ sd_title sd' ≠ [] ∧ startTime sd' = 0%Z ∧ endTime sd' = 30%Z
                end).
    { intros sd' -> Hid -> Hcover. subst build. cbn beta.
      split; [by apply orStr_nonempty|]. cbn [youTubeSongData sd_type].
      split; [by exists yt|]. split.
      - rewrite Hcover. cbn [youTubeSongData sd_albumCover]. eexists. split; [done|].
        by apply orStr_nonempty.
      - apply youTubeSongData_artist. }
    destruct (yt_startTime yt) as [t|]; [destruct (truthyNum (Some t))|];
      intros [= <-]; by apply Hi.
  - destruct (parseSpotifyUrl url) as [tid|]; [|done]. cbn [fst].
    intros (res & d & jt & _ & _ & _ & _ & ->)%embedInfo_Some.
    cbn [spotifySongData sd_type sd_id sd_artist sd_title startTime endTime].
    destruct (jt ≫= regexSearch reTitleArtist) as [g|] eqn:E.
    + destruct jt as [t|]; [|done]. cbn in E.
      apply reTitleArtist_nonempty in E as [? ?]. done.
    + split; [done|]. repeat split; try done. by apply orStr_nonempty.
Qed.

Lemma processMusicLink_fields_witness :
  let t := js "Song Title " ++ MIDDLE_DOT :: js " Artist Name" in
  let H := constHost 10 (okResponse (embedBody t)) 0 in
  let url := js "https://open.spotify.com/track/abc123" in
  ∃ sd, (processMusicLink H url initialState).1 = Some sd
        ∧ sd_artist sd ≠ [] ∧ sd_type sd = spotify.
Proof.
  intros t H url.
  destruct (processMusicLink H url initialState).1 as [sd|] eqn:E;
    [|vm_compute in E; discriminate].
  exists sd. split; [reflexivity|].
  split; [exact (proj1 (processMusicLink_fields H url initialState sd E))|].
  vm_compute in E. injection E as <-. reflexivity.
Defined.

(** ** What the service hands out *)

Lemma Catalogued_fields s :
  Catalogued s →
  id s ≠ 0%Z ∧ title s ≠ [] ∧ artist s ≠ []
  ∧ length (title s) ≤ 100 ∧ length (artist s) ≤ 100.
Proof.
  intros [d (ts & t & _ & _ & Hkeep & ->)%elem_of_parseITunesResponse].
  destruct (toSong_fields t Hkeep) as (? & ? & ? & ? & ? & _). done.
Qed.

Lemma fallback_fields s :
  s ∈ FALLBACK_SONGS →
  id s ≠ 0%Z ∧ title s ≠ [] ∧ artist s ≠ []
  ∧ length (title s) ≤ 100 ∧ length (artist s) ≤ 100.
Proof.
  unfold FALLBACK_SONGS. rewrite !elem_of_cons, elem_of_nil.
  intros [-> | [-> | [-> | []]]]; vm_compute; repeat split; (done || lia).
Qed.

Lemma getPopularSongs_fetch_result (H : Host) st :
  let r := (getPopularSongs_fetch H st).1 in
  r ≠ [] ∧ length r ≤ 15 ∧ NoDup (id <$> r)
  ∧ (r = FALLBACK_SONGS ∨ Forall Catalogued r).
Proof.
  intros r. subst r. rewrite getPopularSongs_fetch_eq. cbv zeta.
  destruct (allSettled _ st) as [rs st1]. cbn [fst snd].
  destruct (finalSongs_ok rs) as (Hcat & Hlen & Hnd).
  destruct (bool_decide (0 < length (take 15 (unique (collect rs))))) eqn:Hne; cbn [fst].
  - apply bool_decide_eq_true in Hne. split; [|by auto].
    intros E. rewrite E in Hne. simpl in Hne. lia.
  - split; [done|]. split; [simpl; lia|]. split; [|by left].
    apply (bool_decide_unpack _). by vm_compute.
Qed.

Lemma getPopularSongs_result (H : Host) st :
  CachesOk H st →
  let r := (getPopularSongs H st).1 in
  r ≠ [] ∧ length r ≤ 15 ∧ NoDup (id <$> r)
  ∧ (r = FALLBACK_SONGS ∨ Forall Catalogued r).
Proof.
  intros [_ Hpop] r. subst r. rewrite getPopularSongs_eq.
  destruct (popularCache st) as [p|]; [|apply getPopularSongs_fetch_result].
  destruct (_ && _); [|apply getPopularSongs_fetch_result]. cbn [fst].
  destruct (Hpop p eq_refl) as ((Hne & Hcat & _) & Hlen & Hnd). by auto.
Qed.

Lemma searchSongs_result (H : Host) st query l :
  CachesOk H st →
  (searchSongs H query st).1 = Fulfilled l →
  l `sublist_of` FALLBACK_SONGS ∨ (l ≠ [] ∧ Forall Catalogued l).
Proof.
  intros [Hsearch _].
  destruct (decide (length (trim query) < 2)) as [Hshort|Hlong].
  { rewrite searchSongs_short_query_eq by done. intros [= <-]. left.
    apply sublist_nil_l. }
  assert (Hfetch : ∀ st0,
            (searchSongs_fetch H (trim query) (searchKey H query) st0).1 = Fulfilled l →
            l `sublist_of` FALLBACK_SONGS ∨ (l ≠ [] ∧ Forall Catalogued l)).
  { intros st0.
    destruct (searchSongs_fetch_outcome H (trim query) (searchKey H query) st0)
      as [[_ Hr] | (tr & _ & _ & [Hr | (songs & Hne & [d Hd] & Hr)])];
      rewrite Hr; cbn [fst]; [done| |].
    - intros [= <-]. left. unfold fallbackSearch. apply sublist_filter.
    - intros [= <-]. right. split; [done|]. rewrite Hd. apply Forall_forall.
      intros s Hs. by exists d. }
  rewrite searchSongs_long by lia.
  destruct (searchCache st !! searchKey H query) as [c|] eqn:Hc; [|apply Hfetch].
  destruct (bool_decide _); [|apply Hfetch]. cbn [fst]. intros [= <-].
  destruct (Hsearch _ _ Hc) as (Hne & Hcat & _). by right.
Qed.

(** From any state the module can reach: a list that [getPopularSongs]
    resolves to has at most 15 songs and no identifier twice, and is the
    fallback list or made of songs from the normalizer; a list that
    [searchSongs] resolves to is a sublist of the fallback list (some of
    its songs, in its order), or not empty and made of songs from the
    normalizer. Hence every song handed out has an identifier other than 0
    and a title and an artist that are not empty and have at most 100 code
    units. *)
Lemma served_songs (H : Host) (st : State) :
  Reachable H st →
  let popular := (getPopularSongs H st).1 in
  length popular ≤ 15 ∧ NoDup (id <$> popular)
  ∧ (popular = FALLBACK_SONGS ∨ Forall Catalogued popular)
  ∧ (∀ query l,
       (searchSongs H query st).1 = Fulfilled l →
       l `sublist_of` FALLBACK_SONGS ∨ (l ≠ [] ∧ Forall Catalogued l))
  ∧ (∀ s,
       s ∈ popular
       ∨ (∃ query l, (searchSongs H query st).1 = Fulfilled l ∧ s ∈ l) →
       id s ≠ 0%Z ∧ title s ≠ [] ∧ artist s ≠ []
       ∧ length (title s) ≤ 100 ∧ length (artist s) ≤ 100).
Proof.
  intros Hok%Reachable_CachesOk popular.
  destruct (getPopularSongs_result H st Hok) as (_ & Hlen & Hnd & Hsrc).
  fold popular in Hlen, Hnd, Hsrc.
  split; [done|]. split; [done|]. split; [done|].
  split; [intros query l; by apply searchSongs_result|].
  intros s [Hs | (query & l & Hl & Hs)].
  - destruct Hsrc as [Hfb | Hcat].
    + apply fallback_fields. by rewrite <- Hfb.
    + rewrite Forall_forall in Hcat. by apply Catalogued_fields, Hcat.
  - destruct (searchSongs_result H st query l Hok Hl) as [Hfb | [_ Hcat]].
    + apply fallback_fields. by eapply elem_of_sublist.
    + rewrite Forall_forall in Hcat. by apply Catalogued_fields, Hcat.
Qed.

Lemma served_songs_witness :
  let H := constHost 10 (okResponse (catalogBody [track 7 "Ab"])) 0 in
  let st := (searchSongs H (js "ab") initialState).2 in
  Reachable H st
  ∧ ∀ l, (searchSongs H (js "AB ") st).1 = Fulfilled l →
         l `sublist_of` FALLBACK_SONGS ∨ (l ≠ [] ∧ Forall Catalogued l).
Proof.
  intros H st.
  assert (Hst : Reachable H st) by apply reach_searchSongs, reach_initial.
  split; [exact Hst|].
  destruct (served_songs H st Hst) as (_ & _ & _ & Hsearch & _).
  exact (Hsearch (js "AB ")).
Defined.

(** ** The earlier variant *)

Ltac unfold_L :=
  unfold mbind, Legacy.M_bind, mret, Legacy.M_ret, Legacy.gets, Legacy.modify,
    Legacy.fetch in *.

(** The normalizer of the current variant is the one of the earlier
    variant followed by two steps: entries without a usable [trackId] are
    dropped, and title, artist and album are cut to 100 code units. *)
Lemma parseITunesResponse_legacy (data : option Json) :
  parseITunesResponse data
  = clip <$> filter (λ s, truthyNum (Legacy.id s) = true)
                    (Legacy.parseITunesResponse data).
Proof.
  unfold parseITunesResponse, Legacy.parseITunesResponse.
  destruct (data ≫= results) as [[|t ts]|]; [done| |done].
  generalize (t :: ts) as l. clear. intros l.
  induction l as [|t l IH]; [done|].
  assert (Hkeep : keepTrack t = true ↔
                  Legacy.keepTrack t = true ∧ truthyNum (trackId t) = true).
  { unfold keepTrack, Legacy.keepTrack. by rewrite andb_true_iff. }
  destruct (decide (Legacy.keepTrack t = true)) as [Hl|Hl].
  - rewrite (filter_cons_True (λ t, Legacy.keepTrack t = true)) by done.
    rewrite fmap_cons. destruct (truthyNum (trackId t)) eqn:Hid.
    + rewrite filter_cons_True by tauto.
      rewrite (filter_cons_True (λ s, truthyNum (Legacy.id s) = true)) by done.
      rewrite !fmap_cons, IH. done.
    + rewrite filter_cons_False by (rewrite Hkeep; intros [_ ?]; done).
      rewrite (filter_cons_False (λ s, truthyNum (Legacy.id s) = true));
        [exact IH|]. cbn [Legacy.toSong Legacy.id]. by rewrite Hid.
  - rewrite (filter_cons_False (λ t, Legacy.keepTrack t = true)) by done.
    rewrite filter_cons_False by tauto. exact IH.
Qed.

Lemma legacy_unique_ids (allSongs : list Legacy.Song) :
  Legacy.id <$> Legacy.unique allSongs = firstSeen (Legacy.id <$> allSongs).
Proof.
  unfold Legacy.unique, Map_values.
  transitivity ((Map_new ((λ s, (Legacy.id s, s)) <$> allSongs)).*1).
  - apply list_eq. intros i. rewrite !list_lookup_fmap.
    destruct (Map_new _ !! i) as [[k s]|] eqn:Hi; [|done]. simpl.
    apply list_elem_of_lookup_2, elem_of_Map_new, last_Some_elem_of in Hi.
    apply list_elem_of_filter in Hi as [_ Hi].
    apply list_elem_of_fmap in Hi as (s' & [= -> ->] & _). done.
  - rewrite Map_new_keys, <- list_fmap_compose. done.
Qed.

Lemma legacy_fetchFromITunes_state (H : Host) url st :
  (Legacy.fetchFromITunes H url st).2 = Legacy.logEvent (EvFetch url) st.
Proof. done. Qed.

(** The loop asks the queries in order, each once, and goes on to the next
    only while fewer than twelve songs have been collected. *)
Lemma legacy_collect_run (H : Host) urls acc st :
  let r := Legacy.collect H urls acc st in
  ∃ k, k ≤ length urls
       ∧ (urls ≠ [] → 1 ≤ k)
       ∧ (k < length urls → 12 ≤ length r.1)
       ∧ (∀ j, 0 < j < k → length (Legacy.collect H (take j urls) acc st).1 < 12)
       ∧ Legacy.trace r.2 = reverse (EvFetch <$> take k urls) ++ Legacy.trace st
       ∧ Legacy.searchCache r.2 = Legacy.searchCache st
       ∧ Legacy.popularCache r.2 = Legacy.popularCache st.
Proof.
  revert acc st. induction urls as [|url urls IH]; intros acc st r; subst r.
  - exists 0. simpl. repeat split; (done || lia).
  - cbn [Legacy.collect]. unfold mbind, Legacy.M_bind.
    rewrite (surjective_pairing (Legacy.fetchFromITunes H url st)).
    rewrite legacy_fetchFromITunes_state.
    set (data := (Legacy.fetchFromITunes H url st).1).
    set (acc' := match data with
                 | Some d => acc ++ Legacy.parseITunesResponse (Some d)
                 | None => acc
                 end).
    destruct (bool_decide (12 ≤ length acc')) eqn:Hfull.
    + apply bool_decide_eq_true in Hfull. exists 1. cbn [fst snd length].
      split; [lia|]. split; [done|]. split; [done|]. split; [intros j Hj; lia|].
      split; [reflexivity|done].
    + destruct (IH acc' (Legacy.logEvent (EvFetch url) st))
        as (k & Hk & _ & Hstop & Hgo & Htr & Hs & Hp).
      exists (S k). cbn [length]. split; [lia|]. split; [lia|].
      split; [intros ?; apply Hstop; lia|].
      split.
      { intros [|j] Hj; [lia|]. cbn [take Legacy.collect].
        unfold mbind, Legacy.M_bind.
        rewrite (surjective_pairing (Legacy.fetchFromITunes H url st)).
        rewrite legacy_fetchFromITunes_state. fold data. fold acc'. rewrite Hfull.
        destruct j as [|j].
        - rewrite take_0. cbn [Legacy.collect]. unfold mret, Legacy.M_ret. cbn [fst].
          apply bool_decide_eq_false in Hfull. lia.
        - apply Hgo. lia. }
      split; [|done]. rewrite Htr. cbn [take fmap list_fmap Legacy.logEvent Legacy.trace].
      rewrite reverse_cons, <- app_assoc. done.
Qed.

Lemma legacy_fallback_ids : NoDup (Legacy.id <$> Legacy.FALLBACK_SONGS).
Proof. apply (bool_decide_unpack _). by vm_compute. Qed.

Lemma legacy_getPopularSongs_hit (H : Host) st l :
  Legacy.popularCache st = Some l → l ≠ [] → Legacy.getPopularSongs H st = (l, st).
Proof.
  intros Hl Hne. unfold Legacy.getPopularSongs. unfold_L. rewrite Hl. by destruct l.
Qed.

Lemma legacy_getPopularSongs_miss (H : Host) st :
  Legacy.popularCache st = None ∨ Legacy.popularCache st = Some [] →
  Legacy.getPopularSongs H st
  = let c := Legacy.collect H queries [] st in
    let p := take 15 (Legacy.unique c.1) in
    (if bool_decide (0 < length p) then p else Legacy.FALLBACK_SONGS,
     Legacy.setPopularCache (Some p) c.2).
Proof.
  intros Hpc. unfold Legacy.getPopularSongs. unfold_L.
  cbv zeta. destruct (Legacy.collect H queries [] st) as [allSongs st1] eqn:Hc.
  destruct Hpc as [-> | ->]; rewrite Hc; reflexivity.
Qed.

(** The earlier [getPopularSongs]: a popular list that is not empty is
    returned as it is, for good, with no request. Otherwise the three
    queries are asked in order, each once and without delay, and the next
    one only while fewer than twelve songs have been collected. A list
    stored by the call that is not empty is the list returned; it has at
    most 15 songs and no identifier twice, and the call stopped after the
    first or second query only with twelve songs collected. When the empty
    list is stored in a slot that held nothing, the fallback list is
    returned. The search cache is never changed. *)
Lemma legacy_getPopularSongs (H : Host) (st : Legacy.State) :
  let r := Legacy.getPopularSongs H st in
  Legacy.searchCache r.2 = Legacy.searchCache st
  ∧ (∀ l, Legacy.popularCache st = Some l → l ≠ [] → r = (l, st))
  ∧ (Legacy.popularCache st = None ∨ Legacy.popularCache st = Some [] →
     ∃ k, 1 ≤ k ≤ 3
          ∧ Legacy.trace r.2
            = reverse (EvFetch <$> take k queries) ++ Legacy.trace st
          ∧ (∀ j, 0 < j < k →
                  length (Legacy.collect H (take j queries) [] st).1 < 12)
          ∧ (∀ p, Legacy.popularCache r.2 = Some p → p ≠ [] →
                  r.1 = p ∧ length p ≤ 15 ∧ NoDup (Legacy.id <$> p)
                  ∧ (k < 3 → 12 ≤ length (Legacy.collect H queries [] st).1))
          ∧ (Legacy.popularCache st = None →
             Legacy.popularCache r.2 = Some [] →
             r.1 = Legacy.FALLBACK_SONGS)).
Proof.
  intros r. pose proof (legacy_getPopularSongs_miss H st) as Hmiss. fold r in Hmiss.
  destruct (legacy_collect_run H queries [] st)
    as (k & Hk & Hk1 & Hstop & Hgo & Htr & Hs & Hp).
  change (length queries) with 3 in Hk, Hstop.
  split; [|split].
  - destruct (Legacy.popularCache st) as [[|s l]|] eqn:Hpc.
    + rewrite Hmiss by auto. exact Hs.
    + subst r. by rewrite (legacy_getPopularSongs_hit H st (s :: l)).
    + rewrite Hmiss by auto. exact Hs.
  - intros l Hl Hne. subst r. by apply legacy_getPopularSongs_hit.
  - intros Hpc. rewrite (Hmiss Hpc). cbv zeta. cbn [fst snd].
    exists k. split; [split; [by apply Hk1|lia]|]. split; [exact Htr|].
    split; [exact Hgo|].
    cbn [Legacy.setPopularCache Legacy.popularCache].
    set (p := take 15 (Legacy.unique (Legacy.collect H queries [] st).1)).
    split.
    + intros p' [= <-] Hne.
      rewrite bool_decide_eq_true_2 by (destruct p; [done|simpl; lia]).
      split; [done|]. split; [subst p; rewrite length_take; lia|].
      split; [|exact Hstop].
      subst p. rewrite fmap_take, legacy_unique_ids.
      eapply sublist_NoDup; [apply NoDup_firstSeen|apply sublist_take].
    + intros _ [= ->]. done.
Qed.

(** Three answers with four songs each: the second and the third query are
    asked as well, and the twelve songs, all with the one identifier, make
    a popular list of one song. *)
Example legacy_getPopularSongs_three_queries :
  let H := constHost 10 (okResponse (catalogBody (replicate 4 (track 7 "Ab")))) 0 in
  let r := Legacy.getPopularSongs H Legacy.initialState in
  Legacy.trace r.2 = reverse (EvFetch <$> queries)
  ∧ length r.1 = 1
  ∧ Legacy.popularCache r.2 = Some r.1.
Proof. by vm_compute. Qed.

Lemma legacy_searchSongs_blank (H : Host) query st :
  trim query = [] → Legacy.searchSongs H query st = (Fulfilled [], st).
Proof. intros Hq. unfold Legacy.searchSongs. by rewrite bool_decide_eq_true_2. Qed.

Lemma legacy_searchSongs_eq (H : Host) query st :
  trim query ≠ [] →
  Legacy.searchSongs H query st
  = let key := trim (toLowerCase H query) in
    match Legacy.searchCache st !! key with
    | Some l => (Fulfilled l, st)
    | None =>
        match encodeURIComponent query with
        | None => (Rejected URIError, st)
        | Some enc =>
            let st1 := Legacy.logEvent (EvFetch (searchUrl enc)) st in
            let songs := Legacy.parseITunesResponse
                           (Legacy.fetchFromITunes H (searchUrl enc) st).1 in
            if bool_decide (0 < length songs)
            then (Fulfilled songs,
                  Legacy.setSearchCache (<[key := songs]> (Legacy.searchCache st)) st1)
            else (Fulfilled (Legacy.fallbackSearch H key), st1)
        end
    end.
Proof.
  intros Hq. unfold Legacy.searchSongs. rewrite bool_decide_eq_false_2 by done.
  cbv zeta. unfold mbind at 1, Legacy.M_bind at 1, Legacy.gets.
  destruct (Legacy.searchCache st !! trim (toLowerCase H query)) as [l|]; [done|].
  destruct (encodeURIComponent query) as [enc|]; [|done].
  unfold mbind at 1, Legacy.M_bind at 1.
  rewrite (surjective_pairing (Legacy.fetchFromITunes H (searchUrl enc) st)).
  rewrite legacy_fetchFromITunes_state.
  by destruct (bool_decide _).
Qed.

(** The earlier [searchSongs] makes one request, with no second attempt,
    exactly when the query is not blank, its key is not in the cache and
    it can be encoded; a query of a single code unit is asked too. The
    URL is built from the query as given, white space included, while the
    key is the lower-cased query trimmed. Nothing but the entry of the key
    is changed, and that only by storing the non-empty list returned. *)
Lemma legacy_searchSongs (H : Host) (query : jsstring) (st : Legacy.State) :
  let r := Legacy.searchSongs H query st in
  let key := trim (toLowerCase H query) in
  Legacy.popularCache r.2 = Legacy.popularCache st
  ∧ (∀ k, k ≠ key → Legacy.searchCache r.2 !! k = Legacy.searchCache st !! k)
  ∧ (Legacy.searchCache r.2 !! key = Legacy.searchCache st !! key
     ∨ (Legacy.searchCache st !! key = None
        ∧ ∃ songs, songs ≠ [] ∧ r.1 = Fulfilled songs
                   ∧ Legacy.searchCache r.2 !! key = Some songs))
  ∧ (Legacy.trace r.2 ≠ Legacy.trace st ↔
     trim query ≠ [] ∧ Legacy.searchCache st !! key = None ∧ WellFormed query)
  ∧ (∀ enc, encodeURIComponent query = Some enc →
            Legacy.trace r.2 = Legacy.trace st
            ∨ Legacy.trace r.2 = EvFetch (searchUrl enc) :: Legacy.trace st).
Proof.
  intros r key.
  assert (Hcons : ∀ (e : Event) l, e :: l ≠ l).
  { intros e l Heq. apply (f_equal length) in Heq. simpl in Heq. lia. }
  destruct (decide (trim query = [])) as [Hblank|Hq].
  { subst r. rewrite legacy_searchSongs_blank by done. cbn [fst snd].
    split; [done|]. split; [done|]. split; [by left|].
    split; [|by left]. split; [done|]. by intros [? _]. }
  subst r. rewrite legacy_searchSongs_eq by done. cbv zeta. fold key.
  destruct (Legacy.searchCache st !! key) as [l|] eqn:Hc.
  { cbn [fst snd]. split; [done|]. split; [done|]. split; [left; by rewrite Hc|].
    split; [|by left]. split; [done|]. by intros (_ & ? & _). }
  pose proof (encodeURIComponent_WellFormed query) as Hwf.
  destruct (encodeURIComponent query) as [enc|] eqn:Henc.
  2: { cbn [fst snd]. split; [done|]. split; [done|]. split; [left; by rewrite Hc|].
       split; [|done]. split; [done|]. intros (_ & _ & [? ?]%Hwf). done. }
  assert (WellFormed query) as Hw by (apply Hwf; by eexists).
  destruct (bool_decide _) eqn:Hfound; cbn [fst snd].
  - apply bool_decide_eq_true in Hfound.
    cbn [Legacy.setSearchCache Legacy.logEvent Legacy.searchCache Legacy.popularCache
           Legacy.trace].
    split; [done|]. split; [intros k Hk; by rewrite lookup_insert_ne|].
    split.
    { right. split; [done|]. eexists. split; [|split; [done|by rewrite lookup_insert_eq]].
      intros E. rewrite E in Hfound. simpl in Hfound. lia. }
    split; [split; [done|intros _; apply Hcons]|].
    intros ? [= <-]. by right.
  - cbn [Legacy.logEvent Legacy.searchCache Legacy.popularCache Legacy.trace].
    split; [done|]. split; [done|]. split; [left; by rewrite Hc|].
    split; [split; [done|intros _; apply Hcons]|].
    intros ? [= <-]. by right.
Qed.

Lemma legacy_step_grows (H : Host) st st' :
  Legacy.Step H st st' →
  Legacy.searchCache st ⊆ Legacy.searchCache st'
  ∧ (∀ l, Legacy.popularCache st = Some l → l ≠ [] →
          Legacy.popularCache st' = Some l)
  ∧ Legacy.trace st `suffix_of` Legacy.trace st'.
Proof.
  destruct 1 as [st|query st].
  - destruct (legacy_collect_run H queries [] st) as (k & _ & _ & _ & _ & Htr & Hs & _).
    destruct (Legacy.popularCache st) as [[|s l]|] eqn:Hpc.
    + rewrite legacy_getPopularSongs_miss by auto. cbv zeta.
      cbn [snd Legacy.setPopularCache Legacy.searchCache Legacy.trace].
      rewrite Hs, Htr. split; [done|]. split; [by intros ? [= <-] ?|].
      by apply suffix_app_r.
    + rewrite (legacy_getPopularSongs_hit H st (s :: l)) by done. cbn [snd].
      split; [done|]. split; [|done]. intros l0 Hl0 _. by rewrite <- Hl0.
    + rewrite legacy_getPopularSongs_miss by auto. cbv zeta.
      cbn [snd Legacy.setPopularCache Legacy.searchCache Legacy.trace].
      rewrite Hs, Htr. split; [done|]. split; [done|]. by apply suffix_app_r.
  - destruct (decide (trim query = [])) as [Hblank|Hq].
    { rewrite legacy_searchSongs_blank by done. done. }
    rewrite legacy_searchSongs_eq by done. cbv zeta.
    destruct (Legacy.searchCache st !! _) as [l|] eqn:Hc; [done|].
    destruct (encodeURIComponent query) as [enc|]; [|done].
    destruct (bool_decide _); cbn [snd Legacy.setSearchCache Legacy.logEvent
      Legacy.searchCache Legacy.popularCache Legacy.trace].
    + split; [by apply insert_subseteq|]. split; [done|]. by apply suffix_cons_r.
    + split; [done|]. split; [done|]. by apply suffix_cons_r.
Qed.

(** The caches of the earlier variant only grow: whatever calls are made,
    a list once stored under a key stays there unchanged, and so does a
    popular list that is not empty; nothing ever expires. A query whose
    key is in the cache is therefore answered with the same list, and no
    request, after any number of calls. *)
Lemma legacy_caches_grow (H : Host) (st st' : Legacy.State) :
  rtc (Legacy.Step H) st st' →
  Legacy.searchCache st ⊆ Legacy.searchCache st'
  ∧ (∀ l, Legacy.popularCache st = Some l → l ≠ [] →
          Legacy.popularCache st' = Some l
          ∧ Legacy.getPopularSongs H st' = (l, st'))
  ∧ Legacy.trace st `suffix_of` Legacy.trace st'
  ∧ (∀ query l,
       trim query ≠ [] →
       Legacy.searchCache st !! trim (toLowerCase H query) = Some l →
       Legacy.searchSongs H query st' = (Fulfilled l, st')).
Proof.
  intros Hsteps.
  assert (Hgrow : Legacy.searchCache st ⊆ Legacy.searchCache st'
            ∧ (∀ l, Legacy.popularCache st = Some l → l ≠ [] →
                    Legacy.popularCache st' = Some l)
            ∧ Legacy.trace st `suffix_of` Legacy.trace st').
  { induction Hsteps as [st|st st1 st2 Hstep _ IH]; [done|].
    destruct (legacy_step_grows H st st1 Hstep) as (Hs & Hp & Ht).
    destruct IH as (Hs' & Hp' & Ht').
    split; [by etrans|]. split; [by auto|by etrans]. }
  destruct Hgrow as (Hs & Hp & Ht).
  split; [done|]. split; [|split; [done|]].
  - intros l Hl Hne. split; [by auto|]. apply legacy_getPopularSongs_hit; by auto.
  - intros query l Hq Hl. rewrite legacy_searchSongs_eq by done. cbv zeta.
    by rewrite (lookup_weaken _ _ _ _ Hl Hs).
Qed.

Lemma legacy_caches_grow_witness :
  let H := constHost 10 (okResponse (catalogBody [track 7 "Ab"])) 0 in
  let st := (Legacy.searchSongs H (js "Ab") Legacy.initialState).2 in
  let st' := (Legacy.getPopularSongs H st).2 in
  rtc (Legacy.Step H) st st'
  ∧ Legacy.searchCache st ⊆ Legacy.searchCache st'.
Proof.
  intros H st st'.
  assert (Hsteps : rtc (Legacy.Step H) st st').
  { apply rtc_once. apply Legacy.step_getPopularSongs. }
  split; [exact Hsteps|]. exact (proj1 (legacy_caches_grow H st st' Hsteps)).
Defined.

(** ** [removeUndefined] *)

Lemma JsValue_nested_ind (P : JsValue → Prop) :
  P JUndefined → P JNull → (∀ b, P (JBool b)) → (∀ n, P (JNumber n)) →
  (∀ s, P (JString s)) →
  (∀ items, Forall P items → P (JArray items)) →
  (∀ entries, Forall (λ kv, P kv.2) entries → P (JObject entries)) →
  ∀ v, P v.
Proof.
  intros Hu Hn Hb Hz Hs Harr Hobj. fix IH 1.
  intros [| |b|n|s|items|entries]; [done..| |].
  - apply Harr. induction items as [|x items IHl]; constructor; [apply IH|exact IHl].
  - apply Hobj. induction entries as [|[k x] entries IHl]; constructor;
      [apply IH|exact IHl].
Qed.

(** One turn of the loop over the entries of an object. *)
Lemma removeUndefined_object entries :
  removeUndefined (JObject entries)
  = JObject
      (foldl (λ cleaned kv,
                if isUndefined kv.2 || bool_decide (kv.1 = js "__proto__")
                then cleaned
                else Map_set kv.1 (removeUndefined kv.2) cleaned)
             [] entries).
Proof.
  cbn [removeUndefined]. f_equal. generalize (@nil (jsstring * JsValue)) as acc.
  induction entries as [|[k x] entries IH]; intros acc; [done|].
  cbn [foldl fst snd]. rewrite IH. destruct x; done.
Qed.

Lemma Map_set_fresh {K V} `{EqDecision K} (k : K) (v : V) m :
  k ∉ m.*1 → Map_set k v m = m ++ [(k, v)].
Proof.
  induction m as [|[k' v'] m IH]; csimpl; [done|].
  rewrite not_elem_of_cons. intros [Hne Hk].
  rewrite decide_False by done. by rewrite IH.
Qed.

Lemma Forall_Map_set {K V} `{EqDecision K} (Q : K → V → Prop) (k : K) (v : V) m :
  Q k v → Forall (λ kv, Q kv.1 kv.2) m → Forall (λ kv, Q kv.1 kv.2) (Map_set k v m).
Proof.
  intros Hv. induction 1 as [|[k' v'] m Hx Hm IH]; simpl.
  - by repeat constructor.
  - destruct (decide (k = k')) as [->|]; constructor; done.
Qed.

Lemma NoDup_Map_set {K V} `{EqDecision K} (k : K) (v : V) m :
  NoDup m.*1 → NoDup (Map_set k v m).*1.
Proof.
  intros Hnd. rewrite Map_set_keys. destruct (decide (k ∈ m.*1)); [done|].
  apply NoDup_app. split; [done|]. split; [|apply NoDup_singleton].
  intros x Hx ->%list_elem_of_singleton. done.
Qed.

Lemma cleaned_invariant (Q : jsstring → JsValue → Prop)
    (entries : list (jsstring * JsValue)) :
  Forall (λ kv, kv.1 ≠ js "__proto__" → Q kv.1 (removeUndefined kv.2)) entries →
  let cleaned :=
    foldl (λ cleaned kv,
             if isUndefined kv.2 || bool_decide (kv.1 = js "__proto__")
             then cleaned
             else Map_set kv.1 (removeUndefined kv.2) cleaned)
          [] entries in
  NoDup cleaned.*1 ∧ Forall (λ kv, Q kv.1 kv.2) cleaned.
Proof.
  intros Hall.
  assert (Hgen : ∀ acc : list (jsstring * JsValue),
            NoDup acc.*1 → Forall (λ kv, Q kv.1 kv.2) acc →
            let cleaned :=
              foldl (λ cleaned kv,
                       if isUndefined kv.2 || bool_decide (kv.1 = js "__proto__")
                       then cleaned
                       else Map_set kv.1 (removeUndefined kv.2) cleaned)
                    acc entries in
            NoDup cleaned.*1 ∧ Forall (λ kv, Q kv.1 kv.2) cleaned).
  { induction Hall as [|[k x] entries Hx _ IH]; intros acc Hnd Hacc; [done|].
    cbn [foldl fst snd] in *. destruct (isUndefined x); [by apply IH|].
    cbn [orb]. case_bool_decide as Hk; [by apply IH|].
    apply IH; [by apply NoDup_Map_set|]. apply Forall_Map_set; [by apply Hx|done]. }
  apply Hgen; [constructor|done].
Qed.

Lemma existsb_false_Forall {A} (p : A → bool) l :
  existsb p l = false ↔ Forall (λ x, p x = false) l.
Proof.
  induction l as [|x l IH]; simpl; [done|].
  rewrite orb_false_iff, IH, Forall_cons. done.
Qed.

Lemma forallb_true_Forall {A} (p : A → bool) l :
  forallb p l = true ↔ Forall (λ x, p x = true) l.
Proof.
  induction l as [|x l IH]; simpl; [done|].
  rewrite andb_true_iff, IH, Forall_cons. done.
Qed.

Lemma removeUndefined_hasUndefined v : hasUndefined (removeUndefined v) = false.
Proof.
  induction v as [| |b|n|s|items IH|entries IH] using JsValue_nested_ind; try done.
  - cbn [removeUndefined hasUndefined]. apply existsb_false_Forall.
    by apply Forall_fmap.
  - rewrite removeUndefined_object. cbn [hasUndefined].
    apply existsb_false_Forall.
    apply (cleaned_invariant (λ _ v, hasUndefined v = false)).
    eapply Forall_impl; [exact IH|]. by intros kv Hkv _.
Qed.

Lemma removeUndefined_distinctKeys v : distinctKeys (removeUndefined v) = true.
Proof.
  induction v as [| |b|n|s|items IH|entries IH] using JsValue_nested_ind; try done.
  - cbn [removeUndefined distinctKeys]. apply forallb_true_Forall.
    by apply Forall_fmap.
  - rewrite removeUndefined_object. cbn [distinctKeys].
    destruct (cleaned_invariant (λ _ v, distinctKeys v = true) entries) as [Hnd Hall].
    { eapply Forall_impl; [exact IH|]. by intros kv Hkv _. }
    apply andb_true_iff. split; [by apply bool_decide_eq_true|].
    by apply forallb_true_Forall.
Qed.

Lemma removeUndefined_hasProtoKey v : hasProtoKey (removeUndefined v) = false.
Proof.
  induction v as [| |b|n|s|items IH|entries IH] using JsValue_nested_ind; try done.
  - cbn [removeUndefined hasProtoKey]. apply existsb_false_Forall.
    by apply Forall_fmap.
  - rewrite removeUndefined_object. cbn [hasProtoKey].
    apply existsb_false_Forall.
    destruct (cleaned_invariant
                (λ k v, bool_decide (k = js "__proto__") || hasProtoKey v = false)
                entries) as [_ Hall]; [|exact Hall].
    eapply Forall_impl; [exact IH|]. intros kv Hkv Hk. cbn beta in *.
    by rewrite bool_decide_eq_false_2.
Qed.

(** For an object without a key twice the loop is a filter and a map: the
    entries whose value is [undefined] or whose key is [__proto__] are left
    out, the others keep their order. *)
Lemma removeUndefined_entries entries :
  NoDup entries.*1 →
  removeUndefined (JObject entries)
  = JObject ((λ kv, (kv.1, removeUndefined kv.2))
               <$> filter (λ kv, isUndefined kv.2 = false ∧ kv.1 ≠ js "__proto__")
                          entries).
Proof.
  intros Hnd. rewrite removeUndefined_object. f_equal.
  assert (Hgen : ∀ acc : list (jsstring * JsValue),
            (∀ k, k ∈ acc.*1 → k ∉ entries.*1) →
            foldl (λ cleaned kv,
                     if isUndefined kv.2 || bool_decide (kv.1 = js "__proto__")
                     then cleaned
                     else Map_set kv.1 (removeUndefined kv.2) cleaned)
                  acc entries
            = acc ++ ((λ kv, (kv.1, removeUndefined kv.2))
                        <$> filter (λ kv, isUndefined kv.2 = false
                                          ∧ kv.1 ≠ js "__proto__") entries)).
  { induction entries as [|[k x] entries IH]; intros acc Hacc.
    - by rewrite app_nil_r.
    - apply NoDup_cons in Hnd as [Hk Hnd]. cbn [foldl fst snd].
      destruct (isUndefined x || bool_decide (k = js "__proto__")) eqn:Hx.
      + rewrite filter_cons_False.
        2: { cbn [fst snd]. intros [Hu Hp]. rewrite Hu in Hx. cbn [orb] in Hx.
             by apply bool_decide_eq_true in Hx. }
        apply IH; [done|]. intros k' Hk' Hin. apply (Hacc k' Hk'). by right.
      + apply orb_false_iff in Hx as [Hu Hp]. apply bool_decide_eq_false in Hp.
        rewrite filter_cons_True by done. rewrite fmap_cons. cbn [fst snd].
        rewrite Map_set_fresh.
        2: { intros Hin. apply (Hacc k Hin). by left. }
        rewrite IH; [by rewrite <- app_assoc|done|].
        intros k'. rewrite fmap_app, elem_of_app. csimpl.
        rewrite list_elem_of_singleton.
        intros [Hk' | ->] Hin; [|done]. apply (Hacc k' Hk'). by right. }
  apply (Hgen []). by intros k ?%elem_of_nil.
Qed.

Lemma removeUndefined_fixed v :
  distinctKeys v = true → hasUndefined v = false → hasProtoKey v = false →
  removeUndefined v = v.
Proof.
  induction v as [| |b|n|s|items IH|entries IH] using JsValue_nested_ind; try done.
  - cbn [distinctKeys hasUndefined hasProtoKey removeUndefined].
    rewrite forallb_true_Forall, !existsb_false_Forall. intros Hd Hu Hp. f_equal.
    induction IH as [|x items Hx _ IHl]; [done|].
    apply Forall_cons in Hd as [? ?]. apply Forall_cons in Hu as [? ?].
    apply Forall_cons in Hp as [? ?].
    rewrite fmap_cons, Hx, IHl; done.
  - cbn [distinctKeys hasUndefined hasProtoKey].
    rewrite andb_true_iff, bool_decide_eq_true.
    rewrite forallb_true_Forall, !existsb_false_Forall. intros [Hnd Hd] Hu Hp.
    rewrite removeUndefined_entries by done. f_equal. clear Hnd.
    induction IH as [|[k x] entries Hx _ IHl]; [done|].
    apply Forall_cons in Hd as [? ?]. apply Forall_cons in Hu as [Hux ?].
    apply Forall_cons in Hp as [Hpx ?].
    cbn [fst snd] in *. apply orb_false_iff in Hpx as [Hk Hpx].
    apply bool_decide_eq_false in Hk.
    rewrite filter_cons_True by (split; [by destruct x|done]).
    rewrite fmap_cons, IHl by done. cbn [fst snd]. by rewrite Hx.
Qed.

(** What [removeUndefined] returns holds [undefined] nowhere, at any depth,
    and is never [undefined] itself, so that the second test in its loop
    never fails; no object in it has a key twice; and cleaning it again
    changes nothing. *)
Lemma removeUndefined_clean (v : JsValue) :
  hasUndefined (removeUndefined v) = false
  ∧ isUndefined (removeUndefined v) = false
  ∧ distinctKeys (removeUndefined v) = true
  ∧ removeUndefined (removeUndefined v) = removeUndefined v.
Proof.
  split; [apply removeUndefined_hasUndefined|]. split; [by destruct v|].
  split; [apply removeUndefined_distinctKeys|].
  apply removeUndefined_fixed;
    [apply removeUndefined_distinctKeys|apply removeUndefined_hasUndefined
    |apply removeUndefined_hasProtoKey].
Qed.

(** On a value in which no object has a key twice: a value without
    [undefined] and without the key [__proto__] is returned as it is; an
    array keeps its length, with [null] in the place of each [undefined];
    an object loses exactly the entries whose value is [undefined] and the
    entry whose key is [__proto__], and the others keep their order. *)
Lemma removeUndefined_keeps (v : JsValue) :
  distinctKeys v = true →
  (hasUndefined v = false → hasProtoKey v = false → removeUndefined v = v)
  ∧ (∀ items, v = JArray items →
       ∃ items', removeUndefined v = JArray items'
                 ∧ length items' = length items
                 ∧ ∀ i x, items !! i = Some x →
                          items' !! i = Some (removeUndefined x)
                          ∧ (x = JUndefined → items' !! i = Some JNull))
  ∧ (∀ entries, v = JObject entries →
       removeUndefined v
       = JObject ((λ kv, (kv.1, removeUndefined kv.2))
                    <$> filter (λ kv, isUndefined kv.2 = false
                                      ∧ kv.1 ≠ js "__proto__") entries)).
Proof.
  intros Hd. split; [by apply removeUndefined_fixed|]. split.
  - intros items ->. exists (removeUndefined <$> items). split; [done|].
    split; [by rewrite length_fmap|]. intros i x Hi.
    rewrite list_lookup_fmap, Hi. split; [done|]. by intros ->.
  - intros entries ->. apply removeUndefined_entries.
    cbn [distinctKeys] in Hd. apply andb_true_iff in Hd as [Hnd _].
    by apply bool_decide_eq_true in Hnd.
Qed.

Lemma removeUndefined_keeps_witness :
  let v := JObject [(js "message", JString (js "hi"));
                    (js "photoUrl", JUndefined);
                    (js "__proto__", JString (js "x"));
                    (js "tags", JArray [JUndefined; JNumber 1])] in
  distinctKeys v = true
  ∧ removeUndefined v
    = JObject [(js "message", JString (js "hi"));
               (js "tags", JArray [JNull; JNumber 1])].
Proof.
  intros v.
  assert (Hd : distinctKeys v = true) by (vm_compute; reflexivity).
  split; [exact Hd|].
  destruct (removeUndefined_keeps v Hd) as (_ & _ & Hobj).
  rewrite (Hobj _ eq_refl). vm_compute. reflexivity.
Defined.

(** ** Note identifiers *)

Lemma floorTimes_range x n j :
  QArith_base.Qle (QArith_base.inject_Z 0) x →
  QArith_base.Qle x BELOW_ONE →
  0 < n → (0 ≤ j ≤ 52)%Z → (Z.of_nat n ≤ 2 ^ j)%Z → (2 ^ j < 2 * Z.of_nat n)%Z →
  (0 ≤ floorTimes x n < Z.of_nat n)%Z.
Proof.
  intros H0 H1 Hn Hj Hnj Hjn. unfold floorTimes.
  unfold QArith_base.Qle in H0, H1. cbn in H0, H1.
  pose proof (floor_product_lt (QArith_base.Qnum x) (Z.pos (QArith_base.Qden x))
                (Z.of_nat n) j) as Hfl.
  destruct (roundDouble _ _) as [num den]. apply Hfl; lia.
Qed.

(** The product is rounded before the floor is taken: 0.6, that is
    5404319552844595 / 2 ^ 53, times 55 is 33, where the exact product is
    below 33. *)
Example floorTimes_rounds :
  floorTimes (QArith_base.Qmake 5404319552844595 (2 ^ 53)) 55 = 33%Z
  ∧ (5404319552844595 * 55 / 2 ^ 53 = 32)%Z.
Proof. by vm_compute. Qed.

Lemma charAt_range s i :
  (0 ≤ i < Z.of_nat (length s))%Z → ∃ c, charAt s i = [c] ∧ c ∈ s.
Proof.
  intros Hi. unfold charAt. rewrite bool_decide_eq_true_2 by lia.
  destruct (lookup_lt_is_Some_2 s (Z.to_nat i)) as [x Hx]; [lia|].
  rewrite Hx. exists x. split; [done|]. by eapply list_elem_of_lookup_2.
Qed.

(** With what [Math.random()] returns in the interval from 0 to 1, 1 left
    out, that is, up to the largest number below 1, [generateId] returns
    eight code units, each one of the 55 of its alphabet: the rounded
    product with 55 stays below 55. So every identifier is made of letters
    and digits only, and none of I, O, i, l, o, 0 and 1 occurs in it. *)
Lemma generateId_alphabet (random : nat → QArith_base.Q) (n : nat) :
  (∀ i, QArith_base.Qle (QArith_base.inject_Z 0) (random i)
        ∧ QArith_base.Qle (random i) BELOW_ONE) →
  length (generateId random n) = 8
  ∧ Forall (λ c, c ∈ js "ABCDEFGHJKLMNPQRSTUVWXYZabcdefghjkmnpqrstuvwxyz23456789")
           (generateId random n)
  ∧ Forall (λ c, isAlnum c = true ∧ c ∉ js "IOilo01") (generateId random n).
Proof.
  intros Hrandom. unfold generateId. cbv zeta.
  set (chars := js "ABCDEFGHJKLMNPQRSTUVWXYZabcdefghjkmnpqrstuvwxyz23456789").
  assert (Hgen : ∀ (l : list nat) acc,
            Forall (λ c, c ∈ chars) acc →
            let r := foldl (λ result i,
                              result ++ charAt chars
                                          (floorTimes (random (n + i)) (length chars)))
                           acc l in
            length r = length acc + length l ∧ Forall (λ c, c ∈ chars) r).
  { induction l as [|i l IH]; intros acc Hacc; [simpl; split; [lia|done]|].
    cbn [foldl].
    destruct (charAt_range chars (floorTimes (random (n + i)) (length chars)))
      as (c & Hc & Hin).
    { destruct (Hrandom (n + i)) as [H0 H1].
      apply (floorTimes_range _ _ 6); [done|done|..]; subst chars; vm_compute;
        (lia || done || (split; discriminate)). }
    rewrite Hc. destruct (IH (acc ++ [c])) as [Hlen Hall].
    { apply Forall_app. split; [done|]. by constructor. }
    split; [|done]. rewrite Hlen, length_app. simpl. lia. }
  destruct (Hgen (seq 0 8) []) as [Hlen Hall]; [done|].
  split; [done|]. split; [done|].
  eapply Forall_impl; [exact Hall|]. intros c Hc.
  assert (Hchars : Forall (λ c, isAlnum c = true ∧ c ∉ js "IOilo01") chars).
  { apply (bool_decide_unpack _). by vm_compute. }
  rewrite Forall_forall in Hchars. by apply Hchars.
Qed.

Lemma generateId_alphabet_witness :
  let random := λ _ : nat, QArith_base.Qmake 1 2 in
  (∀ i, QArith_base.Qle (QArith_base.inject_Z 0) (random i)
        ∧ QArith_base.Qle (random i) BELOW_ONE)
  ∧ length (generateId random 0) = 8.
Proof.
  intros random.
  assert (Hrandom : ∀ i, QArith_base.Qle (QArith_base.inject_Z 0) (random i)
                         ∧ QArith_base.Qle (random i) BELOW_ONE).
  { intros i. split; vm_compute; discriminate. }
  split; [exact Hrandom|]. exact (proj1 (generateId_alphabet random 0 Hrandom)).
Defined.
